(** * 2Cmetro: the route compiler and the fare calculator

    A shallow embedding of [metroroute.py] and [metrofares.py]: the metro
    graph with its breadth-first searches, the fare formula,
    [get_route_from_path], which turns a station path into the list of
    [BeginAt] / [GoTo] / [Transfer] / [ArriveAt] actions, the functions
    that display a route, and the two [main]s. *)

From Equations Require Import Equations.
From stdpp Require Import gmap strings list fin_maps pretty sorting.
From Stdlib Require Import ZArith Lia.

#[local] Set Warnings "-clear-no-such-hyp".

Local Open Scope string_scope.
Local Open Scope list_scope.
Local Open Scope Z_scope.

(** ** Python results *)

(** The exceptions the two programs can raise. *)
Inductive exn : Type :=
| KeyError
| IndexError
| ValueError (msg : string)
| NameError.

(** The result of evaluating a Python expression or call: a value, or an
    exception on its way up. *)
Inductive res (A : Type) : Type :=
| Ret (a : A)
| Raise (e : exn).
Arguments Ret {A} a.
Arguments Raise {A} e.

#[global] Instance res_ret : MRet res := λ A a, Ret a.

#[global] Instance res_bind : MBind res := λ A B k r,
  match r with
  | Ret a => k a
  | Raise e => Raise e
  end.

(** [l[i]] on a Python list, negative indices included. *)
Definition py_index {A} (l : list A) (i : Z) : res A :=
  let n := Z.of_nat (length l) in
  let j := if i <? 0 then n + i else i in
  if (0 <=? j) && (j <? n) then
    match l !! Z.to_nat j with
    | Some x => Ret x
    | None => Raise IndexError
    end
  else Raise IndexError.

(** [d[k]] on a Python dict. *)
Definition py_getitem {V} (d : gmap string V) (k : string) : res V :=
  match d !! k with
  | Some v => Ret v
  | None => Raise KeyError
  end.

(** ** Lines and actions *)

Inductive Line : Type := CTL | CSL | APL | HTL | RLR.

#[global] Instance Line_eq_dec : EqDecision Line.
Proof. solve_decision. Defined.

Definition Line_to_nat (l : Line) : nat :=
  match l with CTL => 0 | CSL => 1 | APL => 2 | HTL => 3 | RLR => 4 end%nat.

Definition Line_of_nat (n : nat) : Line :=
  match n with
  | 0 => CTL | 1 => CSL | 2 => APL | 3 => HTL | _ => RLR
  end%nat.

#[global] Instance Line_countable : Countable Line.
Proof.
  apply (inj_countable' Line_to_nat Line_of_nat). by intros [].
Defined.

(** The value of the enum member. *)
Definition Line_value (l : Line) : string :=
  match l with
  | CTL => "Central Line"
  | CSL => "Coastal Line"
  | APL => "Airport Line"
  | HTL => "Hattakesh Line"
  | RLR => "Redackistan Light Rail"
  end.

(** The four dataclasses.  [GoTo] has the four declared fields; the last
    argument is the attribute [to_line] that the second pass of
    [get_route_from_path] sets on the instance ([None] while unset). *)
Inductive Action : Type :=
| Transfer (at_ : string) (from_line to_line : Line)
| GoTo (to frm : string) (on_line : Line) (stations : list string)
       (to_line : option Line)
| BeginAt (station : string)
| ArriveAt (station : string).

Definition is_GoTo (a : Action) : bool :=
  match a with GoTo _ _ _ _ _ => true | _ => false end.

Definition is_Transfer (a : Action) : bool :=
  match a with Transfer _ _ _ => true | _ => false end.

(** ** The static tables *)

Definition STATIONS : list (string * list string) :=
  [ ("central",
      [ "hasiph"; "korihasiph"; "southbridge"; "parliament"; "kandami";
        "kutsimati"; "kemigitech"; "azadimoph" ]);
    ("coastal",
      [ "venice"; "waisharkil"; "korihasiph"; "hasiph"; "dern"; "detech";
        "amiri"; "snowbing" ]);
    ("airport",
      [ "airport"; "venice"; "quramitu"; "hayalese"; "university";
        "parliament"; "distaye"; "rasir piss"; "marcosia"; "sanzaleka";
        "akemane"; "dern" ]);
    ("hattakesh",
      [ "hasiph"; "damatsalan"; "rasir piss"; "kanahide"; "kemigitech";
        "yelojaber" ]) ].

Definition STATION_LINES : gmap string (list Line) :=
  list_to_map
  [ ("akemane", [CTL; APL]);
    ("hasiph", [CTL; CSL; HTL]);
    ("korihasiph", [CTL; CSL]);
    ("southbridge", [CTL]);
    ("parliament", [CTL; APL]);
    ("kandami", [CTL]);
    ("kutsimati", [CTL]);
    ("kemigitech", [CTL; HTL]);
    ("azadimoph", [CTL]);
    ("venice", [CSL; APL]);
    ("waisharkil", [CSL]);
    ("dern", [CSL; APL]);
    ("detech", [CSL]);
    ("amiri", [CSL; RLR]);
    ("snowbing", [CSL]);
    ("airport", [APL]);
    ("quramitu", [APL]);
    ("hayalese", [APL]);
    ("university", [APL]);
    ("distaye", [APL]);
    ("rasir piss", [APL; HTL]);
    ("marcosia", [APL]);
    ("sanzaleka", [APL]);
    ("damatsalan", [HTL]);
    ("kanahide", [HTL]);
    ("yelojaber", [HTL]);
    ("amirkhan", [RLR]);
    ("amiri south", [RLR]) ].

(** ** Sets of lines *)

(** [set(l)] *)
Definition py_set (l : list Line) : gset Line := list_to_set l.

(** [list(s)] enumerates a set in an order that Python leaves open (it
    follows the hashes of the enum members, which change from one process
    to the next).  The embedding takes the enumeration as a parameter and
    only knows that it lists the elements of the set. *)
Record set_iteration : Type := SetIteration {
  py_list : gset Line → list Line;
  py_list_elem_of : ∀ (s : gset Line) (x : Line), x ∈ py_list s ↔ x ∈ s
}.

(** One such enumeration, used where a concrete one is needed. *)
Definition elements_iteration : set_iteration :=
  {| py_list := elements; py_list_elem_of := λ s x, elem_of_elements s x |}.

Definition has_common (list1 list2 : list Line) : bool :=
  let set1 := py_set list1 in
  let set2 := py_set list2 in
  negb (bool_decide (set1 ## set2)).

(** ** The route compiler *)

(** [common_line_between_stations] up to its [return]: the set [val]. *)
Definition common_line_set (stations : list string) : res (gset Line) :=
  if bool_decide (length stations = 0%nat) then
    Raise (ValueError "Not enough stations for calculaton")
  else
    lines ← mapM (λ station,
               l ← py_getitem STATION_LINES station; Ret (py_set l)) stations;
    match lines with
    | [] => Raise IndexError
    | first :: rest => Ret (foldl (∩) first rest)
    end.

Section compiler.
Context (order : set_iteration).

Definition common_line_between_stations (stations : list string)
  : res (list Line) :=
  val ← common_line_set stations;
  Ret (py_list order val).

(** [common_line_between_stations(buf)[0]] *)
Definition first_common_line (buf : list string) : res Line :=
  common_lines ← common_line_between_stations buf;
  py_index common_lines 0.

(** The local variables of [get_route_from_path] that live across the
    iterations of its first loop.  [curline] is unbound until the first
    iteration assigns it. *)
Record locals : Type := Locals {
  route : list Action;
  begin : string;
  buf : list string;
  i : Z;
  curline : option Line
}.

(** The locals before the first loop. *)
Definition initial_locals : locals := Locals [] "" [] 0 None.

Section first_pass.
Context (path : list string).

(** The closure [cond]; it reads [i] and [curline] when it is called. *)
Definition cond (curline : option Line) (i : Z) : res bool :=
  here ← py_index path i;
  lines_here ← py_getitem STATION_LINES here;
  next ← py_index path (i + 1);
  lines_next ← py_getitem STATION_LINES next;
  if has_common lines_here lines_next then
    cur ← match curline with
          | Some c => Ret c
          | None => Raise NameError
          end;
    Ret (bool_decide (cur ∈ py_set lines_here ∪ py_set lines_next))
  else Ret false.

(** [while cond(): buf.append(path[i]); i += 1].  An exception leaves
    [buf] and [i] as they were when it was raised.  The loop ends
    because [cond] can only hold while [i + 1] indexes [path]. *)
Equations? scan (curline : option Line) (buf : list string) (i : Z)
  : res () * list string * Z
  by wf (Z.to_nat (Z.of_nat (length path) - i)) lt :=
  scan curline buf i with Logic.inspect (cond curline i) := {
    | exist _ (Ret true) Hc =>
        match py_index path i with
        | Ret here => scan curline (buf ++ [here]) (i + 1)
        | Raise e => (Raise e, buf, i)
        end
    | exist _ (Ret false) _ => (Ret (), buf, i)
    | exist _ (Raise e) _ => (Raise e, buf, i) }.
Proof.
  match goal with
  | H : cond _ ?j = Ret true |- _ =>
      assert (j < Z.of_nat (length path)); [|lia];
      unfold cond in H;
      destruct (py_index path j) as [here'|e'] eqn:Hhere; [|discriminate];
      unfold py_index in Hhere;
      destruct (j <? 0) eqn:Hneg; [lia|];
      destruct ((0 <=? j) && (j <? Z.of_nat (length path))) eqn:Hin;
        [|discriminate];
      apply andb_prop in Hin as [_ ?]; lia
  end.
Qed.

(** What one iteration of the first loop does next. *)
Inductive flow : Type :=
| Continue (st : locals)
| Break (st : locals).

(** The [if i == 0:] block. *)
Definition start_block (st : locals) : res locals :=
  if bool_decide (i st = 0) then
    here ← py_index path (i st);
    let route := route st ++ [BeginAt here] in
    begin ← py_index path (i st);
    here ← py_index path (i st);
    lines_here ← py_getitem STATION_LINES here;
    curline ← py_index lines_here 0;
    Ret (Locals route begin (buf st) (i st) (Some curline))
  else Ret st.

(** The [if len(STATION_LINES[path[i]]) > 1:] block that ends the
    loop body. *)
Definition transfer_block (st : locals) : res locals :=
  here ← py_index path (i st);
  lines_here ← py_getitem STATION_LINES here;
  if bool_decide (1 < length lines_here)%nat then
    curline ← py_index lines_here 0;
    let route := route st ++ [GoTo here (begin st) curline (buf st) None] in
    nextstation ← py_index path (i st + 1);
    let buf := [here; nextstation] in
    lines_next ← py_getitem STATION_LINES nextstation;
    from_line ← py_index lines_next 0;
    to_line ← py_index lines_here 0;
    let route := route ++ [Transfer here from_line to_line] in
    Ret (Locals route here buf (i st + 1) (Some curline))
  else Ret st.

(** [action.to_line = common_line] on the last element of [route],
    when that element is a [Transfer]. *)
Definition patch_to_line (route : list Action) (common_line : Line)
  : list Action :=
  match last route with
  | Some (Transfer at_ from_line _) =>
      <[pred (length route) := Transfer at_ from_line common_line]> route
  | _ => route
  end.

(** The [except IndexError:] handler. *)
Definition handler (st : locals) : res flow :=
  if bool_decide (i st = Z.of_nat (length path) - 1) then
    final ← py_index (route st) (Z.of_nat (length (route st)) - 1);
    if negb (is_GoTo final) then
      common_line ← first_common_line (buf st);
      here ← py_index path (i st);
      let buf := buf st ++ [here] in
      let route := patch_to_line (route st) common_line in
      let route := route ++ [GoTo here (begin st) common_line buf None] in
      let route := route ++ [ArriveAt here] in
      Ret (Break (Locals route (begin st) buf (i st) (curline st)))
    else Ret (Continue st)
  else Ret (Continue st).

(** The [try:] block with its handler. *)
Definition try_block (st : locals) : res flow :=
  let '(scanned, buf, i) := scan (curline st) (buf st) (i st) in
  match scanned with
  | Ret () =>
      Ret (Continue (Locals (route st) (begin st) buf (i - 1) (curline st)))
  | Raise IndexError =>
      handler (Locals (route st) (begin st) buf i (curline st))
  | Raise e => Raise e
  end.

(** The body of [while i < len(path):]. *)
Definition body (st : locals) : res flow :=
  st ← start_block st;
  after_try ← try_block st;
  match after_try with
  | Break st => Ret (Break st)
  | Continue st => st ← transfer_block st; Ret (Continue st)
  end.

(** The first loop.  It need not end, so it runs on [fuel]: [None]
    means that [fuel] iterations were not enough. *)
Fixpoint first_loop (fuel : nat) (st : locals) : option (res locals) :=
  if bool_decide (i st < Z.of_nat (length path)) then
    match fuel with
    | O => None
    | S fuel =>
        match body st with
        | Raise e => Some (Raise e)
        | Ret (Break st) => Some (Ret st)
        | Ret (Continue st) => first_loop fuel st
        end
    end
  else Some (Ret st).
End first_pass.

(** One step of [for i, actn in enumerate(route):]. *)
Definition backfill (route : list Action) (i : nat) : res (list Action) :=
  match route !! i with
  | Some (GoTo to frm _ stations to_line) =>
      line ← first_common_line stations;
      let route := <[i := GoTo to frm line stations to_line]> route in
      following ← py_index route (Z.of_nat i + 1);
      match following with
      | Transfer _ _ next_to_line =>
          Ret (<[i := GoTo to frm line stations (Some next_to_line)]> route)
      | _ => Ret route
      end
    | Some (Transfer at_ from_line to_line) =>
      match py_index route (Z.of_nat i - 1) with
      | Ret (GoTo _ _ on_line _ _) =>
          Ret (<[i := Transfer at_ on_line to_line]> route)
      | Ret _ => Ret route
      | Raise IndexError => Ret route
      | Raise e => Raise e
      end
  | _ => Ret route
  end.

(** The second loop, over the indices still to visit. *)
Fixpoint second_loop (indices : list nat) (route : list Action)
  : res (list Action) :=
  match indices with
  | [] => Ret route
  | i :: indices => route ← backfill route i; second_loop indices route
  end.

Definition get_route_from_path (fuel : nat) (path : list string)
  : option (res (list Action)) :=
  match first_loop path fuel initial_locals with
  | None => None
  | Some (Raise e) => Some (Raise e)
  | Some (Ret st) =>
      Some (second_loop (seq 0 (length (route st))) (route st))
  end.
End compiler.

(** ** The metro graph *)

Section network.
(** [MetroNetwork.graph]: the adjacency lists, keyed by station. *)
Implicit Types graph : gmap string (list string).

Definition add_station graph (station : string) : gmap string (list string) :=
  match graph !! station with
  | Some _ => graph
  | None => <[station := []]> graph
  end.

(** [alter] is [graph[k].append(x)]: both keys were just added. *)
Definition add_connection graph (station1 station2 : string)
  : gmap string (list string) :=
  let graph := add_station graph station1 in
  let graph := add_station graph station2 in
  let graph := alter (λ adj, adj ++ [station2]) station1 graph in
  alter (λ adj, adj ++ [station1]) station2 graph.

Fixpoint add_connections graph (conns : list string)
  : gmap string (list string) :=
  match conns with
  | station1 :: (station2 :: _) as rest =>
      add_connections (add_connection graph station1 station2) rest
  | _ => graph
  end.

(** The two searches run the same loop; they differ in what travels with
    a queued station: the distance ([shortest_path]) or the path so far
    ([get_path]). *)
Section search.
Context {A : Type} (extend : A → string → A).
Context (graph : gmap string (list string)) (end_ : string).

(** [for neighbor in ...: if neighbor not in visited: queue.append(...)] *)
Definition enqueue_neighbors (visited : gset string) (a : A)
    (adj : list string) (queue : list (string * A)) : list (string * A) :=
  queue ++ ((λ neighbor, (neighbor, extend a neighbor)) <$>
              filter (λ neighbor, neighbor ∉ visited) adj).

(** [while queue: ...].  A station is marked when it is taken from the
    queue, so each iteration either marks a new key of [graph] or
    shortens the queue. *)
Equations? search (visited : gset string) (queue : list (string * A))
  : res (option A)
  by wf (size (dom graph ∖ visited), length queue) (Subterm.lexprod nat nat lt lt) :=
  search visited [] := Ret None;
  search visited ((current_station, a) :: queue)
    with decide (current_station = end_) := {
    | left _ => Ret (Some a)
    | right _ with decide (current_station ∈ visited) := {
      | left _ => search visited queue
      | right Hnew with Logic.inspect (graph !! current_station) := {
        | exist _ (Some adj) Hadj =>
            search ({[current_station]} ∪ visited)
                   (enqueue_neighbors ({[current_station]} ∪ visited)
                                      a adj queue)
        | exist _ None _ => Raise KeyError } } }.
Proof.
  - right. simpl. lia.
  - left. apply subset_size.
    assert (current_station ∈ dom graph) by (apply elem_of_dom; eauto).
    set_solver.
Defined.
End search.

Definition shortest_path graph (start end_ : string) : res (option Z) :=
  if bool_decide (start ∉ dom graph) || bool_decide (end_ ∉ dom graph) then
    Ret None
  else
    search (λ distance _, distance + 1) graph end_ ∅ [(start, 0)].

Definition get_path graph (start end_ : string)
  : res (option (list string)) :=
  if bool_decide (start ∉ dom graph) || bool_decide (end_ ∉ dom graph) then
    Ret None
  else
    search (λ path neighbor, path ++ [neighbor]) graph end_ ∅
           [(start, [start])].

Definition calculate_fare graph (start end_ : string) : res Z :=
  distance ← shortest_path graph start end_;
  match distance with
  | None => Raise (ValueError "invalid route")
  | Some distance =>
      let base_fare := 5 in
      let additional_cost := 1 * (distance - 1) in
      let total_fare := base_fare + additional_cost in
      Ret (if bool_decide (5 ≤ total_fare) then total_fare else -1)
  end.
End network.

(** The network that both [main]s build: one [add_connections] per line of
    [STATIONS], starting from an empty graph. *)
Definition metro : gmap string (list string) :=
  foldl (λ graph line, add_connections graph line.2) ∅ STATIONS.


(** ** Shapes of action lists *)

(** [GoTo, Transfer, ..., GoTo, ArriveAt]: the legs of an itinerary. *)
Inductive legs : list Action → Prop :=
| legs_final to frm on_line stations to_line station :
    legs [GoTo to frm on_line stations to_line; ArriveAt station]
| legs_change to frm on_line stations to_line at_ from_line next_line rest :
    legs rest →
    legs (GoTo to frm on_line stations to_line ::
          Transfer at_ from_line next_line :: rest).

(** [BeginAt, (GoTo, Transfer)*, GoTo, ArriveAt] *)
Inductive itinerary : list Action → Prop :=
| itinerary_begin station rest :
    legs rest → itinerary (BeginAt station :: rest).

(** [BeginAt(start), (GoTo, Transfer)*]: the route while the first loop
    is still running. *)
Inductive under_way (start : string) : list Action → Prop :=
| under_way_begin : under_way start [BeginAt start]
| under_way_change route to frm on_line stations to_line at_ from_line next_line :
    under_way start route →
    under_way start (route ++ [GoTo to frm on_line stations to_line;
                               Transfer at_ from_line next_line]).

(** Two [Transfer]s in a row somewhere in the list. *)
Fixpoint consecutive_transfers (route : list Action) : bool :=
  match route with
  | a :: (b :: _) as rest =>
      (is_Transfer a && is_Transfer b) || consecutive_transfers rest
  | _ => false
  end.

(** An action without the lines that the second loop fills in. *)
Definition plain (a : Action) : Action :=
  match a with
  | Transfer at_ _ _ => Transfer at_ CTL CTL
  | GoTo to frm _ stations _ => GoTo to frm CTL stations None
  | a => a
  end.

(** The route ends in an action that is not a [GoTo]. *)
Definition settled (route : list Action) : Prop :=
  ∃ a, last route = Some a ∧ is_GoTo a = false.

(** [reach order path n st st']: [n] iterations of the first loop lead
    from [st] to [st']. *)
Inductive reach (order : set_iteration) (path : list string)
  : nat → locals → locals → Prop :=
| reach_here st : reach order path 0 st st
| reach_step n st st' st'' :
    i st < Z.of_nat (length path) →
    body order path st = Ret (Continue st') →
    reach order path n st' st'' →
    reach order path (S n) st st''.

(** Two states of the first loop from which it takes the same branches:
    the same [i] and [curline], and no [GoTo] at the end of [route]. *)
Definition agree (st1 st2 : locals) : Prop :=
  i st1 = i st2 ∧ curline st1 = curline st2 ∧
  settled (route st1) ∧ settled (route st2).

(** The same at the top of the loop body, where [i == 0] resets
    [curline] and appends to [route]. *)
Definition agree_at_top (st1 st2 : locals) : Prop :=
  i st1 = i st2 ∧ (i st1 = 0 ∨ agree st1 st2).

(** Two results that both go on, in related states, or both do not. *)
Definition same_flow (R : locals → locals → Prop) (r1 r2 : res flow) : Prop :=
  match r1, r2 with
  | Ret (Continue st1), Ret (Continue st2) => R st1 st2
  | Ret (Continue _), _ | _, Ret (Continue _) => False
  | _, _ => True
  end.

Definition same_res (R : locals → locals → Prop) (r1 r2 : res locals) : Prop :=
  match r1, r2 with
  | Ret st1, Ret st2 => R st1 st2
  | Raise _, Raise _ => True
  | _, _ => False
  end.


(** ** Networks and walks *)

(** The graphs that the methods of [MetroNetwork] build from the empty
    one. *)
Inductive network : gmap string (list string) → Prop :=
| network_empty : network ∅
| network_station graph station :
    network graph → network (add_station graph station)
| network_connection graph station1 station2 :
    network graph → network (add_connection graph station1 station2).

(** Every neighbour is a key of the graph. *)
Definition closed (graph : gmap string (list string)) : Prop :=
  ∀ station adj neighbor,
    graph !! station = Some adj → neighbor ∈ adj → neighbor ∈ dom graph.

(** Every edge has its reverse. *)
Definition symmetric (graph : gmap string (list string)) : Prop :=
  ∀ station adj neighbor,
    graph !! station = Some adj → neighbor ∈ adj →
    ∃ adj', graph !! neighbor = Some adj' ∧ station ∈ adj'.

(** [walk graph start n station]: [n] hops along neighbours lead from
    [start] to [station]. *)
Inductive walk (graph : gmap string (list string)) (start : string)
  : Z → string → Prop :=
| walk_here : start ∈ dom graph → walk graph start 0 start
| walk_step n station adj neighbor :
    walk graph start n station →
    graph !! station = Some adj →
    neighbor ∈ adj →
    walk graph start (n + 1) neighbor.

(** What holds of [visited] and [queue] each time [shortest_path] tests
    [while queue:], for the level [k] of the search: the queue holds
    stations at [k] hops, then stations at [k + 1] hops; everything nearer
    than [k] is visited; everything at [k] hops, and every neighbour of a
    visited station, is visited or queued. *)
Record search_invariant (graph : gmap string (list string))
    (start end_ : string) (k : Z)
    (visited : gset string) (queue : list (string * Z)) : Prop := {
  inv_level : 0 ≤ k;
  inv_walks : Forall (λ e, walk graph start e.2 e.1) queue;
  inv_sorted : ∃ now later,
    queue = now ++ later ∧
    Forall (λ e, e.2 = k) now ∧ Forall (λ e, e.2 = k + 1) later;
  inv_neighbors : ∀ station adj neighbor,
    station ∈ visited → graph !! station = Some adj → neighbor ∈ adj →
    neighbor ∈ visited ∨ ∃ d, (neighbor, d) ∈ queue;
  inv_nearer : ∀ n station,
    walk graph start n station → n < k → station ∈ visited;
  inv_frontier : ∀ station,
    walk graph start k station → station ∈ visited ∨ (station, k) ∈ queue;
  inv_end : end_ ∉ visited
}.

(** What the first loop has built when it stops: a route [under_way], then
    the last [GoTo] and the [ArriveAt] for the last station of [path]. *)
Definition arrived (path : list string) (start : string)
    (route : list Action) : Prop :=
  ∃ route' stop frm common_line stations,
    under_way start route' ∧
    py_index path (Z.of_nat (length path) - 1) = Ret stop ∧
    route = route' ++ [GoTo stop frm common_line stations None; ArriveAt stop].

(** A [GoTo] whose line is the first common line of its stations. *)
Definition resolved (order : set_iteration) (a : Action) : Prop :=
  match a with
  | GoTo _ _ on_line stations _ =>
      first_common_line order stations = Ret on_line
  | _ => True
  end.


(** What one step of the second loop may do to the route: nothing, or
    put an action with the same [plain] form, [resolved] if it is a
    [GoTo], at index [k]. *)
Definition refilled (order : set_iteration) (route : list Action) (k : nat) (route' : list Action)
    : Prop :=
  length route' = length route ∧
  (∀ j, j ≠ k → route' !! j = route !! j) ∧
  (∀ a, route' !! k = Some a →
        resolved order a ∧ ∃ a0, route !! k = Some a0 ∧ plain a = plain a0).

(** Stations whose common lines leave [list(val)[0]] no choice: at most
    one line is common, or finding them raises. *)
Definition decided (stations : list string) : bool :=
  match common_line_set stations with
  | Ret val => bool_decide (size val ≤ 1)%nat
  | Raise _ => true
  end.

Definition decided_action (a : Action) : Prop :=
  match a with
  | GoTo _ _ _ stations _ => decided stations = true
  | _ => True
  end.


(** [neighbor] is in the adjacency list of [station]. *)
Definition edge (graph : gmap string (list string))
    (station neighbor : string) : Prop :=
  ∃ adj, graph !! station = Some adj ∧ neighbor ∈ adj.

(** [distance] is the least number of hops of a walk from [start] to
    [end_]. *)
Definition shortest (graph : gmap string (list string)) (start end_ : string)
    (distance : Z) : Prop :=
  walk graph start distance end_ ∧
  ∀ n, walk graph start n end_ → distance ≤ n.

(** The result of a search for [end_] from [start]: the least distance,
    [None] when no walk leads there, and never an exception. *)
Definition distance_found (graph : gmap string (list string))
    (start end_ : string) (result : res (option Z)) : Prop :=
  match result with
  | Ret (Some distance) => shortest graph start end_ distance
  | Ret None => ∀ n, ¬ walk graph start n end_
  | Raise _ => False
  end.

(** ** Displaying a route *)

Definition STATION_CODES : gmap string (list string) :=
  list_to_map
  [ ("akemane", ["AP11"; "CT13"]);
    ("hasiph", ["CT1"; "CS5"; "HT1"]);
    ("korihasiph", ["CT2"; "CS4"]);
    ("southbridge", ["CT3"]);
    ("parliament", ["CT4"; "AP6"]);
    ("kandami", ["CT5"]);
    ("kutsimati", ["CT6"]);
    ("kemigitech", ["CT7"; "HT5"]);
    ("azadimoph", ["CT8"]);
    ("airport", ["AP1"]);
    ("venice", ["AP2"; "CS1"]);
    ("quramitu", ["AP3"]);
    ("hayalese", ["AP4"]);
    ("university", ["AP5"]);
    ("distaye", ["AP7"]);
    ("rasir piss", ["AP8"; "HT3"]);
    ("marcosia", ["AP9"]);
    ("sanzaleka", ["AP10"]);
    ("dern", ["AP12"; "CS6"]);
    ("waisharkil", ["CS3"]);
    ("detech", ["CS7"]);
    ("amiri", ["CS8"; "RL2"]);
    ("snowbing", ["CS9"]);
    ("damatsalan", ["HT2"]);
    ("kanahide", ["HT4"]);
    ("yelojaber", ["HT6"]);
    ("amirkhan", ["RL1"]);
    ("amiri south", ["RL3"]) ].

(** The escape sequences of the [colorama] package that the program
    prints.  The package is not part of the program: its constants are
    parameters of the display functions. *)
Record colorama : Type := Colorama {
  Fore_GREEN : string;
  Fore_RED : string;
  Fore_BLUE : string;
  Fore_MAGENTA : string;
  Fore_CYAN : string;
  Style_BRIGHT : string;
  Style_RESET_ALL : string
}.

(** The line feed. *)
Definition newline : string :=
  String (Ascii.Ascii false true false true false false false false) "".

Section display.
(** [title] is [str.title]. *)
Context (colors : colorama) (title : string → string).

Definition line_to_color (line : Line) : string :=
  match line with
  | CTL => Fore_GREEN colors
  | CSL => Fore_RED colors
  | APL => Fore_BLUE colors
  | HTL => Fore_MAGENTA colors
  | RLR => Fore_CYAN colors
  end.

(** [code[:2]] is [substring 0 2 code]; [ValueError()] has no message. *)
Definition station_code_to_line (code : string) : res Line :=
  let prefix := String.substring 0 2 code in
  if decide (prefix = "CS") then Ret CSL
  else if decide (prefix = "CT") then Ret CTL
  else if decide (prefix = "AP") then Ret APL
  else if decide (prefix = "HT") then Ret HTL
  else if decide (prefix = "RL") then Ret RLR
  else Raise (ValueError "").

Definition display_line (line : Line) : string :=
  Style_BRIGHT colors +:+ line_to_color line +:+ Line_value line +:+
  Style_RESET_ALL colors.

(** [for i, code in enumerate(station_code): ...], from index [i] on;
    [n] is [len(station_code)] and [text] is the variable [res]. *)
Fixpoint display_station_code_from (n : nat) (i : nat) (codes : list string)
    (text : string) : res string :=
  match codes with
  | [] => Ret text
  | code :: codes =>
      line ← station_code_to_line code;
      let color := line_to_color line in
      let txt := Style_BRIGHT colors +:+ color +:+ code +:+
                 Style_RESET_ALL colors in
      let txt := if bool_decide (Z.of_nat i < Z.of_nat n - 1)%Z
                 then txt +:+ "|" else txt in
      display_station_code_from n (S i) codes (text +:+ txt)
  end.

Definition display_station_code (station_code : list string) : res string :=
  text ← display_station_code_from (length station_code) 0 station_code "(";
  Ret (text +:+ ")").

Definition display_station (station : string) : res string :=
  station_code ← py_getitem STATION_CODES station;
  code ← display_station_code station_code;
  Ret (code +:+ " " +:+ Style_BRIGHT colors +:+ title station +:+
       Style_RESET_ALL colors).

(** [for i, station in enumerate(stations): ...], from index [i] on. *)
Fixpoint display_station_list_from (n : nat) (i : nat) (stations : list string)
    (txt : string) : res string :=
  match stations with
  | [] => Ret txt
  | station :: stations =>
      shown ← display_station station;
      let txt := txt +:+ shown in
      let txt :=
        if bool_decide (Z.of_nat i = Z.of_nat n - 2)%Z then txt +:+ " and "
        else if bool_decide (Z.of_nat i = Z.of_nat n - 1)%Z then txt
        else txt +:+ ", " in
      display_station_list_from n (S i) stations txt
  end.

Definition display_station_list (stations : list string) : res string :=
  display_station_list_from (length stations) 0 stations "".

(** The f-string that [display_route] builds for [action]. *)
Definition display_action (action : Action) : res string :=
    match action with
    | BeginAt station =>
        at_ ← display_station station;
        Ret (Style_BRIGHT colors +:+ "Begin" +:+ Style_RESET_ALL colors +:+
             " at " +:+ at_)
    | GoTo to frm on_line stations _ =>
        to_ ← display_station to;
        frm_ ← display_station frm;
        Ret (Style_BRIGHT colors +:+ "Go to" +:+ Style_RESET_ALL colors +:+
             " " +:+ to_ +:+ " from " +:+ frm_ +:+ " on the " +:+
             display_line on_line +:+ " (" +:+
             pretty (Z.of_nat (length stations) - 1)%Z +:+ " stops)")
    | Transfer at_ from_line to_line =>
        at_ ← display_station at_;
        Ret (Style_BRIGHT colors +:+ "Transfer from" +:+
             Style_RESET_ALL colors +:+ " " +:+ at_ +:+ " from the " +:+
             display_line from_line +:+ " to the " +:+ display_line to_line)
    | ArriveAt station =>
        at_ ← display_station station;
        Ret (Style_BRIGHT colors +:+ "Arrive at" +:+ Style_RESET_ALL colors +:+
             " " +:+ at_)
    end.

(** [for action in route: ...], with [txt] so far. *)
Fixpoint display_route_from (route : list Action) (txt : string) : res string :=
  match route with
  | [] => Ret txt
  | action :: route =>
      shown ← display_action action;
      let txt := txt +:+ shown in
      let txt := txt +:+ newline in
      display_route_from route txt
  end.

Definition display_route (route : list Action) : res string :=
  display_route_from route "".
End display.

(** ** [main] of [metroroute.py] *)

(** How a run of a program ends. *)
Inductive ending : Type :=
| Returned
| Exited (status : Z)
| Uncaught (e : exn).

(** What a run prints, one element for each [print] or prompt, and how
    it ends. *)
Record run : Type := Run {
  stdout : list string;
  stderr : list string;
  how : ending
}.

(** [allstations_s] of both [main]s: every station of every line of
    [STATIONS]. *)
Definition allstations_s : gset string :=
  list_to_set (concat (snd <$> STATIONS)).

Section metroroute_main.
Context (colors : colorama) (title : string → string).
Context (order : set_iteration).

(** [main] of [metroroute.py], from the two answers on: [frm] and [to]
    are what [input(...).lower().strip()] gave.  [None] means that
    [fuel] was not enough for [get_route_from_path]. *)
Definition metroroute_main (fuel : nat) (frm to : string) : option run :=
  let out := ["Which station to go from? "; "Which station to go to? "] in
  let out :=
    if bool_decide (frm ∉ allstations_s) then
      out ++ [Fore_RED colors +:+ Style_BRIGHT colors +:+ "!!! Station " +:+
              frm +:+ " not found" +:+ Style_RESET_ALL colors]
    else out in
  let out :=
    if bool_decide (to ∉ allstations_s) then
      out ++ [Fore_RED colors +:+ Style_BRIGHT colors +:+ "!!! Station " +:+
              to +:+ " not found" +:+ Style_RESET_ALL colors]
    else out in
  match get_path metro frm to with
  | Raise e => Some (Run out [] (Uncaught e))
  | Ret None => Some (Run out ["invalid path entered"] (Exited 1))
  | Ret (Some path) =>
      match get_route_from_path order fuel path with
      | None => None
      | Some (Raise e) => Some (Run out [] (Uncaught e))
      | Some (Ret route) =>
          match display_route colors title route with
          | Raise e => Some (Run out [] (Uncaught e))
          | Ret pretty_route =>
              match calculate_fare metro frm to with
              | Raise e => Some (Run out [] (Uncaught e))
              | Ret cost =>
                  Some (Run
                    (out ++ [newline +:+ pretty_route;
                             newline +:+ "It will cost " +:+
                             Style_BRIGHT colors +:+ pretty cost +:+
                             " Siyyats." +:+ Style_RESET_ALL colors])
                    [] Returned)
              end
          end
      end
  end.
End metroroute_main.

Lemma dom_metro : dom metro = allstations_s.
Proof. apply (bool_decide_unpack _). by vm_compute. Qed.

(** ** [main] of [metrofares.py] *)

(** [allstations] of both [main]s: [list(allstations_s)], sorted.  The
    sorted list does not depend on the order in which [list] enumerates
    the set. *)
Definition allstations : list string :=
  merge_sort String.le (elements allstations_s).

(** [needle in haystack], for two strings. *)
Fixpoint py_in (needle haystack : string) : bool :=
  String.prefix needle haystack ||
  match haystack with
  | "" => false
  | String _ rest => py_in needle rest
  end.

(** A [dict] with its keys in the order of their insertion. *)
Definition dict (V : Type) : Type := list (string * V).

(** [d[k] = v] *)
Fixpoint dict_set {V} (d : dict V) (k : string) (v : V) : dict V :=
  match d with
  | [] => [(k, v)]
  | (k', v') :: d =>
      if decide (k' = k) then (k, v) :: d else (k', v') :: dict_set d k v
  end.

Section fares.
Context (graph : gmap string (list string)).

(** [for end_station in allstations: ...] for one [start_station];
    [row] is [stations[start_station]]. *)
Fixpoint fares_from (start_station : string) (ends : list string)
    (row : dict Z) : res (dict Z) :=
  match ends with
  | [] => Ret row
  | end_station :: ends =>
      fare ← calculate_fare graph start_station end_station;
      if decide (start_station = end_station) then
        fares_from start_station ends row
      else fares_from start_station ends (dict_set row end_station fare)
  end.

(** [for start_station in allstations: ...] over the stations [starts]
    still to come. *)
Fixpoint fares_table (starts all : list string) (stations : dict (dict Z))
  : res (dict (dict Z)) :=
  match starts with
  | [] => Ret stations
  | start_station :: starts =>
      row ← fares_from start_station all [];
      fares_table starts all (dict_set stations start_station row)
  end.
End fares.

(** [mode] of [metrofares.main] before the [match]: [argv] is [sys.argv]
    and [typed] is what [input(...).strip().lower()] gave. *)
Definition choose_mode (argv : list string) (typed : string) : res string :=
  mode ← (if bool_decide (1 < length argv)%nat then py_index argv 1
          else Ret typed);
  Ret (if negb (py_in mode "cpd") then "d" else mode).

(** The case of [match mode] that runs. *)
Inductive report : Type := Csv | Repr | Denizen | Silent.

Definition report_of (mode : string) : report :=
  if decide (mode = "c") then Csv
  else if decide (mode = "p") then Repr
  else if decide (mode = "d") then Denizen
  else Silent.

(** [s.replace(old, new)] for a pattern [old] that is not empty, from
    left to right; [skip] counts the characters of a match still to
    pass over. *)
Fixpoint py_replace_from (old new : string) (skip : nat) (s : string)
  : string :=
  match s with
  | "" => ""
  | String c rest =>
      match skip with
      | S skip => py_replace_from old new skip rest
      | O =>
          if String.prefix old s then
            new +:+ py_replace_from old new (String.length old - 1) rest
          else String c (py_replace_from old new 0 rest)
      end
  end.

(** [s.replace("", new)] puts [new] before every character and at the
    end. *)
Fixpoint py_replace_empty (new : string) (s : string) : string :=
  match s with
  | "" => new
  | String c rest => new +:+ String c (py_replace_empty new rest)
  end.

Definition py_replace (old new : string) (s : string) : string :=
  match old with
  | "" => py_replace_empty new s
  | _ => py_replace_from old new 0 s
  end.

(** What the case ['d'] of [metrofares.main] prints, for
    [python_repr = str(stations)]. *)
Definition denizen (python_repr : string) : string :=
  let python_repr := py_replace "{" "map<[" python_repr in
  let python_repr := py_replace "}" "]>" python_repr in
  let python_repr := py_replace "'" "" python_repr in
  let python_repr := py_replace ", " ";" python_repr in
  let python_repr := py_replace ": " "=" python_repr in
  python_repr.

(** ** What the further properties speak of *)

(** [a] and [b] follow one another in [conns]. *)
Definition consecutive (conns : list string) (a b : string) : Prop :=
  ∃ before after, conns = before ++ a :: b :: after.

(** [self.graph[station]] where the key may be missing: the neighbours
    recorded so far. *)
Definition neighbors (graph : gmap string (list string)) (station : string)
  : list string := default [] (graph !! station).

(** Each station of [path] is followed by one of its neighbours. *)
Fixpoint chain (graph : gmap string (list string)) (path : list string)
  : Prop :=
  match path with
  | a :: (b :: _) as rest => edge graph a b ∧ chain graph rest
  | _ => True
  end.

(** Two results of [search], one for each payload, that went the same
    way. *)
Definition same_search {A B} (R : A → B → Prop)
    (r1 : res (option A)) (r2 : res (option B)) : Prop :=
  match r1, r2 with
  | Ret (Some a), Ret (Some b) => R a b
  | Ret None, Ret None => True
  | Raise e1, Raise e2 => e1 = e2
  | _, _ => False
  end.

(** What [get_path] keeps of a queued path: it leads from [start] to the
    queued station, and the distance queued by [shortest_path] counts its
    hops. *)
Definition tracks (graph : gmap string (list string)) (start station : string)
    (path : list string) (distance : Z) : Prop :=
  distance = Z.of_nat (length path) - 1 ∧
  head path = Some start ∧ last path = Some station ∧ chain graph path.

(** A [Transfer] that follows a [GoTo] leaves from the line of that
    [GoTo], and the [GoTo] carries the [to_line] of the [Transfer]. *)
Fixpoint lines_handed_over (route : list Action) : Prop :=
  match route with
  | GoTo _ _ on_line _ to_line :: rest =>
      match rest with
      | Transfer _ from_line next_line :: _ =>
          from_line = on_line ∧ to_line = Some next_line
      | _ => True
      end ∧ lines_handed_over rest
  | _ :: rest => lines_handed_over rest
  | [] => True
  end.

(** The [to_line] that a [GoTo] at index [j] has taken from a [Transfer]
    after it. *)
Definition to_line_taken (route : list Action) (j : nat) : Prop :=
  ∀ to frm on_line stations to_line at_ from_line next_line,
    route !! j = Some (GoTo to frm on_line stations to_line) →
    route !! S j = Some (Transfer at_ from_line next_line) →
    to_line = Some next_line.

(** The [from_line] that a [Transfer] at index [S j] has taken from a
    [GoTo] before it. *)
Definition from_line_taken (route : list Action) (j : nat) : Prop :=
  ∀ to frm on_line stations to_line at_ from_line next_line,
    route !! j = Some (GoTo to frm on_line stations to_line) →
    route !! S j = Some (Transfer at_ from_line next_line) →
    from_line = on_line.

(** A station of [path] that [STATION_LINES] knows. *)
Definition on_the_way (path : list string) (station : string) : Prop :=
  station ∈ path ∧ is_Some (STATION_LINES !! station).

(** The route while the first loop is running, with its stations:
    [BeginAt(start)], then for each change a [GoTo] from the station of
    the last change to the station of this one, and the [Transfer]
    there.  [begin] is the station of the last change. *)
Inductive built (path : list string) (start : string)
  : string → list Action → Prop :=
| built_begin : on_the_way path start → built path start start [BeginAt start]
| built_change route begin here on_line stations to_line from_line next_line :
    built path start begin route → on_the_way path here →
    Forall (on_the_way path) stations →
    built path start here
      (route ++ [GoTo here begin on_line stations to_line;
                 Transfer here from_line next_line]).

(** The legs of an itinerary that leave from [frm]: every [GoTo] leaves
    from where the one before it arrived, every [Transfer] is at the
    station where the [GoTo] before it arrived, and [ArriveAt] names the
    station of the last [GoTo]. *)
Inductive journey : string → list Action → Prop :=
| journey_arrive frm stop on_line stations to_line :
    journey frm [GoTo stop frm on_line stations to_line; ArriveAt stop]
| journey_change frm at_ on_line stations to_line from_line next_line rest :
    journey at_ rest →
    journey frm (GoTo at_ frm on_line stations to_line ::
                 Transfer at_ from_line next_line :: rest).

(** The stations that an action names. *)
Definition named (a : Action) : list string :=
  match a with
  | Transfer at_ _ _ => [at_]
  | GoTo to frm _ stations _ => to :: frm :: stations
  | BeginAt station | ArriveAt station => [station]
  end.

(** The exceptions that [get_route_from_path] lets out on [path]. *)
Definition let_out (path : list string) (e : exn) : Prop :=
  match e with
  | IndexError => True
  | KeyError => ∃ station, station ∈ path ∧ STATION_LINES !! station = None
  | ValueError msg => msg = "Not enough stations for calculaton"
  | NameError => False
  end.

(** What the first loop keeps from one iteration to the next. *)
Definition kept (path : list string) (start : string) (st : locals) : Prop :=
  built path start (begin st) (route st) ∧ curline st ≠ None ∧
  Forall (on_the_way path) (buf st).

(** What the first loop has built when it stops. *)
Definition finished (path : list string) (start : string) (st : locals)
  : Prop :=
  ∃ route' begin stop common_line stations,
    built path start begin route' ∧ on_the_way path stop ∧
    Forall (on_the_way path) stations ∧
    py_index path (Z.of_nat (length path) - 1) = Ret stop ∧
    route st = route' ++ [GoTo stop begin common_line stations None;
                          ArriveAt stop].

(** The stops of a [GoTo] are known stations of [path]. *)
Definition stops_on_the_way (path : list string) (a : Action) : Prop :=
  Forall (on_the_way path) (named a).

(** [station] is on [line]. *)
Definition on_line_of (line : Line) (station : string) : Prop :=
  ∃ lines, STATION_LINES !! station = Some lines ∧ line ∈ lines.

(** The two letters that start the codes of a line. *)
Definition line_code (line : Line) : string :=
  match line with
  | CTL => "CT" | CSL => "CS" | APL => "AP" | HTL => "HT" | RLR => "RL"
  end.

(** The lines of [station] and the lines of its codes differ. *)
Definition tables_differ (lines : option (list Line))
    (codes : option (list string)) : option () :=
  match lines, codes with
  | Some lines, Some codes =>
      match mapM station_code_to_line codes with
      | Ret decoded =>
          if bool_decide (length decoded = length lines ∧
                          list_to_set decoded =@{gset Line} list_to_set lines)
          then None else Some ()
      | Raise _ => Some ()
      end
  | None, None => None
  | _, _ => Some ()
  end.

(** [a, b, c and d]: what [display_station_list] makes of the texts of
    its stations. *)
Fixpoint enumeration (texts : list string) : string :=
  match texts with
  | [] => ""
  | [a] => a
  | [a; b] => a +:+ " and " +:+ b
  | a :: rest => a +:+ ", " +:+ enumeration rest
  end.

(** [shortest_path] finds [station] from hasiph. *)
Definition found_from_hasiph (station : string) : bool :=
  match shortest_path metro "hasiph" station with
  | Ret (Some _) => true
  | _ => false
  end.

(** [d.get(k)] *)
Fixpoint dict_get {V} (d : dict V) (k : string) : option V :=
  match d with
  | [] => None
  | (k', v) :: d => if decide (k' = k) then Some v else dict_get d k
  end.

(** The fare from [a] to [b], when there is one. *)
Definition fare_of (graph : gmap string (list string)) (a b : string)
  : option Z :=
  match calculate_fare graph a b with
  | Ret fare => Some fare
  | Raise _ => None
  end.

(** The entry [stations[start][end_]] of the table of fares. *)
Definition entry (stations : dict (dict Z)) (start end_ : string) : option Z :=
  match dict_get stations start with
  | Some row => dict_get row end_
  | None => None
  end.

(** ** Examples *)

(** A terminal without colours. *)
Definition no_colors : colorama := Colorama "" "" "" "" "" "" "".

(** The run of [main] of [metroroute.py] from hasiph to southbridge on
    such a terminal, with the station names left as they are typed. *)
Definition hasiph_southbridge_run : run :=
  Eval vm_compute in
    default (Run [] [] Returned)
      (metroroute_main no_colors (λ station, station) elements_iteration 1
         "hasiph" "southbridge").

(** * Properties *)

(** The tables are looked up, never unfolded, in what follows. *)
#[global] Opaque STATION_LINES STATIONS.

(** ** Indexing *)

Lemma py_index_inv {A} (l : list A) (i : Z) (x : A) :
  py_index l i = Ret x →
  - Z.of_nat (length l) ≤ i < Z.of_nat (length l) ∧
  l !! Z.to_nat (if i <? 0 then Z.of_nat (length l) + i else i) = Some x.
Proof.
  unfold py_index. intros H.
  destruct (i <? 0) eqn:Hneg;
    [apply Z.ltb_lt in Hneg | apply Z.ltb_ge in Hneg];
    destruct (_ && _) eqn:Hin; try discriminate;
    apply andb_prop in Hin as [?%Z.leb_le ?%Z.ltb_lt];
    destruct (l !! _) eqn:Hl; try discriminate;
    (split; [lia | congruence]).
Qed.

Lemma py_index_lt {A} (l : list A) (i : Z) (x : A) :
  py_index l i = Ret x → i < Z.of_nat (length l).
Proof. intros H. apply py_index_inv in H. lia. Qed.

Lemma py_index_0 {A} (l : list A) :
  py_index l 0 = match l with [] => Raise IndexError | x :: _ => Ret x end.
Proof. destruct l; reflexivity. Qed.

Lemma py_index_final {A} (l : list A) (x : A) :
  py_index (l ++ [x]) (Z.of_nat (length (l ++ [x])) - 1) = Ret x.
Proof.
  unfold py_index. rewrite length_app. simpl.
  replace (_ <? 0) with false by (symmetry; apply Z.ltb_ge; lia).
  replace (_ && _) with true
    by (symmetry; apply andb_true_intro; split;
        [apply Z.leb_le | apply Z.ltb_lt]; lia).
  replace (Z.to_nat _) with (length l + 0)%nat by lia.
  rewrite lookup_app_r by lia.
  replace (length l + 0 - length l)%nat with 0%nat by lia. reflexivity.
Qed.

(** ** The inner scan *)

Section scan_facts.
Context (path : list string).

Lemma scan_step cl buf i :
  scan path cl buf i =
  match cond path cl i with
  | Ret true =>
      match py_index path i with
      | Ret here => scan path cl (buf ++ [here]) (i + 1)
      | Raise e => (Raise e, buf, i)
      end
  | Ret false => (Ret (), buf, i)
  | Raise e => (Raise e, buf, i)
  end.
Proof.
  rewrite scan_equation_1. simpl.
  destruct (cond path cl i) as [[]|]; reflexivity.
Qed.

Lemma cond_true_next cl i :
  cond path cl i = Ret true →
  i < Z.of_nat (length path) ∧ i + 1 < Z.of_nat (length path).
Proof.
  unfold cond. intros H.
  destruct (py_index path i) as [here|] eqn:Hhere; [|discriminate].
  simpl in H. destruct (py_getitem _ here); [|discriminate].
  simpl in H. destruct (py_index path (i + 1)) eqn:Hnext; [|discriminate].
  split; eauto using py_index_lt.
Qed.

(** Induction on the distance from [i] to the end of [path]. *)
Lemma scan_induction (P : Z → Prop) :
  (∀ i, (∀ cl, cond path cl i = Ret true → P (i + 1)) → P i) → ∀ i, P i.
Proof.
  intros step i.
  remember (Z.to_nat (Z.of_nat (length path) - i)) as n eqn:Hn.
  revert i Hn. induction n as [n IH] using lt_wf_ind. intros i ->.
  apply step. intros cl [Hlt _]%cond_true_next.
  apply (IH (Z.to_nat (Z.of_nat (length path) - (i + 1)))); lia.
Qed.

(** The scan only appends to [buf]; what it appends, how it ends and
    where it stops depend on [curline] and [i] alone. *)
Lemma scan_app cl buf i :
  scan path cl buf i =
  ((scan path cl [] i).1.1, buf ++ (scan path cl [] i).1.2,
   (scan path cl [] i).2).
Proof.
  revert buf. induction i as [i IH] using scan_induction. intros buf.
  rewrite (scan_step cl buf), (scan_step cl []).
  destruct (cond path cl i) as [[]|] eqn:Hc; simpl;
    rewrite ?app_nil_r; try reflexivity.
  destruct (py_index path i) as [here|]; simpl;
    rewrite ?app_nil_r; try reflexivity.
  rewrite (IH cl Hc (buf ++ [here])), (IH cl Hc [here]). simpl.
  rewrite <- app_assoc. reflexivity.
Qed.

Lemma scan_lt cl buf i :
  i < Z.of_nat (length path) →
  (scan path cl buf i).2 < Z.of_nat (length path).
Proof.
  revert buf. induction i as [i IH] using scan_induction. intros buf Hlt.
  rewrite scan_step.
  destruct (cond path cl i) as [[]|] eqn:Hc; simpl; try assumption.
  destruct (py_index path i) as [here|]; simpl; try assumption.
  apply (IH cl Hc). apply cond_true_next in Hc. lia.
Qed.

End scan_facts.

(** ** Branches of the first loop *)

Lemma settled_final (route : list Action) :
  settled route →
  ∃ a, py_index route (Z.of_nat (length route) - 1) = Ret a ∧
       is_GoTo a = false.
Proof.
  intros (a & Hlast & Ha). exists a. split; [|assumption].
  apply last_Some in Hlast as [route' ->]. apply py_index_final.
Qed.

Lemma settled_snoc (route : list Action) (a : Action) :
  is_GoTo a = false → settled (route ++ [a]).
Proof. intros Ha. exists a. by rewrite last_snoc. Qed.

Section loop_facts.
Context (order : set_iteration) (path : list string).

Local Ltac agreed :=
  repeat split; simpl in *; auto using settled_snoc; try congruence.

Lemma start_block_agree st1 st2 :
  agree_at_top st1 st2 →
  same_res agree (start_block path st1) (start_block path st2).
Proof.
  intros [Hi H]. unfold start_block. rewrite <- Hi.
  case_bool_decide.
  - destruct (py_index path (i st1)) as [here|]; simpl; [|done].
    destruct (py_getitem STATION_LINES here) as [lines|]; simpl; [|done].
    destruct (py_index lines 0); simpl; [|done].
    agreed.
  - simpl. by destruct H.
Qed.

Lemma handler_agree st1 st2 :
  agree st1 st2 →
  same_flow agree (handler order path st1) (handler order path st2).
Proof.
  intros (Hi & Hc & Hs1 & Hs2).
  destruct (settled_final _ Hs1) as (a1 & H1 & Ha1).
  destruct (settled_final _ Hs2) as (a2 & H2 & Ha2).
  unfold handler. rewrite <- Hi, H1, H2. simpl. rewrite Ha1, Ha2. simpl.
  destruct (bool_decide _).
  - destruct (first_common_line order (buf st1)); simpl;
      destruct (first_common_line order (buf st2)); simpl;
      destruct (py_index path (i st1)); simpl; done.
  - agreed.
Qed.

Lemma try_block_agree st1 st2 :
  agree st1 st2 →
  same_flow agree (try_block order path st1) (try_block order path st2).
Proof.
  intros (Hi & Hc & Hs1 & Hs2). unfold try_block.
  rewrite (scan_app _ _ (buf st1)), (scan_app _ _ (buf st2)), <- Hi, <- Hc.
  destruct (scan path (curline st1) [] (i st1)) as [[[[]|e] extra] i'];
    simpl; [agreed|].
  destruct e; try done. apply handler_agree. agreed.
Qed.

Lemma transfer_block_agree st1 st2 :
  agree st1 st2 →
  same_res agree (transfer_block path st1) (transfer_block path st2).
Proof.
  intros (Hi & Hc & Hs1 & Hs2). unfold transfer_block. rewrite <- Hi.
  destruct (py_index path (i st1)) as [here|]; simpl; [|done].
  destruct (py_getitem STATION_LINES here) as [lines|]; simpl; [|done].
  case_bool_decide; [|agreed].
  destruct (py_index lines 0); simpl; [|done].
  destruct (py_index path (i st1 + 1)) as [next|]; simpl; [|done].
  destruct (py_getitem STATION_LINES next) as [lines'|]; simpl; [|done].
  destruct (py_index lines' 0); simpl; [|done].
  agreed.
Qed.

Lemma body_agree st1 st2 :
  agree_at_top st1 st2 →
  same_flow agree (body order path st1) (body order path st2).
Proof.
  intros H%start_block_agree. unfold body.
  destruct (start_block path st1) as [st1'|], (start_block path st2) as [st2'|];
    simpl in *; try done.
  apply try_block_agree in H.
  destruct (try_block order path st1') as [[st1''|]|],
           (try_block order path st2') as [[st2''|]|]; simpl in *; try done.
  apply transfer_block_agree in H.
  destruct (transfer_block path st1''), (transfer_block path st2'');
    simpl in *; done.
Qed.

Lemma first_loop_agree fuel st1 st2 :
  agree_at_top st1 st2 →
  first_loop order path fuel st1 = None ↔ first_loop order path fuel st2 = None.
Proof.
  revert st1 st2. induction fuel as [|fuel IH]; intros st1 st2 H; simpl;
    pose proof H as [Hi _]; rewrite <- Hi; case_bool_decide; try done.
  apply body_agree in H.
  destruct (body order path st1) as [[st1'|]|],
           (body order path st2) as [[st2'|]|]; simpl in *; try done.
  apply IH. split; [apply H | right; exact H].
Qed.


Lemma first_loop_reach n st st' fuel :
  reach order path n st st' →
  first_loop order path (n + fuel) st = first_loop order path fuel st'.
Proof.
  induction 1 as [|n st st' st'' Hlt Hbody _ IH]; [done|]. simpl.
  rewrite bool_decide_eq_true_2, Hbody by done. exact IH.
Qed.

Lemma first_loop_short n st st' fuel :
  reach order path n st st' → i st' < Z.of_nat (length path) →
  (fuel ≤ n)%nat → first_loop order path fuel st = None.
Proof.
  intros Hreach Hlt'. revert fuel.
  induction Hreach as [|n st st' st'' Hlt Hbody _ IH]; intros fuel Hfuel.
  - replace fuel with 0%nat by lia. simpl. by rewrite bool_decide_eq_true_2.
  - destruct fuel as [|fuel]; simpl; rewrite bool_decide_eq_true_2 by done;
      [done|]. rewrite Hbody. apply IH; [done|lia].
Qed.

(** A loop that comes back to a state from which it takes the same
    branches never ends. *)
Lemma first_loop_cycle n st st' :
  reach order path (S n) st st' → agree_at_top st st' →
  ∀ fuel, first_loop order path fuel st = None.
Proof.
  intros Hreach Hagree fuel.
  induction fuel as [fuel IH] using lt_wf_ind.
  destruct (le_lt_dec fuel (S n)) as [Hle|Hgt].
  - apply (first_loop_short (S n) st st'); [done| |done].
    destruct Hagree as [<- _]. by inversion Hreach.
  - replace fuel with (S n + (fuel - S n))%nat by lia.
    rewrite (first_loop_reach _ _ _ _ Hreach).
    apply (first_loop_agree _ _ _ Hagree). apply IH. lia.
Qed.
End loop_facts.

(** ** The shape of the route *)


Lemma under_way_patch start route common_line :
  under_way start route → under_way start (patch_to_line route common_line).
Proof.
  intros H. unfold patch_to_line.
  destruct H as [|route' ? ? ? ? ? ? ? ? H]; simpl; [constructor|].
  rewrite last_app. simpl. rewrite length_app. simpl.
  replace (pred (length route' + 2)) with (length route' + 1)%nat by lia.
  rewrite insert_app_r. simpl. by constructor.
Qed.

Lemma under_way_legs start route rest :
  under_way start route → legs rest →
  ∃ rest', route ++ rest = BeginAt start :: rest' ∧ legs rest'.
Proof.
  intros H. revert rest. induction H as [|? ? ? ? ? ? ? ? ? _ IH]; intros rest Hrest.
  - eauto.
  - rewrite <- app_assoc. apply IH. simpl. by constructor.
Qed.

Section route_shape.
Context (order : set_iteration) (path : list string).

Lemma start_block_first st st' :
  start_block path st = Ret st' →
  if bool_decide (i st = 0) then
    ∃ start curline, py_index path 0 = Ret start ∧
      st' = Locals (route st ++ [BeginAt start]) start (buf st) 0 (Some curline)
  else st' = st.
Proof.
  unfold start_block. case_bool_decide as Hi; [|congruence].
  rewrite Hi. destruct (py_index path 0) as [start|]; simpl; [|done].
  destruct (py_getitem STATION_LINES start) as [lines|]; simpl; [|done].
  destruct (py_index lines 0) as [curline|]; simpl; [|done].
  intros [= <-]. eauto.
Qed.

Lemma try_block_continue st st' :
  i st < Z.of_nat (length path) →
  try_block order path st = Ret (Continue st') →
  route st' = route st ∧ i st' < Z.of_nat (length path).
Proof.
  intros Hlt. unfold try_block.
  pose proof (scan_lt path (curline st) (buf st) (i st) Hlt) as Hlt'.
  destruct (scan path (curline st) (buf st) (i st)) as [[[[]|e] buf'] i'];
    simpl in *.
  - intros [= <-]. simpl. split; [done|lia].
  - destruct e; try done. unfold handler. simpl.
    case_bool_decide.
    + destruct (py_index (route st) _) as [final|]; simpl; [|done].
      destruct (is_GoTo final); simpl; [by intros [= <-]|].
      destruct (first_common_line order buf'); simpl; [|done].
      by destruct (py_index path i').
    + by intros [= <-].
Qed.

Lemma try_block_break st st' :
  try_block order path st = Ret (Break st') →
  ∃ stop common_line stations,
    py_index path (Z.of_nat (length path) - 1) = Ret stop ∧
    route st' = patch_to_line (route st) common_line ++
                [GoTo stop (begin st) common_line stations None;
                 ArriveAt stop].
Proof.
  unfold try_block.
  destruct (scan path (curline st) (buf st) (i st)) as [[[[]|e] buf'] i'];
    simpl; [done|].
  destruct e; try done. unfold handler. simpl.
  case_bool_decide as Hi; [|done].
  destruct (py_index (route st) _) as [final|]; simpl; [|done].
  destruct (is_GoTo final); simpl; [done|].
  destruct (first_common_line order buf') as [common_line|]; simpl; [|done].
  destruct (py_index path i') as [stop|] eqn:Hstop; simpl; [|done].
  intros [= <-]. simpl. subst i'. rewrite <- app_assoc. eauto.
Qed.

Lemma transfer_block_under_way start st st' :
  under_way start (route st) → i st < Z.of_nat (length path) →
  transfer_block path st = Ret st' →
  under_way start (route st') ∧ i st' < Z.of_nat (length path).
Proof.
  intros Hroute Hlt. unfold transfer_block.
  destruct (py_index path (i st)) as [here|]; simpl; [|done].
  destruct (py_getitem STATION_LINES here) as [lines|]; simpl; [|done].
  case_bool_decide; [|by intros [= <-]].
  destruct (py_index lines 0); simpl; [|done].
  destruct (py_index path (i st + 1)) as [next|] eqn:Hnext; simpl; [|done].
  destruct (py_getitem STATION_LINES next) as [lines'|]; simpl; [|done].
  destruct (py_index lines' 0); simpl; [|done].
  intros [= <-]. simpl. split; [|eauto using py_index_lt].
  rewrite <- app_assoc. by constructor.
Qed.

Lemma reach_snoc n st st' st'' :
  reach order path n st st' → i st' < Z.of_nat (length path) →
  body order path st' = Ret (Continue st'') →
  reach order path (S n) st st''.
Proof.
  induction 1; intros; econstructor; eauto using reach_here.
Qed.

Lemma body_under_way start st :
  py_index path 0 = Ret start →
  st = initial_locals ∨
    (under_way start (route st) ∧ i st < Z.of_nat (length path) ∧ i st ≠ 0) →
  match body order path st with
  | Ret (Continue st') =>
      under_way start (route st') ∧ i st' < Z.of_nat (length path)
  | Ret (Break st') => arrived path start (route st')
  | Raise _ => True
  end.
Proof.
  intros Hstart Hst. unfold body.
  destruct (start_block path st) as [st1|] eqn:Hst1; simpl; [|done].
  apply start_block_first in Hst1.
  assert (under_way start (route st1) ∧ i st1 < Z.of_nat (length path))
    as [Hroute Hlt].
  { destruct Hst as [->|(? & ? & ?)].
    - simpl in Hst1. destruct Hst1 as (start' & curline & Hstart' & ->).
      simpl. rewrite Hstart in Hstart'. injection Hstart' as <-.
      split; [constructor|]. by apply py_index_lt in Hstart.
    - rewrite bool_decide_eq_false_2 in Hst1 by done. by subst. }
  destruct (try_block order path st1) as [[st2|st2]|] eqn:Hst2; simpl; [| |done].
  - apply try_block_continue in Hst2 as [Hroute2 Hlt2]; [|done].
    rewrite <- Hroute2 in Hroute.
    destruct (transfer_block path st2) as [st3|] eqn:Hst3; simpl; [|done].
    eapply transfer_block_under_way; eauto.
  - apply try_block_break in Hst2 as (stop & common_line & stations & ? & ->).
    eexists _, _, _, _, _. eauto using under_way_patch.
Qed.

Lemma first_loop_arrived start fuel n st st' :
  py_index path 0 = Ret start →
  reach order path n initial_locals st →
  n = 0%nat ∨ (under_way start (route st) ∧ i st < Z.of_nat (length path)) →
  first_loop order path fuel st = Some (Ret st') →
  arrived path start (route st').
Proof.
  intros Hstart. revert n st.
  induction fuel as [|fuel IH]; intros n st Hreach Hst Hloop.
  all: assert (i st < Z.of_nat (length path)) as Hlt
    by (destruct Hst as [->|[_ ?]]; [|done]; inversion Hreach; subst; simpl;
        by apply py_index_lt in Hstart).
  all: simpl in Hloop; rewrite bool_decide_eq_true_2 in Hloop by done.
  { done. }
  assert (st = initial_locals ∨
          (under_way start (route st) ∧ i st < Z.of_nat (length path) ∧
           i st ≠ 0)) as Hst'.
  { destruct Hst as [->|[Hroute _]]; [left; by inversion Hreach|].
    destruct n as [|n]; [left; by inversion Hreach|].
    right. repeat split; try done. intros Hi.
    assert (first_loop order path (S n + S fuel) initial_locals = None)
      as Hnone by (apply (first_loop_cycle _ _ n _ st); [done|by split; [|left]]).
    rewrite (first_loop_reach _ _ _ _ _ _ Hreach) in Hnone. simpl in Hnone.
    rewrite bool_decide_eq_true_2 in Hnone by done.
    by rewrite Hnone in Hloop. }
  pose proof (body_under_way start st Hstart Hst') as Hbody.
  destruct (body order path st) as [[st1|st1]|] eqn:Hst1; [| |done].
  - apply (IH (S n) st1); eauto using reach_snoc.
  - by injection Hloop as <-.
Qed.
End route_shape.

(** ** The second loop *)

Section second_pass.
Context (order : set_iteration).

Lemma refilled_insert route k a0 a :
  route !! k = Some a0 → plain a = plain a0 → resolved order a →
  refilled order route k (<[k:=a]> route).
Proof.
  intros Hk Hplain Ha. assert (k < length route)%nat by eauto using lookup_lt_Some.
  split; [apply length_insert|]. split.
  - intros j Hj. by rewrite list_lookup_insert_ne.
  - intros a'. rewrite list_lookup_insert_eq by done. intros [= <-]. eauto.
Qed.

Lemma refilled_same route k a :
  route !! k = Some a → resolved order a → refilled order route k route.
Proof.
  intros Hk Ha. split_and!; try done. intros a'. rewrite Hk. intros [= <-]. eauto.
Qed.

Lemma backfill_refilled route k route' :
  backfill order route k = Ret route' → refilled order route k route'.
Proof.
  unfold backfill.
  destruct (route !! k) as [[at_ from_line to_line|to frm on_line stations to_line
                            |station|station]|] eqn:Hk.
  - destruct (py_index route (Z.of_nat k - 1)) as [[]|[]]; intros [= <-];
      first [by eapply refilled_same | by eapply refilled_insert].
  - destruct (first_common_line order stations) as [line|] eqn:Hline; simpl; [|done].
    destruct (py_index _ (Z.of_nat k + 1)) as [[]|]; simpl; intros [= <-];
      rewrite ?list_insert_insert_eq; by eapply refilled_insert.
  - intros [= <-]. by eapply refilled_same.
  - intros [= <-]. by eapply refilled_same.
  - intros [= <-]. split_and!; try done. intros a. by rewrite Hk.
Qed.

Lemma refilled_plain route k route' :
  refilled order route k route' → plain <$> route' = plain <$> route.
Proof.
  intros (Hlen & Hother & Hk). apply list_eq. intros j.
  rewrite !list_lookup_fmap. destruct (decide (j = k)) as [->|Hj].
  - destruct (route' !! k) as [a|] eqn:Ha.
    + destruct (Hk a eq_refl) as (_ & a0 & -> & Hplain). simpl. by rewrite Hplain.
    + apply lookup_ge_None in Ha. rewrite Hlen in Ha.
      apply lookup_ge_None in Ha. by rewrite Ha.
  - by rewrite Hother.
Qed.

Lemma second_loop_plain indices route route' :
  second_loop order indices route = Ret route' →
  plain <$> route' = plain <$> route.
Proof.
  revert route. induction indices as [|k indices IH]; intros route; simpl.
  - by intros [= <-].
  - destruct (backfill order route k) as [route1|] eqn:Hk; simpl; [|done].
    intros ->%IH. by eapply refilled_plain, backfill_refilled.
Qed.

Lemma second_loop_resolved indices route route' :
  second_loop order indices route = Ret route' →
  ∀ j a, route' !! j = Some a →
    j ∈ indices ∨ (∃ a0, route !! j = Some a0 ∧ resolved order a0) →
    resolved order a.
Proof.
  revert route. induction indices as [|k indices IH]; intros route; simpl.
  - intros [= <-] j a Ha [Hj|(a0 & Ha0 & ?)]; [by apply elem_of_nil in Hj|].
    congruence.
  - destruct (backfill order route k) as [route1|] eqn:Hk; simpl; [|done].
    apply backfill_refilled in Hk as (Hlen & Hother & Hk).
    intros Hloop j a Ha Hj. apply (IH _ Hloop j a Ha).
    destruct (decide (j = k)) as [->|Hne].
    + right. assert (is_Some (route1 !! k)) as [a1 Ha1].
      { apply lookup_lt_is_Some.
        apply second_loop_plain, (f_equal length) in Hloop.
        rewrite !length_fmap in Hloop. rewrite <- Hloop.
        eauto using lookup_lt_Some. }
      exists a1. split; [done|]. by apply Hk.
    + destruct Hj as [Hj|Hj].
      * left. apply elem_of_cons in Hj as [?|?]; done.
      * right. by rewrite Hother.
Qed.

(** After the second loop every [GoTo] is on the first common line of
    its stations. *)
Lemma second_loop_all_resolved route route' :
  second_loop order (seq 0 (length route)) route = Ret route' →
  Forall (resolved order) route'.
Proof.
  intros Hloop. apply Forall_lookup. intros j a Ha.
  apply (second_loop_resolved _ _ _ Hloop j a Ha). left.
  apply elem_of_seq. split; [lia|]. simpl.
  apply second_loop_plain, (f_equal length) in Hloop.
  rewrite !length_fmap in Hloop. rewrite <- Hloop.
  eauto using lookup_lt_Some.
Qed.
End second_pass.

(** ** Shapes do not depend on the lines *)

Lemma legs_plain route : legs (plain <$> route) → legs route.
Proof.
  remember (plain <$> route) as plain_route eqn:Heq. intros H. revert route Heq.
  induction H as [|? ? ? ? ? ? ? ? rest _ IH]; intros route Heq.
  - destruct route as [|[] [|[] [|]]]; simplify_eq/=. constructor.
  - destruct route as [|[] [|[] route]]; simplify_eq/=. constructor. by apply IH.
Qed.

Lemma legs_plain_iff route route' :
  plain <$> route' = plain <$> route → legs route → legs route'.
Proof.
  intros Heq H. apply legs_plain. rewrite Heq. clear Heq.
  induction H; simpl; by constructor.
Qed.

Lemma itinerary_plain route route' :
  plain <$> route' = plain <$> route → itinerary route → itinerary route'.
Proof.
  intros Heq H. inversion H as [station rest Hrest Hroute]. subst.
  destruct route' as [|[] rest']; simplify_eq/=.
  constructor. by eapply legs_plain_iff.
Qed.

(** ** The first common line *)

Lemma py_list_singleton_of (order : set_iteration) (line : Line) :
  py_index (py_list order {[line]}) 0 = Ret line.
Proof.
  rewrite py_index_0. destruct (py_list order {[line]}) as [|first rest] eqn:Hlist.
  - assert (line ∈ py_list order {[line]}) as Hin
      by (apply py_list_elem_of; set_solver).
    rewrite Hlist in Hin. by apply elem_of_nil in Hin.
  - assert (first ∈ py_list order {[line]}) as Hin
      by (rewrite Hlist; by left).
    apply py_list_elem_of in Hin. f_equal. set_solver.
Qed.

Lemma py_list_empty_of (order : set_iteration) : py_list order ∅ = [].
Proof.
  destruct (py_list order ∅) as [|first rest] eqn:Hlist; [done|].
  assert (first ∈ py_list order ∅) as Hin
    by (rewrite Hlist; by left).
  apply py_list_elem_of in Hin. set_solver.
Qed.

Section common_line_facts.
Context (order : set_iteration).

Lemma first_common_line_singleton stations line :
  common_line_set stations = Ret {[line]} →
  first_common_line order stations = Ret line.
Proof.
  intros H. unfold first_common_line, common_line_between_stations.
  rewrite H. simpl. apply py_list_singleton_of.
Qed.

Lemma first_common_line_some stations val line :
  common_line_set stations = Ret val → line ∈ val →
  ∃ first, first_common_line order stations = Ret first ∧ first ∈ val.
Proof.
  intros H Hline. unfold first_common_line, common_line_between_stations.
  rewrite H. simpl. rewrite py_index_0.
  destruct (py_list order val) as [|first rest] eqn:Hlist.
  - apply (py_list_elem_of order) in Hline. rewrite Hlist in Hline.
    by apply elem_of_nil in Hline.
  - exists first. split; [done|]. apply (py_list_elem_of order).
    rewrite Hlist. by left.
Qed.

Lemma first_common_line_decided stations (order' : set_iteration) :
  decided stations = true →
  first_common_line order stations = first_common_line order' stations.
Proof.
  unfold decided, first_common_line, common_line_between_stations.
  destruct (common_line_set stations) as [val|]; simpl; [|done].
  intros Hsize%bool_decide_eq_true.
  destruct (decide (size val = 0%nat)) as [->%size_empty_inv%leibniz_equiv|Hne].
  - by rewrite !py_list_empty_of.
  - assert (size val = 1%nat) as [line ->%leibniz_equiv]%size_1_elem_of by lia.
    by rewrite !py_list_singleton_of.
Qed.

End common_line_facts.

(** ** Running the first loop on a given path *)

Section running.
Context (order : set_iteration) (path : list string).

Lemma first_loop_S fuel st :
  i st < Z.of_nat (length path) →
  first_loop order path (S fuel) st =
  match body order path st with
  | Raise e => Some (Raise e)
  | Ret (Break st) => Some (Ret st)
  | Ret (Continue st) => first_loop order path fuel st
  end.
Proof. intros. simpl. by rewrite bool_decide_eq_true_2. Qed.

Lemma body_continue st st1 buf' i' st2 :
  start_block path st = Ret st1 →
  scan path (curline st1) (buf st1) (i st1) = (Ret (), buf', i') →
  transfer_block path (Locals (route st1) (begin st1) buf' (i' - 1) (curline st1))
    = Ret st2 →
  body order path st = Ret (Continue st2).
Proof.
  intros Hst1 Hscan Hst2. unfold body, try_block.
  rewrite Hst1. simpl. rewrite Hscan. simpl. by rewrite Hst2.
Qed.

Lemma body_handler st st1 buf' i' a here :
  start_block path st = Ret st1 →
  scan path (curline st1) (buf st1) (i st1) = (Raise IndexError, buf', i') →
  i' = Z.of_nat (length path) - 1 →
  last (route st1) = Some a → is_GoTo a = false →
  py_index path i' = Ret here →
  body order path st =
  match first_common_line order buf' with
  | Ret common_line =>
      Ret (Break (Locals
        (patch_to_line (route st1) common_line ++
          [GoTo here (begin st1) common_line (buf' ++ [here]) None;
           ArriveAt here])
        (begin st1) (buf' ++ [here]) i' (curline st1)))
  | Raise e => Raise e
  end.
Proof.
  intros Hst1 Hscan Hi Hlast Ha Hhere. unfold body, try_block.
  rewrite Hst1. simpl. rewrite Hscan. simpl. unfold handler. simpl.
  rewrite bool_decide_eq_true_2 by done.
  destruct (settled_final (route st1)) as (a' & -> & Ha'); [by exists a|].
  simpl. rewrite Ha'. simpl.
  destruct (first_common_line order buf'); simpl; [|done].
  rewrite Hhere. simpl. by rewrite <- app_assoc.
Qed.
End running.

Lemma backfill_decided order route k :
  Forall decided_action route →
  backfill order route k = backfill elements_iteration route k.
Proof.
  intros Hroute. unfold backfill.
  destruct (route !! k) as [[]|] eqn:Hk; try done.
  eapply Forall_lookup_1 in Hroute; [|done]. simpl in Hroute.
  by rewrite (first_common_line_decided order _ elements_iteration).
Qed.

Lemma second_loop_decided order indices route :
  Forall decided_action route →
  second_loop order indices route =
  second_loop elements_iteration indices route.
Proof.
  revert route. induction indices as [|k indices IH]; intros route Hroute; [done|].
  simpl. rewrite (backfill_decided order) by done.
  destruct (backfill elements_iteration route k) as [route'|] eqn:Hk; [|done].
  simpl. apply IH. apply backfill_refilled, refilled_plain in Hk.
  clear IH. revert route' Hk.
  induction Hroute as [|a route Ha _ IH]; intros [|a' route'] [=]; constructor.
  - by destruct a, a'; simplify_eq/=.
  - by apply IH.
Qed.

Lemma get_route_from_path_second_loop order fuel path st :
  first_loop order path fuel initial_locals = Some (Ret st) →
  get_route_from_path order fuel path =
  Some (second_loop order (seq 0 (length (route st))) (route st)).
Proof. intros H. unfold get_route_from_path. by rewrite H. Qed.


(** ** What a common line is *)

Lemma elem_of_foldl_intersection (line : Line) (first : gset Line)
    (rest : list (gset Line)) :
  line ∈ foldl (∩) first rest ↔ line ∈ first ∧ Forall (λ val, line ∈ val) rest.
Proof.
  revert first. induction rest as [|val rest IH]; intros first; simpl.
  - split; [by intros ?; split | by intros [? _]].
  - rewrite IH, Forall_cons. set_solver.
Qed.

Lemma mapM_station_lines stations sets :
  mapM (λ station, l ← py_getitem STATION_LINES station; Ret (py_set l))
       stations = Ret sets →
  Forall2 (λ station val, ∃ lines,
             STATION_LINES !! station = Some lines ∧ val = py_set lines)
          stations sets.
Proof.
  revert sets. induction stations as [|station stations IH]; intros sets; simpl.
  - intros [= <-]. constructor.
  - destruct (py_getitem STATION_LINES station) as [lines|] eqn:Hlines;
      simpl; [|done].
    unfold py_getitem in Hlines.
    destruct (STATION_LINES !! station) eqn:Hlookup; simplify_eq.
    destruct (mapM _ stations) as [sets'|]; simpl; [|done].
    intros [= <-]. constructor; eauto.
Qed.

Lemma common_line_set_elem_of stations val line :
  common_line_set stations = Ret val → line ∈ val →
  Forall (λ station, ∃ lines,
            STATION_LINES !! station = Some lines ∧ line ∈ lines) stations.
Proof.
  unfold common_line_set. case_bool_decide; [done|].
  destruct (mapM _ stations) as [sets|] eqn:Hsets; simpl; [|done].
  apply mapM_station_lines in Hsets.
  destruct sets as [|first rest]; [done|]. intros [= <-].
  intros [Hfirst Hrest]%elem_of_foldl_intersection.
  assert (Forall (λ val, line ∈ val) (first :: rest)) as Hall by (constructor; done).
  clear Hfirst Hrest. revert Hall. generalize (first :: rest) Hsets.
  clear. intros sets Hsets.
  induction Hsets as [|station val' ? ? (lines & Hlines & ->) _ IH];
    intros Hall; [constructor|].
  apply Forall_cons in Hall as [Hin Hall]. constructor; [|by apply IH].
  exists lines. split; [done|]. by apply elem_of_list_to_set in Hin.
Qed.

Lemma first_common_line_spec order stations line :
  first_common_line order stations = Ret line →
  ∃ val, common_line_set stations = Ret val ∧
         py_index (py_list order val) 0 = Ret line ∧ line ∈ val.
Proof.
  unfold first_common_line, common_line_between_stations.
  destruct (common_line_set stations) as [val|]; simpl; [|done].
  intros Hline. exists val. split_and!; try done.
  apply (py_list_elem_of order). rewrite py_index_0 in Hline.
  destruct (py_list order val); simplify_eq. by left.
Qed.

Lemma STATION_LINES_nonempty station lines :
  STATION_LINES !! station = Some lines → lines ≠ [].
Proof.
  revert station lines. change (map_Forall (λ _ lines, lines ≠ []) STATION_LINES).
  apply (bool_decide_unpack _). by vm_compute.
Qed.

(** ** Itineraries *)

Lemma legs_consecutive_transfers rest :
  legs rest → consecutive_transfers rest = false.
Proof.
  induction 1 as [|? ? ? ? ? ? ? ? rest Hrest IH]; [done|].
  simpl. destruct Hrest; simpl in *; done.
Qed.

Lemma legs_last rest :
  legs rest → ∃ station, last rest = Some (ArriveAt station).
Proof.
  induction 1 as [|? ? ? ? ? ? ? ? rest Hrest [station IH]]; [by eexists|].
  exists station. destruct Hrest; done.
Qed.

Lemma itinerary_no_transfer_at_the_ends route :
  itinerary route →
  consecutive_transfers route = false ∧
  (∀ a, head route = Some a → is_Transfer a = false) ∧
  (∀ a, last route = Some a → is_Transfer a = false).
Proof.
  intros [station rest Hrest]. split_and!.
  - simpl. rewrite (legs_consecutive_transfers rest) by done.
    by destruct Hrest.
  - by intros a [= <-].
  - destruct (legs_last rest Hrest) as [stop Hstop].
    intros a. rewrite last_cons, Hstop. by intros [= <-].
Qed.

Lemma arrived_itinerary path start route :
  arrived path start route → itinerary route.
Proof.
  intros (route' & stop & frm & common_line & stations & Hroute' & _ & ->).
  destruct (under_way_legs start route'
    [GoTo stop frm common_line stations None; ArriveAt stop])
    as (rest & -> & Hrest); [done|constructor|]. by constructor.
Qed.

Lemma get_route_from_path_inv order fuel path actions :
  get_route_from_path order fuel path = Some (Ret actions) →
  ∃ st, first_loop order path fuel initial_locals = Some (Ret st) ∧
        second_loop order (seq 0 (length (route st))) (route st) = Ret actions.
Proof.
  unfold get_route_from_path.
  destruct (first_loop order path fuel initial_locals) as [[st|]|]; [|done..].
  intros [= H]. eauto.
Qed.

Lemma py_index_first {A} (l : list A) :
  l ≠ [] → ∃ x, py_index l 0 = Ret x ∧ l !! 0%nat = Some x.
Proof. destruct l as [|x l]; [done|]. by exists x. Qed.

Lemma get_route_from_path_arrived order fuel path actions :
  path ≠ [] →
  get_route_from_path order fuel path = Some (Ret actions) →
  ∃ start route0, path !! 0%nat = Some start ∧ arrived path start route0 ∧
                  plain <$> actions = plain <$> route0.
Proof.
  intros [start [Hstart Hlookup]]%py_index_first
         (st & Hfirst & Hsecond)%get_route_from_path_inv.
  exists start, (route st). split_and!; [done| |by eapply second_loop_plain].
  eapply (first_loop_arrived order path start fuel 0); eauto using reach_here.
Qed.

(** * The route compiler: what [get_route_from_path] returns *)



(** C1, as amended: in a returned itinerary the line of every [GoTo] is the
    first element of [common_line_between_stations] of its stops, hence one
    of the lines common to all of them (it belongs to the line list of
    every stop). *)
Theorem goto_line_is_first_common_line
    order fuel path actions to frm on_line stations to_line :
  get_route_from_path order fuel path = Some (Ret actions) →
  GoTo to frm on_line stations to_line ∈ actions →
  (∃ val, common_line_set stations = Ret val ∧
          common_line_between_stations order stations = Ret (py_list order val) ∧
          py_index (py_list order val) 0 = Ret on_line ∧ on_line ∈ val) ∧
  Forall (λ station, ∃ lines,
            STATION_LINES !! station = Some lines ∧ on_line ∈ lines) stations.
Proof.
  intros (st & _ & Hsecond)%get_route_from_path_inv Hgoto.
  apply second_loop_all_resolved in Hsecond.
  eapply Forall_forall in Hsecond; [|done]. simpl in Hsecond.
  apply first_common_line_spec in Hsecond as (val & Hval & Hfirst & Hin).
  split; [|by eapply common_line_set_elem_of].
  exists val. split_and!; try done.
  unfold common_line_between_stations. by rewrite Hval.
Qed.

(** C3, as amended: for a path that is not empty, a returned route is
    [BeginAt, (GoTo, Transfer)*, GoTo, ArriveAt]; it has no two [Transfer]s
    in a row, and neither starts nor ends with one. *)
Theorem returned_route_alternates order fuel path actions :
  path ≠ [] →
  get_route_from_path order fuel path = Some (Ret actions) →
  itinerary actions ∧
  consecutive_transfers actions = false ∧
  (∀ a, head actions = Some a → is_Transfer a = false) ∧
  (∀ a, last actions = Some a → is_Transfer a = false).
Proof.
  intros Hpath H.
  destruct (get_route_from_path_arrived _ _ _ _ Hpath H)
    as (start & route0 & _ & Harrived & Hplain).
  assert (itinerary actions) as Hactions
    by eauto using itinerary_plain, arrived_itinerary.
  split; [done|]. by apply itinerary_no_transfer_at_the_ends.
Qed.



(** C6, as amended: on the empty path [get_route_from_path] raises
    nothing; it returns the empty list. *)
Theorem empty_path_returns_empty_route order fuel :
  get_route_from_path order fuel [] = Some (Ret []).
Proof. by destruct fuel. Qed.

(** C1, the claim as stated fails: on the path from hasiph to korihasiph
    the stops of the [GoTo] have two common lines, not only the one that
    the [GoTo] records. *)
Lemma goto_line_not_the_only_common_line :
  get_route_from_path elements_iteration 1 ["hasiph"; "korihasiph"] =
    Some (Ret [BeginAt "hasiph";
               GoTo "korihasiph" "hasiph" CSL ["hasiph"; "korihasiph"] None;
               ArriveAt "korihasiph"]) ∧
  common_line_set ["hasiph"; "korihasiph"] = Ret {[CTL; CSL]} ∧
  ({[CTL; CSL]} : gset Line) ≠ {[CSL]}.
Proof. split_and!; [by vm_compute..|]. apply (bool_decide_unpack _). by vm_compute. Qed.

(** C1 on the path from university to korihasiph, for its first [GoTo]. *)
Lemma goto_line_is_first_common_line_witness :
  (∃ val, common_line_set ["university"; "parliament"] = Ret val ∧
          common_line_between_stations elements_iteration
            ["university"; "parliament"] = Ret (py_list elements_iteration val) ∧
          py_index (py_list elements_iteration val) 0 = Ret APL ∧ APL ∈ val) ∧
  Forall (λ station, ∃ lines,
            STATION_LINES !! station = Some lines ∧ APL ∈ lines)
         ["university"; "parliament"].
Proof.
  apply (goto_line_is_first_common_line elements_iteration 3
           ["university"; "parliament"; "southbridge"; "korihasiph"]
           [BeginAt "university";
            GoTo "parliament" "university" APL ["university"; "parliament"]
                 (Some CTL);
            Transfer "parliament" APL CTL;
            GoTo "korihasiph" "parliament" CTL
                 ["parliament"; "southbridge"; "southbridge"; "korihasiph"] None;
            ArriveAt "korihasiph"]
           "parliament" "university" APL ["university"; "parliament"] (Some CTL)).
  - vm_compute. reflexivity.
  - apply list_elem_of_In. simpl. tauto.
Defined.

(** C3, the claim as stated fails on the empty path: the call returns
    normally, with a list that has no [BeginAt], [GoTo] or [ArriveAt]. *)
Lemma empty_path_route_does_not_alternate :
  get_route_from_path elements_iteration 0 [] = Some (Ret []) ∧
  ¬ itinerary [].
Proof. split; [done|]. inversion 1. Qed.

(** C3 on the path from university to korihasiph, which changes line at
    parliament. *)
Lemma returned_route_alternates_witness :
  let actions :=
    [BeginAt "university";
     GoTo "parliament" "university" APL ["university"; "parliament"] (Some CTL);
     Transfer "parliament" APL CTL;
     GoTo "korihasiph" "parliament" CTL
          ["parliament"; "southbridge"; "southbridge"; "korihasiph"] None;
     ArriveAt "korihasiph"] in
  itinerary actions ∧
  consecutive_transfers actions = false ∧
  (∀ a, head actions = Some a → is_Transfer a = false) ∧
  (∀ a, last actions = Some a → is_Transfer a = false).
Proof.
  apply (returned_route_alternates elements_iteration 3
           ["university"; "parliament"; "southbridge"; "korihasiph"]).
  - discriminate.
  - vm_compute. reflexivity.
Defined.



(** C6, the claim as stated fails: no exception comes out of the call on
    the empty path. *)
Lemma empty_path_raises_nothing :
  get_route_from_path elements_iteration 0 [] = Some (Ret []) ∧
  ¬ ∃ fuel e, get_route_from_path elements_iteration fuel [] = Some (Raise e).
Proof.
  split; [done|]. intros (fuel & e & H). by destruct fuel.
Qed.

(** ** One step of the search *)

Lemma search_step {A} (extend : A → string → A) graph end_ visited current a queue :
  search extend graph end_ visited ((current, a) :: queue) =
  if decide (current = end_) then Ret (Some a)
  else if decide (current ∈ visited) then search extend graph end_ visited queue
  else match graph !! current with
       | Some adj =>
           search extend graph end_ ({[current]} ∪ visited)
             (enqueue_neighbors extend ({[current]} ∪ visited) a adj queue)
       | None => Raise KeyError
       end.
Proof.
  rewrite search_equation_2. simpl.
  destruct (decide (current = end_)); [done|]. simpl.
  destruct (decide (current ∈ visited)); [done|]. simpl.
  by destruct (graph !! current).
Qed.

(** ** Three paths that the breadth-first search produces *)

(** C2, where the code fails the claim: the path from southbridge to
    university changes line at parliament, and [get_route_from_path]
    raises [IndexError] on it instead of returning a [Transfer].  The first
    loop puts all three stations in one [GoTo]; they have no common line,
    so the second loop indexes an empty list. *)
Theorem change_at_parliament_raises :
  get_path metro "southbridge" "university" =
    Ret (Some ["southbridge"; "parliament"; "university"]) ∧
  ∀ order fuel,
    get_route_from_path order (S fuel)
      ["southbridge"; "parliament"; "university"] = Some (Raise IndexError).
Proof.
  split; [by vm_compute|]. intros order fuel.
  set (path := ["southbridge"; "parliament"; "university"]).
  set (st1 := Locals [BeginAt "southbridge"] "southbridge" [] 0 (Some CTL)).
  set (st2 := Locals [BeginAt "southbridge";
                      GoTo "university" "southbridge" CTL path None;
                      ArriveAt "university"]
                     "southbridge" path 2 (Some CTL)).
  rewrite (get_route_from_path_second_loop order (S fuel) path st2).
  - rewrite second_loop_decided by (repeat constructor; by vm_compute).
    by vm_compute.
  - rewrite first_loop_S by (by vm_compute).
    rewrite (body_handler order path initial_locals st1
               ["southbridge"; "parliament"] 2 (BeginAt "southbridge")
               "university") by (by vm_compute).
    by rewrite (first_common_line_singleton order _ CTL) by (by vm_compute).
Qed.

(** C5, where the code fails the claim: the path from hasiph to rasir piss
    keeps the first loop busy for ever.  After the first iteration every
    iteration appends one more [GoTo] and [Transfer] at hasiph and leaves
    [i] and [curline] as they were. *)
Theorem hasiph_to_rasir_piss_never_returns :
  get_path metro "hasiph" "rasir piss" =
    Ret (Some ["hasiph"; "damatsalan"; "rasir piss"]) ∧
  ∀ order fuel,
    get_route_from_path order fuel ["hasiph"; "damatsalan"; "rasir piss"] = None.
Proof.
  split; [by vm_compute|]. intros order fuel.
  set (path := ["hasiph"; "damatsalan"; "rasir piss"]).
  set (leg := [GoTo "hasiph" "hasiph" CTL ["hasiph"; "damatsalan"] None;
               Transfer "hasiph" HTL CTL]).
  set (st1 := Locals [BeginAt "hasiph"; GoTo "hasiph" "hasiph" CTL ["hasiph"] None;
                      Transfer "hasiph" HTL CTL]
                     "hasiph" ["hasiph"; "damatsalan"] 1 (Some CTL)).
  set (st2 := Locals (route st1 ++ leg) "hasiph" ["hasiph"; "damatsalan"] 1
                     (Some CTL)).
  assert (body order path initial_locals = Ret (Continue st1)) as Hfirst
    by (apply (body_continue order path initial_locals
                 (Locals [BeginAt "hasiph"] "hasiph" [] 0 (Some CTL))
                 ["hasiph"] 1 st1); by vm_compute).
  assert (body order path st1 = Ret (Continue st2)) as Hsecond
    by (apply (body_continue order path st1 st1 ["hasiph"; "damatsalan"] 1 st2);
        by vm_compute).
  assert (∀ fuel, first_loop order path fuel st1 = None) as Hloop.
  { apply (first_loop_cycle order path 0 st1 st2).
    - eapply reach_step; [by vm_compute|done|apply reach_here].
    - split; [done|]. right. split_and!; try done.
      + by exists (Transfer "hasiph" HTL CTL).
      + by exists (Transfer "hasiph" HTL CTL). }
  unfold get_route_from_path. destruct fuel as [|fuel]; [done|].
  rewrite first_loop_S by (by vm_compute). by rewrite Hfirst, Hloop.
Qed.

(** C10: a path of one station of [STATION_LINES] makes
    [get_route_from_path] raise the [ValueError] of
    [common_line_between_stations], whose argument is the empty buffer; it
    never returns.  [get_path] from a station of the graph to itself is
    such a path. *)
Theorem single_station_path_raises order station lines :
  STATION_LINES !! station = Some lines →
  (∀ fuel, get_route_from_path order (S fuel) [station] =
           Some (Raise (ValueError "Not enough stations for calculaton"))) ∧
  (∀ fuel actions,
     get_route_from_path order fuel [station] ≠ Some (Ret actions)) ∧
  (∀ graph, station ∈ dom graph →
     get_path graph station station = Ret (Some [station])).
Proof.
  intros Hlines.
  assert (∀ fuel, get_route_from_path order (S fuel) [station] =
           Some (Raise (ValueError "Not enough stations for calculaton")))
    as Hraise.
  { intros fuel. unfold get_route_from_path.
    rewrite first_loop_S by (by vm_compute).
    destruct lines as [|line lines'] eqn:Heq;
      [by apply STATION_LINES_nonempty in Hlines|].
    erewrite (body_handler order [station] initial_locals
      (Locals [BeginAt station] station [] 0 (Some line)) [] 0
      (BeginAt station) station); try done.
    - unfold start_block. simpl. unfold py_getitem. by rewrite Hlines.
    - simpl. rewrite scan_step. unfold cond. simpl.
      unfold py_getitem. by rewrite Hlines. }
  split_and!; [done| |].
  - intros [|fuel] actions; [done|]. by rewrite Hraise.
  - intros graph Hin. unfold get_path.
    rewrite !bool_decide_eq_false_2 by (by intros ?). simpl.
    rewrite search_step. by rewrite decide_True.
Qed.

(** C10 at hasiph. *)
Lemma single_station_path_raises_witness :
  (∀ fuel, get_route_from_path elements_iteration (S fuel) ["hasiph"] =
           Some (Raise (ValueError "Not enough stations for calculaton"))) ∧
  (∀ fuel actions,
     get_route_from_path elements_iteration fuel ["hasiph"] ≠ Some (Ret actions)) ∧
  (∀ graph, "hasiph" ∈ dom graph →
     get_path graph "hasiph" "hasiph" = Ret (Some ["hasiph"])).
Proof.
  apply (single_station_path_raises elements_iteration "hasiph" [CTL; CSL; HTL]).
  vm_compute. reflexivity.
Defined.

(** * The graph *)

(** ** Walks *)

Section walks.
Context (graph : gmap string (list string)).

Lemma walk_nonneg start n station : walk graph start n station → 0 ≤ n.
Proof. induction 1; lia. Qed.

Lemma walk_start start n station :
  walk graph start n station → start ∈ dom graph.
Proof. by induction 1. Qed.

Lemma walk_end start n station :
  closed graph → walk graph start n station → station ∈ dom graph.
Proof. intros Hclosed. destruct 1; eauto. Qed.

Lemma walk_zero start n station :
  walk graph start n station → n = 0 → station = start.
Proof.
  destruct 1 as [|n station adj neighbor Hwalk]; [done|].
  apply walk_nonneg in Hwalk. lia.
Qed.

Lemma walk_last start n station :
  walk graph start n station → 0 < n →
  ∃ previous adj, walk graph start (n - 1) previous ∧
                  graph !! previous = Some adj ∧ station ∈ adj.
Proof.
  destruct 1 as [|n station adj neighbor Hwalk]; [lia|]. intros _.
  exists station, adj. by replace (n + 1 - 1) with n by lia.
Qed.

Lemma walk_first start adj neighbor n station :
  graph !! start = Some adj → neighbor ∈ adj →
  walk graph neighbor n station → walk graph start (n + 1) station.
Proof.
  intros Hadj Hneighbor.
  induction 1 as [|n station adj' neighbor' _ IH].
  - eapply (walk_step _ _ 0); [|done..]. constructor. apply elem_of_dom. eauto.
  - by eapply walk_step.
Qed.

Lemma walk_reverse start n station :
  symmetric graph → walk graph start n station → walk graph station n start.
Proof.
  intros Hsym. induction 1 as [|n station adj neighbor Hwalk IH Hadj Hin].
  - by constructor.
  - destruct (Hsym _ _ _ Hadj Hin) as (adj' & Hadj' & Hin').
    by eapply walk_first.
Qed.
End walks.

(** ** The search *)

Section search_facts.
Context {A : Type} (extend : A → string → A).
Context (graph : gmap string (list string)) (end_ : string).

(** Induction along the iterations of the search. *)
Lemma search_induction (P : gset string → list (string * A) → Prop) :
  (∀ visited, P visited []) →
  (∀ visited current a queue,
     (current ≠ end_ → current ∈ visited → P visited queue) →
     (∀ adj, current ≠ end_ → current ∉ visited →
             graph !! current = Some adj →
             P ({[current]} ∪ visited)
               (enqueue_neighbors extend ({[current]} ∪ visited) a adj queue)) →
     P visited ((current, a) :: queue)) →
  ∀ visited queue, P visited queue.
Proof.
  intros Hempty Hstep visited.
  remember (size (dom graph ∖ visited)) as n eqn:Hn. revert visited Hn.
  induction n as [n IH] using lt_wf_ind. intros visited -> queue.
  induction queue as [|[current a] queue IHqueue]; [done|].
  apply Hstep; [done|]. intros adj _ Hnew Hadj.
  apply (IH (size (dom graph ∖ ({[current]} ∪ visited)))); [|done].
  apply subset_size.
  assert (current ∈ dom graph) by (apply elem_of_dom; eauto).
  set_solver.
Qed.
End search_facts.

(** ** The invariant of [shortest_path] *)

Section distances.
Context (graph : gmap string (list string)) (start end_ : string).
Context (Hclosed : closed graph).

Local Abbreviation invariant := (search_invariant graph start end_).
Local Abbreviation hop := (λ (distance : Z) (_ : string), distance + 1).

Lemma invariant_initial :
  start ∈ dom graph → end_ ∉ (∅ : gset string) →
  invariant 0 ∅ [(start, 0)].
Proof.
  intros Hstart Hend. split; try done.
  - repeat constructor. done.
  - exists [(start, 0)], []. by repeat constructor.
  - intros n station Hwalk%walk_nonneg. lia.
  - intros station Hwalk. right. apply walk_zero in Hwalk as ->; [|done].
    by left.
Qed.

Lemma invariant_advance k visited queue :
  invariant k visited queue → Forall (λ e, e.2 = k + 1) queue →
  invariant (k + 1) visited queue.
Proof.
  intros [Hlevel Hwalks Hsorted Hneighbors Hnearer Hfrontier Hend] Hlater.
  split; try done.
  - lia.
  - exists queue, []. rewrite app_nil_r. by repeat constructor.
  - intros n station Hwalk Hn.
    destruct (decide (n < k)) as [|Hge]; [eauto|].
    assert (n = k) as -> by lia.
    destruct (Hfrontier station Hwalk) as [|Hin]; [done|].
    eapply Forall_forall in Hlater; [|done]. simpl in Hlater. lia.
  - intros station Hwalk.
    apply walk_last in Hwalk as (previous & adj & Hwalk & Hadj & Hin); [|lia].
    replace (k + 1 - 1) with k in Hwalk by lia.
    assert (previous ∈ visited) as Hprevious.
    { destruct (Hfrontier previous Hwalk) as [|Hq]; [done|].
      eapply Forall_forall in Hlater; [|done]. simpl in Hlater. lia. }
    destruct (Hneighbors _ _ _ Hprevious Hadj Hin) as [|[d Hd]]; [by left|].
    right. eapply Forall_forall in Hlater as Hd'; [|done]. simpl in Hd'.
    by subst.
Qed.

(** The station at the head of the queue is at the level of the search,
    once the level has moved on if need be. *)
Lemma invariant_head k visited current distance queue :
  invariant k visited ((current, distance) :: queue) →
  invariant distance visited ((current, distance) :: queue) ∧
  ∃ now later, queue = now ++ later ∧
    Forall (λ e, e.2 = distance) now ∧ Forall (λ e, e.2 = distance + 1) later.
Proof.
  intros Hinv. destruct (inv_sorted _ _ _ _ _ _ Hinv)
    as ([|first now] & later & Hqueue & Hnow & Hlater); simplify_eq/=.
  - assert (distance = k + 1) as ->
      by (by apply Forall_cons in Hlater as [? _]).
    split; [by apply invariant_advance|].
    exists queue, []. rewrite app_nil_r.
    apply Forall_cons in Hlater as [_ ?]. by repeat constructor.
  - apply Forall_cons in Hnow as [? Hnow]. simplify_eq/=. split; [done|]. eauto.
Qed.

Lemma invariant_skip visited current distance queue :
  invariant distance visited ((current, distance) :: queue) →
  current ∈ visited →
  invariant distance visited queue.
Proof.
  intros Hinv Hvisited.
  destruct (invariant_head _ _ _ _ _ Hinv) as [_ Hsorted].
  destruct Hinv as [Hlevel Hwalks Hsorted' Hneighbors Hnearer Hfrontier Hend'].
  split; try done.
  - by apply Forall_cons in Hwalks as [_ ?].
  - intros station adj neighbor Hstation Hadj Hin.
    destruct (Hneighbors _ _ _ Hstation Hadj Hin) as [|[d Hd]]; [by left|].
    apply elem_of_cons in Hd as [[= -> ->]|Hd]; [by left|]. right. eauto.
  - intros station Hwalk.
    destruct (Hfrontier station Hwalk) as [|Hq]; [by left|].
    apply elem_of_cons in Hq as [[= ->]|Hq]; [by left|by right].
Qed.

Lemma invariant_visit visited current distance adj queue :
  invariant distance visited ((current, distance) :: queue) →
  current ≠ end_ → graph !! current = Some adj →
  invariant distance ({[current]} ∪ visited)
    (enqueue_neighbors hop ({[current]} ∪ visited) distance adj queue).
Proof.
  intros Hinv Hend Hadj.
  destruct (invariant_head _ _ _ _ _ Hinv)
    as [_ (now & later & -> & Hnow & Hlater)].
  destruct Hinv as [Hlevel Hwalks' Hsorted' Hneighbors Hnearer Hfrontier Hend'].
  unfold enqueue_neighbors.
  apply Forall_cons in Hwalks' as [Hcurrent Hwalks]. simpl in Hcurrent.
  split; try done.
  - apply Forall_app. split; [done|].
    apply Forall_fmap, Forall_forall. intros neighbor [_ Hin]%list_elem_of_filter.
    simpl. by eapply walk_step.
  - exists now, (later ++ ((λ neighbor, (neighbor, distance + 1)) <$>
                         filter (λ neighbor, neighbor ∉ {[current]} ∪ visited) adj)).
    rewrite app_assoc. split_and!; try done.
    apply Forall_app. split; [done|]. by apply Forall_fmap, Forall_true.
  - intros station adj' neighbor Hstation Hadj' Hin.
    destruct (decide (neighbor ∈ {[current]} ∪ visited)) as [|Hnew]; [by left|].
    right. apply elem_of_union in Hstation as [->%elem_of_singleton|Hstation].
    + exists (distance + 1). apply elem_of_app. right.
      apply list_elem_of_fmap. exists neighbor. split; [done|].
      apply list_elem_of_filter. by simplify_eq.
    + destruct (Hneighbors _ _ _ Hstation Hadj' Hin) as [|[d Hd]];
        [set_solver|].
      apply elem_of_cons in Hd as [[= -> ->]|Hd]; [set_solver|].
      exists d. apply elem_of_app. by left.
  - intros n station Hwalk Hn. apply elem_of_union. right. eauto.
  - intros station Hwalk.
    destruct (Hfrontier station Hwalk) as [|Hq]; [left; set_solver|].
    apply elem_of_cons in Hq as [[= ->]|Hq]; [left; set_solver|].
    right. apply elem_of_app. by left.
  - set_solver.
Qed.
End distances.

(** ** What [shortest_path] returns *)

Section shortest_paths.
Context (graph : gmap string (list string)) (start end_ : string).
Context (Hclosed : closed graph).

Local Abbreviation invariant := (search_invariant graph start end_).
Local Abbreviation hop := (λ (distance : Z) (_ : string), distance + 1).

Lemma invariant_empty k visited n :
  invariant k visited [] → k ≤ n → invariant n visited [].
Proof.
  intros Hinv Hle. replace n with (k + Z.of_nat (Z.to_nat (n - k))) by lia.
  induction (Z.to_nat (n - k)) as [|m IH].
  - by replace (k + Z.of_nat 0) with k by lia.
  - replace (k + Z.of_nat (S m)) with (k + Z.of_nat m + 1) by lia.
    by apply invariant_advance.
Qed.

Lemma search_distance visited queue k :
  invariant k visited queue →
  distance_found graph start end_ (search hop graph end_ visited queue).
Proof.
  revert k. pattern visited, queue.
  apply (search_induction hop graph end_); clear visited queue.
  - intros visited k Hinv. rewrite search_equation_1. intros n Hwalk.
    apply (inv_end _ _ _ _ _ _ Hinv).
    destruct (decide (n < k)) as [|Hge];
      [by eapply (inv_nearer _ _ _ _ _ _ Hinv)|].
    apply (invariant_empty _ _ (n + 1)) in Hinv; [|lia].
    eapply (inv_nearer _ _ _ _ _ _ Hinv); [done|lia].
  - intros visited current distance queue IHskip IHvisit k
           [Hinv _]%invariant_head.
    rewrite search_step.
    destruct (decide (current = end_)) as [->|Hend].
    { pose proof (inv_walks _ _ _ _ _ _ Hinv) as [Hwalk _]%Forall_cons.
      split; [done|]. intros n Hn.
      destruct (decide (distance ≤ n)) as [|Hlt]; [done|].
      destruct (inv_end _ _ _ _ _ _ Hinv).
      eapply (inv_nearer _ _ _ _ _ _ Hinv); [done|lia]. }
    destruct (decide (current ∈ visited)) as [Hvisited|Hnew].
    { eapply IHskip; [done..|]. by eapply invariant_skip. }
    destruct (graph !! current) as [adj|] eqn:Hadj.
    + eapply IHvisit; [done..|]. by eapply invariant_visit.
    + pose proof (inv_walks _ _ _ _ _ _ Hinv) as [Hwalk _]%Forall_cons.
      apply walk_end, elem_of_dom in Hwalk as [? ?]; [|done]. simpl in *.
      congruence.
Qed.

Lemma shortest_path_found :
  distance_found graph start end_ (shortest_path graph start end_).
Proof.
  unfold shortest_path.
  destruct (bool_decide (start ∉ dom graph)) eqn:Hstart; simpl.
  { apply bool_decide_eq_true in Hstart. by intros n ?%walk_start. }
  destruct (bool_decide (end_ ∉ dom graph)) eqn:Hend; simpl.
  { apply bool_decide_eq_true in Hend. by intros n ?%walk_end. }
  apply bool_decide_eq_false in Hstart. apply dec_stable in Hstart.
  apply (search_distance _ _ 0). by apply invariant_initial.
Qed.
End shortest_paths.

(** ** Networks *)

Lemma dom_add_station graph station :
  dom (add_station graph station) = {[station]} ∪ dom graph.
Proof.
  unfold add_station. destruct (graph !! station) eqn:Hlookup.
  - apply elem_of_dom_2 in Hlookup. set_solver.
  - by rewrite dom_insert_L.
Qed.

Lemma edge_add_station graph station a b :
  edge (add_station graph station) a b ↔ edge graph a b.
Proof.
  unfold add_station, edge. destruct (graph !! station) eqn:Hlookup; [done|].
  destruct (decide (station = a)) as [->|Hne].
  - rewrite lookup_insert_eq, Hlookup. split; intros (adj & [= <-] & Hin).
    by apply elem_of_nil in Hin.
  - by rewrite lookup_insert_ne.
Qed.

Lemma edge_append graph station neighbor a b :
  station ∈ dom graph →
  edge (alter (λ adj, adj ++ [neighbor]) station graph) a b ↔
  edge graph a b ∨ (a = station ∧ b = neighbor).
Proof.
  intros [adj Hadj]%elem_of_dom. unfold edge.
  destruct (decide (station = a)) as [->|Hne].
  - rewrite lookup_alter_eq, Hadj. simpl. split.
    + intros (adj' & [= <-] & [Hin|Hin%list_elem_of_singleton]%elem_of_app);
        eauto.
    + intros [(adj' & [= <-] & Hin)|[_ ->]]; eexists; split; try done;
        apply elem_of_app; [by left|right; by apply list_elem_of_singleton].
  - rewrite lookup_alter_ne by done. split; [eauto|].
    by intros [?|[-> _]].
Qed.

Lemma dom_add_connection graph station1 station2 :
  dom (add_connection graph station1 station2) =
  {[station1; station2]} ∪ dom graph.
Proof.
  unfold add_connection. rewrite !dom_alter_L, !dom_add_station. set_solver.
Qed.

Lemma edge_add_connection graph station1 station2 a b :
  edge (add_connection graph station1 station2) a b ↔
  edge graph a b ∨ (a = station1 ∧ b = station2) ∨
  (a = station2 ∧ b = station1).
Proof.
  unfold add_connection.
  rewrite edge_append
    by (rewrite dom_alter_L, !dom_add_station; set_solver).
  rewrite edge_append by (rewrite !dom_add_station; set_solver).
  rewrite !edge_add_station. tauto.
Qed.

Lemma network_closed graph : network graph → closed graph.
Proof.
  assert (∀ graph, closed graph ↔ ∀ a b, edge graph a b → b ∈ dom graph)
    as Hedge.
  { intros g. unfold closed, edge. split; [intros H a b (adj & ? & ?)|]; eauto. }
  induction 1 as [|graph station _ IH|graph station1 station2 _ IH];
    apply Hedge.
  - intros a b (adj & Hadj & _). by rewrite lookup_empty in Hadj.
  - intros a b Hab%edge_add_station. rewrite dom_add_station.
    apply Hedge in Hab; [|done]. set_solver.
  - intros a b Hab%edge_add_connection. rewrite dom_add_connection.
    destruct Hab as [Hab|[[-> ->]|[-> ->]]]; [|set_solver..].
    apply Hedge in Hab; [|done]. set_solver.
Qed.

Lemma network_symmetric graph : network graph → symmetric graph.
Proof.
  assert (∀ graph, symmetric graph ↔ ∀ a b, edge graph a b → edge graph b a)
    as Hedge.
  { intros g. unfold symmetric, edge. split; [intros H a b (adj & ? & ?)|]; eauto. }
  induction 1 as [|graph station _ IH|graph station1 station2 _ IH];
    apply Hedge.
  - intros a b (adj & Hadj & _). by rewrite lookup_empty in Hadj.
  - intros a b Hab%edge_add_station. apply edge_add_station.
    by apply Hedge in Hab.
  - intros a b Hab%edge_add_connection. apply edge_add_connection.
    destruct Hab as [Hab|[[-> ->]|[-> ->]]]; [|tauto..].
    left. by apply Hedge in Hab.
Qed.

Lemma network_connections graph conns :
  network graph → network (add_connections graph conns).
Proof.
  revert graph. induction conns as [|station1 [|station2 conns] IH];
    intros graph Hgraph; simpl; [done..|].
  apply IH. by constructor.
Qed.

Lemma network_metro : network metro.
Proof.
  unfold metro. generalize STATIONS. intros lines.
  assert (network ∅) as Hempty by constructor. revert Hempty.
  generalize (∅ : gmap string (list string)).
  induction lines as [|line lines IH]; intros graph Hgraph; simpl; [done|].
  apply IH. by apply network_connections.
Qed.

(** * The graph: distances and fares *)

(** C9: on a network built by [add_station] and [add_connection], two
    stations joined by a walk are at the same distance in both
    directions. *)
Theorem shortest_path_symmetric graph start end_ n :
  network graph → walk graph start n end_ →
  shortest_path graph start end_ = shortest_path graph end_ start ∧
  ∃ distance, shortest_path graph start end_ = Ret (Some distance).
Proof.
  intros Hgraph Hwalk.
  pose proof (network_closed _ Hgraph) as Hclosed.
  pose proof (network_symmetric _ Hgraph) as Hsym.
  pose proof (shortest_path_found graph start end_ Hclosed) as Hthere.
  pose proof (shortest_path_found graph end_ start Hclosed) as Hback.
  destruct (shortest_path graph start end_) as [[there|]|]; simpl in Hthere;
    [|by destruct (Hthere n)|done].
  destruct (shortest_path graph end_ start) as [[back|]|]; simpl in Hback;
    [|by destruct (Hback n); apply walk_reverse|done].
  destruct Hthere as [Hthere Hleast], Hback as [Hback Hleast'].
  apply walk_reverse in Hthere, Hback; [|done..].
  apply Hleast in Hback. apply Hleast' in Hthere.
  split; [|by eexists]. do 2 f_equal. lia.
Qed.

Lemma hasiph_southbridge_walk : walk metro "hasiph" 2 "southbridge".
Proof.
  pose proof (shortest_path_found metro "hasiph" "southbridge"
                (network_closed _ network_metro)) as H.
  replace (shortest_path metro "hasiph" "southbridge") with
    (Ret (Some 2) : res (option Z)) in H by (by vm_compute).
  apply H.
Qed.

(** C9 between hasiph and southbridge. *)
Lemma shortest_path_symmetric_witness :
  shortest_path metro "hasiph" "southbridge" =
    shortest_path metro "southbridge" "hasiph" ∧
  ∃ distance, shortest_path metro "hasiph" "southbridge" = Ret (Some distance).
Proof.
  exact (shortest_path_symmetric metro "hasiph" "southbridge" 2
           network_metro hasiph_southbridge_walk).
Defined.

(** C7, as amended: on a network, [calculate_fare] raises
    [ValueError("invalid route")] exactly when no walk leads from [start]
    to [end_] (as when one of them is unknown); otherwise it returns
    [max(5, 5 + (distance - 1))] for the least distance, except from a
    station to itself, where the distance is 0 and it returns [-1]. *)
Theorem calculate_fare_spec graph start end_ :
  network graph →
  (calculate_fare graph start end_ = Raise (ValueError "invalid route") ↔
   ¬ ∃ n, walk graph start n end_) ∧
  (start ∉ dom graph ∨ end_ ∉ dom graph →
   calculate_fare graph start end_ = Raise (ValueError "invalid route")) ∧
  (∀ n, walk graph start n end_ →
     ∃ distance,
       shortest graph start end_ distance ∧
       shortest_path graph start end_ = Ret (Some distance) ∧
       (distance = 0 ↔ start = end_) ∧
       calculate_fare graph start end_ =
         Ret (if bool_decide (start = end_) then -1
              else Z.max 5 (5 + (distance - 1)))).
Proof.
  intros Hgraph. pose proof (network_closed _ Hgraph) as Hclosed.
  pose proof (shortest_path_found graph start end_ Hclosed) as Hfound.
  unfold calculate_fare.
  destruct (shortest_path graph start end_) as [[distance|]|];
    simpl in *; [| |done].
  - destruct Hfound as [Hwalk Hleast].
    pose proof (walk_nonneg _ _ _ _ Hwalk) as Hnonneg.
    assert (distance = 0 ↔ start = end_) as Hzero.
    { split; [intros ->; symmetry; by eapply walk_zero|intros <-].
      apply walk_start in Hwalk. assert (distance ≤ 0); [|lia].
      apply Hleast. by constructor. }
    split_and!.
    + split; [done|]. intros []. eauto.
    + intros [[]|[]]; [by eapply walk_start|by eapply (walk_end graph start)].
    + intros n _. exists distance. split_and!; try done. f_equal.
      destruct (decide (start = end_)) as [Hsame|Hother].
      * rewrite (bool_decide_eq_true_2 (start = end_)) by done.
        apply Hzero in Hsame. case_bool_decide; lia.
      * rewrite (bool_decide_eq_false_2 (start = end_)) by done.
        assert (distance ≠ 0) by (by rewrite Hzero). case_bool_decide; lia.
  - split_and!; [|done|by intros n ?%Hfound].
    split; [|done]. intros _ [n Hn]. by apply (Hfound n).
Qed.

(** C7 from hasiph to southbridge. *)
Lemma calculate_fare_spec_witness :
  (calculate_fare metro "hasiph" "southbridge" =
     Raise (ValueError "invalid route") ↔
   ¬ ∃ n, walk metro "hasiph" n "southbridge") ∧
  ("hasiph" ∉ dom metro ∨ "southbridge" ∉ dom metro →
   calculate_fare metro "hasiph" "southbridge" =
     Raise (ValueError "invalid route")) ∧
  (∀ n, walk metro "hasiph" n "southbridge" →
     ∃ distance,
       shortest metro "hasiph" "southbridge" distance ∧
       shortest_path metro "hasiph" "southbridge" = Ret (Some distance) ∧
       (distance = 0 ↔ "hasiph" = "southbridge") ∧
       calculate_fare metro "hasiph" "southbridge" =
         Ret (if bool_decide ("hasiph" = "southbridge") then -1
              else Z.max 5 (5 + (distance - 1)))).
Proof.
  exact (calculate_fare_spec metro "hasiph" "southbridge" network_metro).
Defined.

(** C7, the claim as stated fails from a station to itself: the distance
    is 0 and the fare is [-1], not [max(5, 5 + (0 - 1)) = 5]. *)
Lemma fare_to_the_same_station :
  shortest_path metro "hasiph" "hasiph" = Ret (Some 0) ∧
  calculate_fare metro "hasiph" "hasiph" = Ret (-1) ∧
  Z.max 5 (5 + (0 - 1)) = 5.
Proof. split_and!; by vm_compute. Qed.

(** C8, as amended: the path from hasiph to southbridge compiles to one
    [GoTo] on the Central Line, whatever the order in which Python lists
    a set, and the fare for the two hops is 6. *)
Theorem hasiph_southbridge_scenario :
  (∀ order fuel,
     get_route_from_path order (S fuel)
       ["hasiph"; "korihasiph"; "southbridge"] =
     Some (Ret [BeginAt "hasiph";
                GoTo "southbridge" "hasiph" CTL
                     ["hasiph"; "korihasiph"; "southbridge"] None;
                ArriveAt "southbridge"])) ∧
  shortest_path metro "hasiph" "southbridge" = Ret (Some 2) ∧
  calculate_fare metro "hasiph" "southbridge" = Ret 6.
Proof.
  split; [|split; by vm_compute]. intros order fuel.
  set (path := ["hasiph"; "korihasiph"; "southbridge"]).
  destruct (first_common_line_some order ["hasiph"; "korihasiph"]
              {[CTL; CSL]} CTL) as (first & Hfirst & _);
    [by vm_compute|set_solver|].
  rewrite (get_route_from_path_second_loop order (S fuel) path
    (Locals [BeginAt "hasiph"; GoTo "southbridge" "hasiph" first path None;
             ArriveAt "southbridge"] "hasiph" path 2 (Some CTL))).
  - rewrite second_loop_decided by (repeat constructor; by vm_compute).
    by vm_compute.
  - rewrite first_loop_S by (by vm_compute).
    rewrite (body_handler order path initial_locals
               (Locals [BeginAt "hasiph"] "hasiph" [] 0 (Some CTL))
               ["hasiph"; "korihasiph"] 2 (BeginAt "hasiph") "southbridge")
      by (by vm_compute).
    by rewrite Hfirst.
Qed.

(** C8, the claim as stated fails on the fare: it is 6, not 7. *)
Lemma hasiph_southbridge_fare_is_not_7 :
  calculate_fare metro "hasiph" "southbridge" = Ret 6 ∧
  calculate_fare metro "hasiph" "southbridge" ≠ Ret 7.
Proof.
  assert (calculate_fare metro "hasiph" "southbridge" = Ret 6) as ->
    by (by vm_compute).
  by split.
Qed.

(** * The rest of the two programs *)

(** ** Building the graph *)

Lemma consecutive_cons station conns a b :
  consecutive (station :: conns) a b ↔
  (station = a ∧ head conns = Some b) ∨ consecutive conns a b.
Proof.
  split.
  - intros ([|first before] & after & Heq); simplify_eq/=; [by left|].
    right. by exists before, after.
  - intros [[-> Hhead]|(before & after & ->)].
    + destruct conns as [|b' conns]; simplify_eq/=. by exists [], conns.
    + by exists (station :: before), after.
Qed.

Lemma consecutive_short conns a b :
  (length conns < 2)%nat → ¬ consecutive conns a b.
Proof.
  intros Hlen (before & after & ->). rewrite length_app in Hlen. simpl in Hlen. lia.
Qed.

(** X1: [add_connections] adds every station of a list of two stations or
    more to the graph; a list of fewer than two stations leaves the graph
    as it was, neighbours included, and does not even add its station. *)
Theorem add_connections_stations graph conns :
  if bool_decide (2 ≤ length conns)%nat
  then dom (add_connections graph conns) = list_to_set conns ∪ dom graph
  else add_connections graph conns = graph.
Proof.
  case_bool_decide as Hlen;
    [|destruct conns as [|station1 [|station2 conns]];
        [done..|simpl in Hlen; lia]].
  revert graph Hlen. induction conns as [|station1 [|station2 conns] IH];
    intros graph Hlen; [simpl in Hlen; lia..|].
  change (add_connections graph (station1 :: station2 :: conns)) with
    (add_connections (add_connection graph station1 station2) (station2 :: conns)).
  destruct conns as [|station3 conns].
  - simpl. rewrite dom_add_connection. set_solver.
  - rewrite IH by (simpl; lia). rewrite dom_add_connection.
    rewrite (list_to_set_cons station1). set_solver.
Qed.

(** X2: after [add_connections] the neighbours are those there were
    before and, in both directions, the stations that follow one another
    in the list. *)
Theorem add_connections_edges graph conns a b :
  edge (add_connections graph conns) a b ↔
  edge graph a b ∨ consecutive conns a b ∨ consecutive conns b a.
Proof.
  revert graph. induction conns as [|station1 [|station2 conns] IH];
    intros graph.
  - assert (¬ consecutive [] a b) by (apply consecutive_short; simpl; lia).
    assert (¬ consecutive [] b a) by (apply consecutive_short; simpl; lia).
    simpl. tauto.
  - assert (¬ consecutive [station1] a b)
      by (apply consecutive_short; simpl; lia).
    assert (¬ consecutive [station1] b a)
      by (apply consecutive_short; simpl; lia).
    simpl. tauto.
  - change (add_connections graph (station1 :: station2 :: conns)) with
      (add_connections (add_connection graph station1 station2) (station2 :: conns)).
    rewrite IH, edge_add_connection.
    rewrite (consecutive_cons station1 (station2 :: conns) a b).
    rewrite (consecutive_cons station1 (station2 :: conns) b a).
    simpl. intuition congruence.
Qed.

Lemma add_station_lookup graph station other :
  add_station graph station !! other =
  if decide (other = station) then Some (neighbors graph station)
  else graph !! other.
Proof.
  unfold add_station, neighbors. destruct (decide (other = station)) as [->|Hne].
  - destruct (graph !! station) eqn:Hlookup; [done|]. by rewrite lookup_insert_eq.
  - destruct (graph !! station); [done|]. by rewrite lookup_insert_ne.
Qed.

(** X3: [add_connection] appends each station to the neighbours of the
    other, after those recorded before, and leaves the other stations
    alone; nothing is removed or merged, and a station connected to itself
    is appended twice. *)
Theorem add_connection_appends graph station1 station2 other :
  add_connection graph station1 station2 !! other =
  if decide (other = station2) then
    if decide (station1 = station2)
    then Some (neighbors graph station2 ++ [station2; station2])
    else Some (neighbors graph station2 ++ [station1])
  else if decide (other = station1)
    then Some (neighbors graph station1 ++ [station2])
    else graph !! other.
Proof.
  unfold add_connection.
  destruct (decide (other = station2)) as [->|Hne2].
  - rewrite lookup_alter_eq.
    destruct (decide (station1 = station2)) as [->|Hne].
    + rewrite lookup_alter_eq, add_station_lookup.
      destruct (decide (station2 = station2)); [|done]. simpl.
      unfold neighbors at 1. rewrite add_station_lookup.
      destruct (decide (station2 = station2)); [|done]. simpl.
      by rewrite <-app_assoc.
    + rewrite lookup_alter_ne by done. rewrite add_station_lookup.
      destruct (decide (station2 = station2)); [|done]. simpl.
      unfold neighbors at 1. rewrite add_station_lookup.
      by destruct (decide (station2 = station1)).
  - rewrite lookup_alter_ne by done.
    destruct (decide (other = station1)) as [->|Hne1].
    + rewrite lookup_alter_eq, add_station_lookup.
      destruct (decide (station1 = station2)); [done|].
      rewrite add_station_lookup.
      by destruct (decide (station1 = station1)).
    + rewrite lookup_alter_ne by done. rewrite !add_station_lookup.
      destruct (decide (other = station2)); [done|].
      by destruct (decide (other = station1)).
Qed.

(** ** [get_path] beside [shortest_path] *)

Lemma walk_trans graph a n b m c :
  walk graph a n b → walk graph b m c → walk graph a (n + m) c.
Proof.
  intros Hab. induction 1 as [|m c adj neighbor _ IH Hadj Hin].
  - by replace (n + 0) with n by lia.
  - replace (n + (m + 1)) with (n + m + 1) by lia. by eapply walk_step.
Qed.

Section search_pairs.
Context {A B : Type} (extendA : A → string → A) (extendB : B → string → B).
Context (graph : gmap string (list string)) (end_ : string).
Context (R : string → A → B → Prop).
Context (Hextend : ∀ station a b adj neighbor,
  R station a b → graph !! station = Some adj → neighbor ∈ adj →
  R neighbor (extendA a neighbor) (extendB b neighbor)).

Lemma enqueue_neighbors_related visited station a b adj queueA queueB :
  R station a b → graph !! station = Some adj →
  Forall2 (λ x y, x.1 = y.1 ∧ R x.1 x.2 y.2) queueA queueB →
  Forall2 (λ x y, x.1 = y.1 ∧ R x.1 x.2 y.2)
    (enqueue_neighbors extendA visited a adj queueA)
    (enqueue_neighbors extendB visited b adj queueB).
Proof.
  intros HR Hadj Hqueue. unfold enqueue_neighbors.
  apply Forall2_app; [done|]. apply Forall2_fmap, Forall_Forall2_diag.
  apply Forall_forall. intros neighbor [_ Hin]%list_elem_of_filter. simpl.
  split; [done|]. by eapply Hextend.
Qed.

Lemma search_related visited queueA queueB :
  Forall2 (λ x y, x.1 = y.1 ∧ R x.1 x.2 y.2) queueA queueB →
  same_search (R end_) (search extendA graph end_ visited queueA)
                       (search extendB graph end_ visited queueB).
Proof.
  revert queueB. pattern visited, queueA.
  apply (search_induction extendA graph end_); clear visited queueA.
  - intros visited queueB ->%Forall2_nil_inv_l. by rewrite !search_equation_1.
  - intros visited current a queueA IHskip IHvisit queueB Hqueue.
    apply Forall2_cons_inv_l in Hqueue
      as ([current' b] & queueB' & [Hcurrent HR] & Hqueue & ->).
    simpl in Hcurrent, HR. subst current'. rewrite !search_step.
    destruct (decide (current = end_)) as [->|Hend]; [done|].
    destruct (decide (current ∈ visited)) as [Hvisited|Hnew]; [by apply IHskip|].
    destruct (graph !! current) as [adj|] eqn:Hadj; [|done].
    apply IHvisit; try done. by eapply enqueue_neighbors_related.
Qed.
End search_pairs.

Lemma chain_snoc graph path station neighbor :
  chain graph path → last path = Some station → edge graph station neighbor →
  chain graph (path ++ [neighbor]).
Proof.
  intros Hchain Hlast Hedge.
  induction path as [|a [|b path] IH]; simplify_eq/=; [done|].
  destruct Hchain as [? Hchain]. split; [done|]. by apply IH.
Qed.

Lemma tracks_extend graph start station path distance adj neighbor :
  tracks graph start station path distance →
  graph !! station = Some adj → neighbor ∈ adj →
  tracks graph start neighbor (path ++ [neighbor]) (distance + 1).
Proof.
  intros (-> & Hhead & Hlast & Hchain) Hadj Hin. split_and!.
  - rewrite length_app. simpl. lia.
  - destruct path; simplify_eq/=. done.
  - by rewrite last_snoc.
  - eapply chain_snoc; [done..|]. by exists adj.
Qed.

(** [get_path] and [shortest_path] go the same way. *)
Lemma get_path_tracks graph start end_ :
  same_search (tracks graph start end_)
    (get_path graph start end_) (shortest_path graph start end_).
Proof.
  unfold get_path, shortest_path.
  destruct (bool_decide (start ∉ dom graph) || bool_decide (end_ ∉ dom graph));
    [done|].
  apply (search_related _ _ graph end_ (tracks graph start)).
  - intros station a b adj neighbor. apply tracks_extend.
  - repeat constructor.
Qed.

Lemma chain_tail graph a path : chain graph (a :: path) → chain graph path.
Proof. destruct path; [done|]. by intros [_ ?]. Qed.

Lemma chain_snoc_inv graph path previous station :
  chain graph (path ++ [station]) → last path = Some previous →
  chain graph path ∧ edge graph previous station.
Proof.
  induction path as [|a [|b path] IH]; intros Hchain Hlast; simplify_eq/=.
  - by destruct Hchain.
  - destruct Hchain as [Hab Hchain]. destruct (IH Hchain Hlast). done.
Qed.

Lemma chain_walk graph a path station :
  a ∈ dom graph → chain graph (a :: path) → last (a :: path) = Some station →
  walk graph a (Z.of_nat (length path)) station.
Proof.
  revert station. induction path as [|b path IH] using rev_ind;
    intros station Ha Hchain Hlast.
  - simplify_eq/=. by constructor.
  - rewrite length_app. simpl.
    replace (Z.of_nat (length path + 1)) with (Z.of_nat (length path) + 1) by lia.
    change (a :: path ++ [b]) with ((a :: path) ++ [b]) in Hlast, Hchain.
    rewrite last_snoc in Hlast. simplify_eq.
    destruct (last (a :: path)) as [previous|] eqn:Hprevious;
      [|by apply last_None in Hprevious].
    destruct (chain_snoc_inv _ _ _ _ Hchain Hprevious)
      as [Hchain' (adj & Hadj & Hin)].
    eapply walk_step; [|done..]. by apply IH.
Qed.

Lemma get_path_route graph start end_ path :
  get_path graph start end_ = Ret (Some path) →
  tracks graph start end_ path (Z.of_nat (length path) - 1) ∧
  shortest_path graph start end_ = Ret (Some (Z.of_nat (length path) - 1)).
Proof.
  intros Hpath. pose proof (get_path_tracks graph start end_) as H.
  rewrite Hpath in H.
  destruct (shortest_path graph start end_) as [[distance|]|]; try done.
  simpl in H. destruct H as (-> & ?). done.
Qed.

Lemma get_path_dom graph start end_ path :
  get_path graph start end_ = Ret (Some path) →
  start ∈ dom graph ∧ end_ ∈ dom graph.
Proof.
  unfold get_path.
  destruct (decide (start ∈ dom graph)), (decide (end_ ∈ dom graph)); try done.
  - rewrite (bool_decide_eq_true_2 (end_ ∉ dom graph)) by done.
    by rewrite orb_true_r.
  - by rewrite (bool_decide_eq_true_2 (start ∉ dom graph)) by done.
  - by rewrite (bool_decide_eq_true_2 (start ∉ dom graph)) by done.
Qed.

Lemma shortest_chain graph start end_ path :
  closed graph → start ∈ dom graph →
  head path = Some start → last path = Some end_ → chain graph path →
  (∀ n, walk graph start n end_ → Z.of_nat (length path) - 1 ≤ n) →
  NoDup path.
Proof.
  intros Hclosed. revert start.
  induction path as [|a path IH]; intros start Hstart Hhead Hlast Hchain Hleast;
    [constructor|].
  simplify_eq/=. constructor.
  - intros (before & after & ->)%list_elem_of_split.
    assert (chain graph (start :: after)) as Hafter.
    { clear -Hchain. apply chain_tail in Hchain.
      induction before as [|b before IH]; [done|].
      apply IH. by eapply chain_tail. }
    assert (last (start :: after) = Some end_) as Hend.
    { rewrite <-Hlast. change (start :: before ++ start :: after) with
        ((start :: before) ++ start :: after). by rewrite last_app_cons. }
    pose proof (chain_walk _ _ _ _ Hstart Hafter Hend) as Hwalk.
    apply Hleast in Hwalk. rewrite length_app in Hwalk. simpl in Hwalk. lia.
  - destruct path as [|b path]; [constructor|].
    destruct Hchain as [(adj & Hadj & Hin) Hchain].
    apply (IH b); try done.
    + by eapply Hclosed.
    + intros n Hwalk. eapply walk_first in Hwalk; [|done..].
      apply Hleast in Hwalk. simpl in *. lia.
Qed.

Lemma get_path_distance graph start end_ :
  match get_path graph start end_ with
  | Ret (Some path) =>
      shortest_path graph start end_ = Ret (Some (Z.of_nat (length path) - 1))
  | Ret None => shortest_path graph start end_ = Ret None
  | Raise e => shortest_path graph start end_ = Raise e
  end.
Proof.
  pose proof (get_path_tracks graph start end_) as H.
  destruct (get_path graph start end_) as [[path|]|],
           (shortest_path graph start end_) as [[distance|]|];
    simplify_eq/=; try done.
  destruct H as (-> & _). done.
Qed.

Lemma get_path_least graph start end_ :
  network graph →
  match get_path graph start end_ with
  | Ret (Some path) =>
      NoDup path ∧
      ∀ n, walk graph start n end_ → Z.of_nat (length path) - 1 ≤ n
  | Ret None => ∀ n, ¬ walk graph start n end_
  | Raise _ => False
  end.
Proof.
  intros Hgraph. pose proof (network_closed _ Hgraph) as Hclosed.
  pose proof (shortest_path_found graph start end_ Hclosed) as Hfound.
  pose proof (get_path_distance graph start end_) as Hsame.
  destruct (get_path graph start end_) as [[path|]|] eqn:Hpath;
    rewrite Hsame in Hfound; simpl in Hfound; try done.
  destruct Hfound as [_ Hleast]. split; [|done].
  destruct (get_path_route _ _ _ _ Hpath) as [(_ & ? & ? & ?) _].
  destruct (get_path_dom _ _ _ _ Hpath) as [? _].
  by eapply shortest_chain.
Qed.

Lemma fare_by_path graph start end_ :
  match get_path graph start end_ with
  | Ret (Some path) =>
      calculate_fare graph start end_ =
        Ret (if bool_decide (length path = 1%nat) then -1
             else Z.of_nat (length path) + 3)
  | Ret None =>
      calculate_fare graph start end_ = Raise (ValueError "invalid route")
  | Raise e => calculate_fare graph start end_ = Raise e
  end.
Proof.
  pose proof (get_path_distance graph start end_) as Hsame.
  destruct (get_path graph start end_) as [[path|]|] eqn:Hpath;
    unfold calculate_fare; rewrite Hsame; try done.
  simpl. f_equal.
  destruct (get_path_route _ _ _ _ Hpath) as [(_ & Hhead & _) _].
  destruct path as [|a path]; simplify_eq/=.
  repeat case_bool_decide; simplify_eq/=; lia.
Qed.

(** X8: the distances of [shortest_path] obey the triangle inequality:
    going by way of [b] is never shorter than going straight. *)
Theorem shortest_path_triangle graph a b c d1 d2 :
  network graph →
  shortest_path graph a b = Ret (Some d1) →
  shortest_path graph b c = Ret (Some d2) →
  ∃ d3, shortest_path graph a c = Ret (Some d3) ∧ d3 ≤ d1 + d2.
Proof.
  intros Hgraph Hab Hbc. pose proof (network_closed _ Hgraph) as Hclosed.
  pose proof (shortest_path_found graph a b Hclosed) as H1.
  pose proof (shortest_path_found graph b c Hclosed) as H2.
  pose proof (shortest_path_found graph a c Hclosed) as H3.
  rewrite Hab in H1. rewrite Hbc in H2. simpl in H1, H2.
  destruct H1 as [H1 _], H2 as [H2 _].
  pose proof (walk_trans _ _ _ _ _ _ H1 H2) as Hwalk.
  destruct (shortest_path graph a c) as [[d3|]|]; simpl in H3;
    [|by destruct (H3 _ Hwalk)|done].
  exists d3. split; [done|]. by apply H3.
Qed.

(** ** Common lines *)

Lemma has_common_spec list1 list2 :
  has_common list1 list2 = true ↔ ∃ line, line ∈ list1 ∧ line ∈ list2.
Proof.
  unfold has_common, py_set. rewrite negb_true_iff, bool_decide_eq_false.
  split.
  - rewrite disjoint_intersection_L.
    intros [line [Hin1 Hin2]%elem_of_intersection]%set_choose_L.
    exists line. by rewrite <-!(elem_of_list_to_set (C:=gset Line)).
  - intros (line & Hin1 & Hin2) Hdisjoint.
    apply (Hdisjoint line); by apply elem_of_list_to_set.
Qed.

Lemma mapM_station_lines_raise stations e :
  mapM (λ station, l ← py_getitem STATION_LINES station; Ret (py_set l))
       stations = Raise e →
  e = KeyError ∧ ∃ station, station ∈ stations ∧ STATION_LINES !! station = None.
Proof.
  induction stations as [|station stations IH]; simpl; [done|].
  destruct (py_getitem STATION_LINES station) as [lines|e'] eqn:Hlines; simpl.
  - destruct (mapM _ stations) as [sets|]; simpl; [done|].
    intros [= <-]. destruct IH as [-> (station' & ? & ?)]; [done|].
    split; [done|]. exists station'. split; [by right|done].
  - unfold py_getitem in Hlines.
    destruct (STATION_LINES !! station) eqn:Hlookup; simplify_eq.
    intros [= <-]. split; [done|]. exists station. split; [by left|done].
Qed.

Lemma mapM_station_lines_known stations :
  Forall (λ station, is_Some (STATION_LINES !! station)) stations →
  ∃ sets,
    mapM (λ station, l ← py_getitem STATION_LINES station; Ret (py_set l))
         stations = Ret sets.
Proof.
  intros Hknown.
  destruct (mapM _ stations) as [sets|e] eqn:Hsets; [by eexists|].
  apply mapM_station_lines_raise in Hsets as [_ (station & Hin & Hnone)].
  eapply Forall_forall in Hknown as [? ?]; [|done]. congruence.
Qed.

Lemma common_line_set_raise stations e :
  common_line_set stations = Raise e →
  (e = ValueError "Not enough stations for calculaton" ∧ stations = []) ∨
  (e = KeyError ∧ stations ≠ [] ∧
   ∃ station, station ∈ stations ∧ STATION_LINES !! station = None).
Proof.
  unfold common_line_set. case_bool_decide as Hlen.
  - intros [= <-]. left. split; [done|]. by destruct stations.
  - destruct (mapM _ stations) as [sets|e'] eqn:Hsets; simpl.
    + apply mapM_station_lines in Hsets.
      destruct Hsets; [done|]. done.
    + intros [= <-]. apply mapM_station_lines_raise in Hsets as [-> ?].
      right. split_and!; try done. by intros ->.
Qed.

Lemma common_line_set_ret stations val line :
  common_line_set stations = Ret val →
  line ∈ val ↔
  Forall (λ station, ∃ lines,
            STATION_LINES !! station = Some lines ∧ line ∈ lines) stations.
Proof.
  intros Hval. split; [by eapply common_line_set_elem_of|].
  revert Hval. unfold common_line_set. case_bool_decide; [done|].
  destruct (mapM _ stations) as [sets|] eqn:Hsets; simpl; [|done].
  apply mapM_station_lines in Hsets.
  destruct sets as [|first rest]; [done|]. intros [= <-] Hall.
  assert (Forall (λ val, line ∈ val) (first :: rest)) as Hin.
  { clear -Hsets Hall. revert Hall. generalize (first :: rest) Hsets. clear.
    intros sets Hsets.
    induction Hsets as [|station val ? ? (lines & Hlines & ->) _ IH];
      intros Hall; [constructor|].
    apply Forall_cons in Hall as [(lines' & Hlines' & Hin) Hall].
    constructor; [|by apply IH]. apply elem_of_list_to_set. congruence. }
  apply Forall_cons in Hin as [? ?]. by apply elem_of_foldl_intersection.
Qed.

Lemma common_line_set_known stations :
  stations ≠ [] →
  Forall (λ station, is_Some (STATION_LINES !! station)) stations →
  ∃ val, common_line_set stations = Ret val.
Proof.
  intros Hne Hknown.
  destruct (common_line_set stations) as [val|e] eqn:Hval; [by eexists|].
  apply common_line_set_raise in Hval
    as [[_ ?]|(_ & _ & station & Hin & Hnone)]; [done|].
  eapply Forall_forall in Hknown as [? ?]; [|done]. congruence.
Qed.

(** X12: [common_line_between_stations] raises [ValueError] exactly on
    the empty list, [KeyError] exactly on a list that is not empty and
    holds a station that is not in [STATION_LINES], and nothing else;
    otherwise it lists exactly the lines on which all the stations are. *)
Theorem common_lines_are_the_shared_lines order stations :
  (common_line_between_stations order stations =
     Raise (ValueError "Not enough stations for calculaton") ↔
   stations = []) ∧
  (common_line_between_stations order stations = Raise KeyError ↔
   stations ≠ [] ∧
   ∃ station, station ∈ stations ∧ STATION_LINES !! station = None) ∧
  match common_line_between_stations order stations with
  | Ret common =>
      ∀ line, line ∈ common ↔
        Forall (λ station, ∃ lines,
                  STATION_LINES !! station = Some lines ∧ line ∈ lines) stations
  | Raise e =>
      e = ValueError "Not enough stations for calculaton" ∨ e = KeyError
  end.
Proof.
  unfold common_line_between_stations.
  destruct (common_line_set stations) as [val|e] eqn:Hval; simpl.
  - assert (stations ≠ []) as Hne by (intros ->; by vm_compute in Hval).
    assert (Forall (λ station, is_Some (STATION_LINES !! station)) stations)
      as Hknown.
    { revert Hval. unfold common_line_set. case_bool_decide; [done|].
      destruct (mapM _ stations) as [sets|] eqn:Hsets; simpl; [|done].
      intros _. apply mapM_station_lines in Hsets. clear -Hsets.
      induction Hsets as [|station set' ? ? (lines & Hlines & _) _ IH];
        constructor; eauto. }
    split_and!.
    + split; [done|]. by intros ?.
    + split; [done|]. intros (_ & station & Hin & Hnone).
      eapply Forall_forall in Hknown as [? ?]; [|done]. congruence.
    + intros line. rewrite py_list_elem_of. by apply common_line_set_ret.
  - apply common_line_set_raise in Hval
      as [[-> ->]|(-> & Hne & Hmissing)].
    + split_and!; [done| |by left]. split; [done|]. by intros [? _].
    + split_and!; [|done|by right]. split; [done|]. by intros ?.
Qed.

(** ** The lines that the second loop hands over *)

Lemma py_index_of_nat {A} (l : list A) (j : nat) :
  py_index l (Z.of_nat j) =
  match l !! j with Some x => Ret x | None => Raise IndexError end.
Proof.
  unfold py_index.
  replace (Z.of_nat j <? 0) with false by (symmetry; apply Z.ltb_ge; lia).
  rewrite Nat2Z.id. destruct (l !! j) as [x|] eqn:Hj.
  - apply lookup_lt_Some in Hj.
    replace (Z.of_nat j <? Z.of_nat (length l)) with true
      by (symmetry; apply Z.ltb_lt; lia).
    by replace (0 <=? Z.of_nat j) with true by (symmetry; apply Z.leb_le; lia).
  - by destruct (_ && _).
Qed.

Lemma py_index_raise {A} (l : list A) (i : Z) (e : exn) :
  py_index l i = Raise e → e = IndexError.
Proof.
  unfold py_index. destruct (_ && _); [destruct (l !! _)|]; congruence.
Qed.

Section handing_over.
Context (order : set_iteration).

Lemma backfill_GoTo route k route' to frm on_line stations to_line :
  backfill order route k = Ret route' →
  route !! k = Some (GoTo to frm on_line stations to_line) →
  ∃ line following,
    route !! S k = Some following ∧
    route' = <[k := GoTo to frm line stations
                 match following with
                 | Transfer _ _ next_line => Some next_line
                 | _ => to_line
                 end]> route.
Proof.
  unfold backfill. intros H Hk. rewrite Hk in H.
  destruct (first_common_line order stations) as [line|]; simpl in H; [|done].
  replace (Z.of_nat k + 1) with (Z.of_nat (S k)) in H by lia.
  rewrite py_index_of_nat in H.
  assert (k < length route)%nat by eauto using lookup_lt_Some.
  rewrite list_lookup_insert_ne in H by lia.
  destruct (route !! S k) as [following|]; simpl in H; [|done].
  exists line, following. split; [done|].
  destruct following; simplify_eq/=; by rewrite ?list_insert_insert_eq.
Qed.

Lemma backfill_Transfer route k route' at_ from_line to_line :
  backfill order route k = Ret route' →
  route !! k = Some (Transfer at_ from_line to_line) →
  ∃ line,
    route' = <[k := Transfer at_ line to_line]> route ∧
    ∀ j to frm on_line stations to_line',
      k = S j → route !! j = Some (GoTo to frm on_line stations to_line') →
      line = on_line.
Proof.
  unfold backfill. intros H Hk. rewrite Hk in H.
  destruct (py_index route (Z.of_nat k - 1)) as [previous|e] eqn:Hprevious.
  - destruct previous as [| to frm on_line stations to_line' | |];
      simplify_eq/=.
    2: { exists on_line. split; [done|]. intros j ? ? ? ? ? ->.
         replace (Z.of_nat (S j) - 1) with (Z.of_nat j) in Hprevious by lia.
         rewrite py_index_of_nat in Hprevious. intros Hj. rewrite Hj in Hprevious.
         congruence. }
    all: exists from_line; split; [by rewrite list_insert_id|];
      intros j ? ? ? ? ? ->;
      replace (Z.of_nat (S j) - 1) with (Z.of_nat j) in Hprevious by lia;
      rewrite py_index_of_nat in Hprevious; intros Hj; rewrite Hj in Hprevious;
      congruence.
  - apply py_index_raise in Hprevious as Heq. subst e. simplify_eq/=.
    exists from_line. split; [by rewrite list_insert_id|].
    intros j ? ? ? ? ? ->.
    replace (Z.of_nat (S j) - 1) with (Z.of_nat j) in Hprevious by lia.
    rewrite py_index_of_nat in Hprevious. intros Hj. rewrite Hj in Hprevious.
    congruence.
Qed.

Lemma backfill_other route k route' :
  backfill order route k = Ret route' →
  match route !! k with
  | Some (GoTo _ _ _ _ _) | Some (Transfer _ _ _) => True
  | _ => route' = route
  end.
Proof.
  unfold backfill. destruct (route !! k) as [[]|]; try done; by intros [= <-].
Qed.

Lemma backfill_handing_over route k route' :
  backfill order route k = Ret route' →
  (∀ j, (j < k)%nat → to_line_taken route j) →
  (∀ j, (S j < k)%nat → from_line_taken route j) →
  (∀ j, (j < S k)%nat → to_line_taken route' j) ∧
  (∀ j, (S j < S k)%nat → from_line_taken route' j).
Proof.
  intros Hk Hto Hfrom.
  pose proof (backfill_other _ _ _ Hk) as Hother.
  destruct (route !! k) as [[at_ from_line to_line|to frm on_line stations to_line
                            |station|station]|] eqn:Hat;
    try (simpl in Hother; subst route'; split; intros j Hj;
         [destruct (decide (j = k)) as [->|]; [|by apply Hto; lia]
         |destruct (decide (S j = k)) as [<-|]; [|by apply Hfrom; lia]];
         intros ? ? ? ? ? ? ? ? Hgo Hnext; congruence).
  - (* a Transfer at [k] *)
    destruct (backfill_Transfer _ _ _ _ _ _ Hk Hat) as (line & -> & Hline).
    assert (k < length route)%nat by eauto using lookup_lt_Some.
    split; intros j Hj to frm on_line stations to_line' at' from_line' next_line.
    + destruct (decide (j = k)) as [->|Hne].
      { by rewrite list_lookup_insert_eq by done. }
      rewrite list_lookup_insert_ne by done. intros Hgo.
      destruct (decide (S j = k)) as [<-|Hne'].
      * rewrite list_lookup_insert_eq by done. intros [= <- <- <-].
        eapply (Hto j); [lia|done..].
      * rewrite list_lookup_insert_ne by done. intros Hnext.
        eapply (Hto j); [lia|done..].
    + rewrite list_lookup_insert_ne by lia. intros Hgo.
      destruct (decide (S j = k)) as [<-|Hne'].
      * rewrite list_lookup_insert_eq by done. intros [= <- <- <-].
        by eapply Hline.
      * rewrite list_lookup_insert_ne by done. intros Hnext.
        eapply (Hfrom j); [lia|done..].
  - (* a GoTo at [k] *)
    destruct (backfill_GoTo _ _ _ _ _ _ _ _ Hk Hat)
      as (line & following & Hfollowing & ->).
    assert (k < length route)%nat by eauto using lookup_lt_Some.
    split; intros j Hj to' frm' on_line' stations' to_line' at' from_line' next_line.
    + destruct (decide (j = k)) as [->|Hne].
      * rewrite list_lookup_insert_eq by done.
        rewrite list_lookup_insert_ne by lia. rewrite Hfollowing.
        by intros [= <- <- <- <- <-] [= ->].
      * rewrite list_lookup_insert_ne by done. intros Hgo.
        destruct (decide (S j = k)) as [<-|Hne'].
        { by rewrite list_lookup_insert_eq by done. }
        rewrite list_lookup_insert_ne by done. intros Hnext.
        eapply (Hto j); [lia|done..].
    + rewrite list_lookup_insert_ne by lia. intros Hgo.
      destruct (decide (S j = k)) as [<-|Hne'].
      { by rewrite list_lookup_insert_eq by done. }
      rewrite list_lookup_insert_ne by done. intros Hnext.
      eapply (Hfrom j); [lia|done..].
Qed.

Lemma second_loop_handing_over n k route route' :
  second_loop order (seq k n) route = Ret route' →
  (∀ j, (j < k)%nat → to_line_taken route j) →
  (∀ j, (S j < k)%nat → from_line_taken route j) →
  (∀ j, (j < k + n)%nat → to_line_taken route' j) ∧
  (∀ j, (S j < k + n)%nat → from_line_taken route' j).
Proof.
  revert k route. induction n as [|n IH]; intros k route; simpl.
  - intros [= <-] Hto Hfrom. rewrite Nat.add_0_r. done.
  - destruct (backfill order route k) as [route1|] eqn:Hk; simpl; [|done].
    intros Hloop Hto Hfrom.
    destruct (backfill_handing_over _ _ _ Hk Hto Hfrom) as [Hto1 Hfrom1].
    replace (k + S n)%nat with (S k + n)%nat by lia. by eapply IH.
Qed.

Lemma lines_handed_over_lookup route :
  (∀ j, to_line_taken route j) → (∀ j, from_line_taken route j) →
  lines_handed_over route.
Proof.
  induction route as [|a route IH]; intros Hto Hfrom; [done|].
  assert (lines_handed_over route) as Hrest.
  { apply IH; intros j ? ? ? ? ? ? ? ? Hgo Hnext.
    - by eapply (Hto (S j)).
    - by eapply (Hfrom (S j)). }
  destruct a as [|to frm on_line stations to_line| |]; simpl; try done.
  split; [|done]. destruct route as [|[at_ from_line next_line| | |] route]; try done.
  split; [by eapply (Hfrom 0%nat)|by eapply (Hto 0%nat)].
Qed.

Lemma second_loop_lines_handed_over route route' :
  second_loop order (seq 0 (length route)) route = Ret route' →
  lines_handed_over route'.
Proof.
  intros Hloop.
  assert (length route' = length route) as Hlen.
  { apply second_loop_plain, (f_equal length) in Hloop.
    by rewrite !length_fmap in Hloop. }
  destruct (second_loop_handing_over _ _ _ _ Hloop) as [Hto Hfrom];
    [intros j ?; lia..|].
  apply lines_handed_over_lookup; intros j.
  - destruct (decide (j < length route)%nat); [by apply Hto|].
    intros ? ? ? ? ? ? ? ? Hgo%lookup_lt_Some. lia.
  - destruct (decide (S j < length route)%nat); [by apply Hfrom|].
    intros ? ? ? ? ? ? ? ? _ Hnext%lookup_lt_Some. lia.
Qed.
End handing_over.

(** ** What the first loop keeps *)

Lemma py_getitem_ret {V} (d : gmap string V) k v :
  py_getitem d k = Ret v → d !! k = Some v.
Proof. unfold py_getitem. by destruct (d !! k); intros [= <-]. Qed.

Lemma py_getitem_raise {V} (d : gmap string V) k e :
  py_getitem d k = Raise e → e = KeyError ∧ d !! k = None.
Proof. unfold py_getitem. by destruct (d !! k); intros [= <-]. Qed.

Lemma py_index_elem_of {A} (l : list A) i x : py_index l i = Ret x → x ∈ l.
Proof. intros [_ H]%py_index_inv. by eapply list_elem_of_lookup_2. Qed.

Section loop_rule.
Context (order : set_iteration) (path : list string).
Context (P Q : locals → Prop) (E : exn → Prop).
Context (Hbody : ∀ st,
  st = initial_locals ∨ (P st ∧ i st < Z.of_nat (length path) ∧ i st ≠ 0) →
  match body order path st with
  | Ret (Continue st') => P st' ∧ i st' < Z.of_nat (length path)
  | Ret (Break st') => Q st'
  | Raise e => E e
  end).

Lemma first_loop_rule_from fuel n st :
  path ≠ [] →
  reach order path n initial_locals st →
  n = 0%nat ∨ (P st ∧ i st < Z.of_nat (length path)) →
  match first_loop order path fuel st with
  | Some (Ret st') => Q st'
  | Some (Raise e) => E e
  | None => True
  end.
Proof.
  intros Hpath. revert n st.
  induction fuel as [|fuel IH]; intros n st Hreach Hst.
  all: assert (i st < Z.of_nat (length path)) as Hlt
    by (destruct Hst as [->|[_ ?]]; [|done]; inversion Hreach; subst; simpl;
        destruct path; [done|simpl; lia]).
  all: simpl; rewrite bool_decide_eq_true_2 by done.
  { done. }
  destruct (decide (n ≠ 0%nat ∧ i st = 0)) as [[Hn Hi]|Hfirst].
  { destruct n as [|n]; [done|].
    assert (first_loop order path (S n + S fuel) initial_locals = None)
      as Hnone by (apply (first_loop_cycle _ _ n _ st); [done|by split; [|left]]).
    rewrite (first_loop_reach _ _ _ _ _ _ Hreach) in Hnone. simpl in Hnone.
    rewrite bool_decide_eq_true_2 in Hnone by done.
    by rewrite Hnone. }
  assert (st = initial_locals ∨
          (P st ∧ i st < Z.of_nat (length path) ∧ i st ≠ 0)) as Hst'.
  { destruct Hst as [->|[HP _]]; [left; by inversion Hreach|].
    destruct n as [|n]; [left; by inversion Hreach|].
    right. split_and!; try done. intros Hi. apply Hfirst. done. }
  pose proof (Hbody st Hst') as Hstep.
  destruct (body order path st) as [[st1|st1]|] eqn:Hst1; [|done..].
  apply (IH (S n) st1); [|by right].
  eapply reach_snoc; eauto.
Qed.

Lemma first_loop_rule fuel :
  path ≠ [] →
  match first_loop order path fuel initial_locals with
  | Some (Ret st') => Q st'
  | Some (Raise e) => E e
  | None => True
  end.
Proof.
  intros Hpath. apply (first_loop_rule_from fuel 0); [done|constructor|by left].
Qed.
End loop_rule.

Section scan_stations.
Context (path : list string).

Lemma scan_result cl buf i :
  match (scan path cl buf i).1.1 with
  | Ret () => cond path cl (scan path cl buf i).2 = Ret false
  | Raise e => cond path cl (scan path cl buf i).2 = Raise e
  end.
Proof.
  revert buf. induction i as [i IH] using (scan_induction path). intros buf.
  rewrite scan_step.
  destruct (cond path cl i) as [[]|] eqn:Hc; simpl; try assumption.
  destruct (py_index path i) as [here|] eqn:Hhere; simpl.
  - apply (IH cl Hc).
  - unfold cond in Hc. rewrite Hhere in Hc. discriminate.
Qed.

Lemma cond_known cl i here :
  py_index path i = Ret here →
  match cond path cl i with
  | Ret true | Raise IndexError => is_Some (STATION_LINES !! here)
  | _ => True
  end.
Proof.
  intros Hhere. unfold cond. rewrite Hhere. simpl.
  destruct (py_getitem STATION_LINES here) as [lines|e] eqn:Hlines; simpl.
  - apply py_getitem_ret in Hlines.
    by destruct (_ ≫= _) as [[]|[]].
  - by apply py_getitem_raise in Hlines as [-> _].
Qed.

Lemma cond_let_out c i e :
  cond path (Some c) i = Raise e → let_out path e.
Proof.
  unfold cond.
  destruct (py_index path i) as [here|e'] eqn:Hhere; simpl;
    [|intros [= <-]; by apply py_index_raise in Hhere as ->].
  destruct (py_getitem STATION_LINES here) as [lines|e'] eqn:Hlines; simpl;
    [|intros [= <-]; apply py_getitem_raise in Hlines as [-> ?];
      exists here; eauto using py_index_elem_of].
  destruct (py_index path (i + 1)) as [next|e'] eqn:Hnext; simpl;
    [|intros [= <-]; by apply py_index_raise in Hnext as ->].
  destruct (py_getitem STATION_LINES next) as [lines'|e'] eqn:Hlines'; simpl;
    [|intros [= <-]; apply py_getitem_raise in Hlines' as [-> ?];
      exists next; eauto using py_index_elem_of].
  by destruct (has_common lines lines').
Qed.

Lemma scan_on_the_way cl buf i :
  Forall (on_the_way path) buf →
  Forall (on_the_way path) (scan path cl buf i).1.2.
Proof.
  revert buf. induction i as [i IH] using (scan_induction path). intros buf Hbuf.
  rewrite scan_step.
  destruct (cond path cl i) as [[]|] eqn:Hc; simpl; try assumption.
  destruct (py_index path i) as [here|] eqn:Hhere; simpl; try assumption.
  apply (IH cl Hc). apply Forall_app. split; [done|].
  constructor; [|constructor]. split; [by eapply py_index_elem_of|].
  pose proof (cond_known cl i here Hhere) as Hknown. by rewrite Hc in Hknown.
Qed.
End scan_stations.

Lemma built_patch path start begin route common_line :
  built path start begin route →
  built path start begin (patch_to_line route common_line).
Proof.
  intros H. unfold patch_to_line.
  destruct H as [|route' ? ? ? ? ? ? ? H]; simpl; [by constructor|].
  rewrite last_app. simpl. rewrite length_app. simpl.
  replace (pred (length route' + 2)) with (length route' + 1)%nat by lia.
  rewrite insert_app_r. simpl. by constructor.
Qed.

Lemma built_settled path start begin route :
  built path start begin route → settled route.
Proof.
  destruct 1; [by exists (BeginAt start)|].
  eexists. rewrite last_app. simpl. done.
Qed.

Lemma first_common_line_let_out order path buf e :
  Forall (on_the_way path) buf →
  first_common_line order buf = Raise e → let_out path e.
Proof.
  intros Hbuf. unfold first_common_line, common_line_between_stations.
  destruct (common_line_set buf) as [val|e'] eqn:Hval; simpl.
  - by intros ->%py_index_raise.
  - intros [= <-].
    apply common_line_set_raise in Hval
      as [[-> _]|(_ & _ & station & Hin & Hnone)]; [done|].
    eapply Forall_forall in Hbuf as [_ [? ?]]; [|done]. congruence.
Qed.

Section building.
Context (order : set_iteration) (path : list string) (start : string).
Context (Hstart : py_index path 0 = Ret start).

Lemma start_block_kept st :
  st = initial_locals ∨ (kept path start st ∧ i st ≠ 0) →
  match start_block path st with
  | Ret st' => kept path start st' ∧ i st' = i st
  | Raise e => let_out path e
  end.
Proof.
  intros Hst. unfold start_block. destruct Hst as [->|[Hkept Hi]].
  - simpl. rewrite Hstart. simpl.
    destruct (py_getitem STATION_LINES start) as [lines|e] eqn:Hlines; simpl.
    + destruct (py_index lines 0) as [curline|e] eqn:Hcurline; simpl;
        [|by apply py_index_raise in Hcurline as ->].
      split; [|done]. split_and!; simpl; try done.
      constructor. split; [by eapply py_index_elem_of|].
      apply py_getitem_ret in Hlines. by eexists.
    + apply py_getitem_raise in Hlines as [-> ?]. exists start.
      eauto using py_index_elem_of.
  - by rewrite bool_decide_eq_false_2 by done.
Qed.

Lemma handler_kept st :
  kept path start st → i st < Z.of_nat (length path) →
  cond path (curline st) (i st) = Raise IndexError →
  match handler order path st with
  | Ret (Continue st') =>
      kept path start st' ∧ i st' < Z.of_nat (length path) ∧ st' = st
  | Ret (Break st') => finished path start st'
  | Raise e => let_out path e
  end.
Proof.
  intros (Hroute & Hcurline & Hbuf) Hlt Hcond. unfold handler.
  case_bool_decide as Hi; [|done].
  destruct (settled_final (route st)) as (final & -> & Hfinal);
    [by eapply built_settled|].
  simpl. rewrite Hfinal. simpl.
  destruct (first_common_line order (buf st)) as [common_line|e] eqn:Hline;
    simpl; [|by eapply first_common_line_let_out].
  destruct (py_index path (i st)) as [here|e] eqn:Hhere; simpl;
    [|by apply py_index_raise in Hhere as ->].
  assert (on_the_way path here) as Hhere'.
  { split; [by eapply py_index_elem_of|].
    pose proof (cond_known path (curline st) (i st) here Hhere) as Hknown.
    by rewrite Hcond in Hknown. }
  exists (patch_to_line (route st) common_line), (begin st), here, common_line,
         (buf st ++ [here]).
  split_and!; try done.
  - by apply built_patch.
  - apply Forall_app. split; [done|]. constructor; [done|constructor].
  - by rewrite <-Hi.
  - simpl. by rewrite <-app_assoc.
Qed.

Lemma try_block_kept st :
  kept path start st → i st < Z.of_nat (length path) →
  match try_block order path st with
  | Ret (Continue st') =>
      kept path start st' ∧ i st' < Z.of_nat (length path)
  | Ret (Break st') => finished path start st'
  | Raise e => let_out path e
  end.
Proof.
  intros (Hroute & Hcurline & Hbuf) Hlt. unfold try_block.
  pose proof (scan_lt path (curline st) (buf st) (i st) Hlt) as Hlt'.
  pose proof (scan_on_the_way path (curline st) (buf st) (i st) Hbuf) as Hbuf'.
  pose proof (scan_result path (curline st) (buf st) (i st)) as Hcond.
  destruct (scan path (curline st) (buf st) (i st)) as [[[[]|e] buf'] i'];
    simpl in *.
  - split; [done|lia].
  - destruct (curline st) as [c|] eqn:Hc; [|done].
    pose proof (cond_let_out _ _ _ _ Hcond) as He.
    destruct e; try done.
    assert (kept path start (Locals (route st) (begin st) buf' i' (Some c)))
      as Hkept by done.
    pose proof (handler_kept _ Hkept Hlt' Hcond) as Hhandler.
    destruct (handler order path _) as [[st'|st']|e]; try done.
    by destruct Hhandler as (? & ? & _).
Qed.

Lemma transfer_block_kept st :
  kept path start st →
  match transfer_block path st with
  | Ret st' => kept path start st' ∧
               (i st < Z.of_nat (length path) → i st' < Z.of_nat (length path))
  | Raise e => let_out path e
  end.
Proof.
  intros (Hroute & Hcurline & Hbuf). unfold transfer_block.
  destruct (py_index path (i st)) as [here|e] eqn:Hhere; simpl;
    [|by apply py_index_raise in Hhere as ->].
  destruct (py_getitem STATION_LINES here) as [lines|e] eqn:Hlines; simpl;
    [|apply py_getitem_raise in Hlines as [-> ?];
      exists here; eauto using py_index_elem_of].
  assert (on_the_way path here) as Hhere'.
  { split; [by eapply py_index_elem_of|].
    apply py_getitem_ret in Hlines. by eexists. }
  case_bool_decide; [|done].
  destruct (py_index lines 0) as [line|e] eqn:Hline; simpl;
    [|by apply py_index_raise in Hline as ->].
  destruct (py_index path (i st + 1)) as [next|e] eqn:Hnext; simpl;
    [|by apply py_index_raise in Hnext as ->].
  destruct (py_getitem STATION_LINES next) as [lines'|e] eqn:Hlines'; simpl;
    [|apply py_getitem_raise in Hlines' as [-> ?];
      exists next; eauto using py_index_elem_of].
  destruct (py_index lines' 0) as [line'|e] eqn:Hline'; simpl;
    [|by apply py_index_raise in Hline' as ->].
  split; [|intros _; by eapply py_index_lt].
  split_and!; simpl; try done.
  - rewrite <-app_assoc. by constructor.
  - constructor; [done|]. constructor; [|constructor].
    split; [by eapply py_index_elem_of|].
    apply py_getitem_ret in Hlines'. by eexists.
Qed.

Lemma body_kept st :
  st = initial_locals ∨
    (kept path start st ∧ i st < Z.of_nat (length path) ∧ i st ≠ 0) →
  match body order path st with
  | Ret (Continue st') =>
      kept path start st' ∧ i st' < Z.of_nat (length path)
  | Ret (Break st') => finished path start st'
  | Raise e => let_out path e
  end.
Proof.
  intros Hst. unfold body.
  assert (i st < Z.of_nat (length path)) as Hlt.
  { destruct Hst as [->|(_ & ? & _)]; [|done]. by apply py_index_lt in Hstart. }
  pose proof (start_block_kept st) as Hst1.
  destruct (start_block path st) as [st1|e]; simpl;
    [|apply Hst1; destruct Hst as [|(? & _ & ?)]; eauto].
  destruct Hst1 as [Hkept1 Hi1]; [destruct Hst as [|(? & _ & ?)]; eauto|].
  pose proof (try_block_kept st1 Hkept1) as Hst2.
  destruct (try_block order path st1) as [[st2|st2]|e]; simpl;
    try (apply Hst2; lia).
  destruct Hst2 as [Hkept2 Hlt2]; [lia|].
  pose proof (transfer_block_kept st2 Hkept2) as Hst3.
  destruct (transfer_block path st2) as [st3|e]; simpl; [|done].
  destruct Hst3. eauto.
Qed.
End building.

Lemma first_loop_finished order path start fuel :
  py_index path 0 = Ret start →
  match first_loop order path fuel initial_locals with
  | Some (Ret st) => finished path start st
  | Some (Raise e) => let_out path e
  | None => True
  end.
Proof.
  intros Hstart.
  apply (first_loop_rule order path (kept path start)).
  - intros st Hst. apply body_kept; [done|]. tauto.
  - intros ->. by vm_compute in Hstart.
Qed.

Lemma named_plain a : named (plain a) = named a.
Proof. by destruct a. Qed.

Lemma named_fmap_plain (route route' : list Action) :
  plain <$> route' = plain <$> route → named <$> route' = named <$> route.
Proof.
  intros H. apply (f_equal (fmap named)) in H.
  rewrite <-!list_fmap_compose in H.
  rewrite (list_fmap_ext (named ∘ plain) named route') in H
    by (intros; apply named_plain).
  by rewrite (list_fmap_ext (named ∘ plain) named route) in H
    by (intros; apply named_plain).
Qed.

Lemma built_named path start begin route :
  built path start begin route →
  on_the_way path begin ∧
  Forall (λ a, Forall (on_the_way path) (named a)) route.
Proof.
  induction 1 as [|route begin here ? stations ? ? ? _ [Hbegin IH] Hhere Hstations].
  - split; [done|]. by repeat apply Forall_cons_2.
  - split; [done|]. apply Forall_app. split; [done|].
    by repeat apply Forall_cons_2.
Qed.

Lemma finished_named path start st :
  finished path start st →
  Forall (λ a, Forall (on_the_way path) (named a)) (route st).
Proof.
  intros (route' & begin & stop & common_line & stations &
          [Hbegin Hroute']%built_named & Hstop & Hstations & _ & ->).
  apply Forall_app. split; [done|]. by repeat apply Forall_cons_2.
Qed.

Lemma built_journey path start begin route rest :
  built path start begin route → journey begin rest →
  ∃ rest', route ++ rest = BeginAt start :: rest' ∧ journey start rest'.
Proof.
  intros H. revert rest.
  induction H as [|? ? ? ? ? ? ? ? _ IH]; intros rest Hrest.
  - eauto.
  - rewrite <- app_assoc. apply IH. simpl. by constructor.
Qed.

Lemma journey_plain frm rest : journey frm (plain <$> rest) → journey frm rest.
Proof.
  remember (plain <$> rest) as plain_rest eqn:Heq. intros H. revert rest Heq.
  induction H as [|? ? ? ? ? ? ? rest' _ IH]; intros rest Heq.
  - destruct rest as [|[] [|[] [|]]]; simplify_eq/=. constructor.
  - destruct rest as [|[] [|[] rest]]; simplify_eq/=. constructor. by apply IH.
Qed.

Lemma journey_fmap_plain frm rest : journey frm rest → journey frm (plain <$> rest).
Proof. induction 1; simpl; by constructor. Qed.

Lemma finished_journey path start st :
  finished path start st →
  ∃ rest, route st = BeginAt start :: rest ∧ journey start rest.
Proof.
  intros (route' & begin & stop & common_line & stations &
          Hroute' & _ & _ & _ & ->).
  eapply built_journey; [done|constructor].
Qed.

Lemma backfill_let_out order path route k e :
  Forall (stops_on_the_way path) route →
  backfill order route k = Raise e → let_out path e.
Proof.
  intros Hroute. unfold backfill.
  destruct (route !! k) as [[at_ from_line to_line|to frm on_line stations to_line
                            |station|station]|] eqn:Hk; try done.
  - destruct (py_index route (Z.of_nat k - 1)) as [[]|e'] eqn:Hprevious;
      try done.
    apply py_index_raise in Hprevious as ->. done.
  - eapply Forall_lookup_1 in Hroute; [|done].
    unfold stops_on_the_way in Hroute. simpl in Hroute.
    apply Forall_cons in Hroute as [_ [_ Hstations]%Forall_cons].
    destruct (first_common_line order stations) as [line|e'] eqn:Hline; simpl.
    + destruct (py_index _ (Z.of_nat k + 1)) as [[]|e'] eqn:Hnext; simpl;
        try done.
      intros [= <-]. by apply py_index_raise in Hnext as ->.
    + intros [= <-]. by eapply first_common_line_let_out.
Qed.

Lemma second_loop_let_out order path indices route e :
  Forall (stops_on_the_way path) route →
  second_loop order indices route = Raise e → let_out path e.
Proof.
  revert route. induction indices as [|k indices IH]; intros route Hroute;
    simpl; [done|].
  destruct (backfill order route k) as [route1|e'] eqn:Hk; simpl.
  - apply IH. apply backfill_refilled, refilled_plain, named_fmap_plain in Hk.
    unfold stops_on_the_way in *.
    apply (Forall_fmap named (Forall (on_the_way path))). rewrite Hk.
    by apply (Forall_fmap named (Forall (on_the_way path))).
  - intros [= <-]. by eapply backfill_let_out.
Qed.

Lemma get_route_from_path_let_out order fuel path e :
  get_route_from_path order fuel path = Some (Raise e) →
  match e with
  | IndexError => True
  | KeyError => ∃ station, station ∈ path ∧ STATION_LINES !! station = None
  | ValueError msg => msg = "Not enough stations for calculaton"
  | NameError => False
  end.
Proof.
  change (get_route_from_path order fuel path = Some (Raise e) → let_out path e).
  destruct path as [|start path].
  { by destruct fuel. }
  unfold get_route_from_path.
  pose proof (first_loop_finished order (start :: path) start fuel eq_refl)
    as Hfirst.
  destruct (first_loop order (start :: path) fuel initial_locals)
    as [[st|e']|]; [|by intros [= <-]|done].
  intros [= Hsecond]. eapply second_loop_let_out; [|done].
  by apply (finished_named _ start).
Qed.

Lemma get_route_from_path_named order fuel path actions :
  get_route_from_path order fuel path = Some (Ret actions) →
  ∀ a station, a ∈ actions → station ∈ named a →
    station ∈ path ∧ is_Some (STATION_LINES !! station).
Proof.
  destruct path as [|start path].
  { destruct fuel; intros [= <-] a station Ha; by apply elem_of_nil in Ha. }
  intros (st & Hfirst & Hsecond)%get_route_from_path_inv a station Ha Hstation.
  pose proof (first_loop_finished order (start :: path) start fuel eq_refl)
    as Hfinished.
  rewrite Hfirst in Hfinished. apply finished_named in Hfinished.
  apply second_loop_plain, named_fmap_plain in Hsecond.
  apply (Forall_fmap named (Forall (on_the_way (start :: path)))) in Hfinished.
  rewrite <-Hsecond in Hfinished.
  apply (Forall_fmap named (Forall (on_the_way (start :: path)))) in Hfinished.
  eapply Forall_forall in Hfinished; [|done]. simpl in Hfinished.
  eapply Forall_forall in Hfinished; [|done]. done.
Qed.

(** X15: in a returned itinerary every [GoTo] leaves from the station
    where the one before it arrived (the first from the station of
    [BeginAt], which is [path[0]]), every [Transfer] is at the station
    where the [GoTo] before it arrived, and [ArriveAt] names the station
    of the last [GoTo]. *)
Theorem route_legs_connect order fuel path actions :
  path ≠ [] →
  get_route_from_path order fuel path = Some (Ret actions) →
  ∃ start rest,
    path !! 0%nat = Some start ∧ actions = BeginAt start :: rest ∧
    journey start rest.
Proof.
  intros Hpath (st & Hfirst & Hsecond)%get_route_from_path_inv.
  destruct path as [|start path]; [done|].
  pose proof (first_loop_finished order (start :: path) start fuel eq_refl)
    as Hfinished.
  rewrite Hfirst in Hfinished.
  apply finished_journey in Hfinished as (rest & Hroute & Hrest).
  apply second_loop_plain in Hsecond. rewrite Hroute in Hsecond.
  destruct actions as [|[] rest']; simplify_eq/=.
  exists start, rest'. split_and!; try done.
  apply journey_plain. rewrite H0. by apply journey_fmap_plain.
Qed.

(** X16: in a returned itinerary a [Transfer] that follows a [GoTo] has
    the line of that [GoTo] as its [from_line], and the [GoTo] has the
    [to_line] of the [Transfer] as its own. *)
Theorem route_hands_lines_over order fuel path actions :
  get_route_from_path order fuel path = Some (Ret actions) →
  lines_handed_over actions.
Proof.
  intros (st & _ & Hsecond)%get_route_from_path_inv.
  by eapply second_loop_lines_handed_over.
Qed.

(** ** Paths along one line *)

Lemma py_getitem_Some {V} (d : gmap string V) k v :
  d !! k = Some v → py_getitem d k = Ret v.
Proof. unfold py_getitem. by intros ->. Qed.

Section one_line.
Context (order : set_iteration) (path : list string) (line : Line).
Context (Hline : Forall (on_line_of line) path).

Lemma cond_along k here next :
  path !! k = Some here → path !! S k = Some next →
  cond path (Some line) (Z.of_nat k) = Ret true.
Proof.
  intros Hhere Hnext. unfold cond.
  rewrite py_index_of_nat, Hhere. simpl.
  eapply Forall_lookup_1 in Hline as Hlines; [|exact Hhere].
  destruct Hlines as (lines & Hlines & Hin).
  rewrite (py_getitem_Some _ _ _ Hlines). simpl.
  replace (Z.of_nat k + 1) with (Z.of_nat (S k)) by lia.
  rewrite py_index_of_nat, Hnext. simpl.
  eapply Forall_lookup_1 in Hline as Hlines'; [|exact Hnext].
  destruct Hlines' as (lines' & Hlines' & Hin').
  rewrite (py_getitem_Some _ _ _ Hlines'). simpl.
  rewrite (proj2 (has_common_spec lines lines')) by eauto. simpl.
  f_equal. apply bool_decide_eq_true_2, elem_of_union. left.
  by apply elem_of_list_to_set.
Qed.

Lemma cond_at_the_end cl k here :
  path !! k = Some here → length path = S k →
  cond path cl (Z.of_nat k) = Raise IndexError.
Proof.
  intros Hhere Hlen. unfold cond.
  rewrite py_index_of_nat, Hhere. simpl.
  eapply Forall_lookup_1 in Hline as Hlines; [|exact Hhere].
  destruct Hlines as (lines & Hlines & Hin).
  rewrite (py_getitem_Some _ _ _ Hlines). simpl.
  replace (Z.of_nat k + 1) with (Z.of_nat (S k)) by lia.
  rewrite py_index_of_nat.
  by rewrite (proj2 (lookup_ge_None path (S k))) by lia.
Qed.

Lemma scan_along m k buf :
  length path = S (k + m) →
  scan path (Some line) buf (Z.of_nat k) =
  (Raise IndexError, buf ++ drop k (take (k + m) path), Z.of_nat (k + m)).
Proof.
  revert k buf. induction m as [|m IH]; intros k buf Hlen.
  - rewrite Nat.add_0_r. rewrite drop_ge by (rewrite length_take; lia).
    rewrite app_nil_r, scan_step.
    destruct (lookup_lt_is_Some_2 path k) as [here Hhere]; [lia|].
    by rewrite (cond_at_the_end _ k here) by (done || lia).
  - destruct (lookup_lt_is_Some_2 path k) as [here Hhere]; [lia|].
    destruct (lookup_lt_is_Some_2 path (S k)) as [next Hnext]; [lia|].
    rewrite scan_step, (cond_along k here next) by done.
    rewrite py_index_of_nat, Hhere.
    replace (Z.of_nat k + 1) with (Z.of_nat (S k)) by lia.
    rewrite IH by lia.
    replace (S k + m)%nat with (k + S m)%nat by lia.
    rewrite (drop_S _ here k), <-app_assoc; [done|].
    rewrite lookup_take_lt by lia. done.
Qed.
End one_line.

Lemma first_common_line_on_line order stations line :
  stations ≠ [] → Forall (on_line_of line) stations →
  ∃ first, first_common_line order stations = Ret first ∧
           Forall (on_line_of first) stations.
Proof.
  intros Hne Hline.
  destruct (common_line_set_known stations) as [val Hval]; [done| |].
  { eapply Forall_impl; [done|]. intros station (lines & ? & _). by eexists. }
  assert (line ∈ val) as Hin by (by apply (common_line_set_ret stations)).
  destruct (first_common_line_some order _ _ _ Hval Hin) as (first & ? & Hfirst).
  exists first. split; [done|]. by apply (common_line_set_ret stations val).
Qed.

Lemma second_loop_one_leg order first stop common_line stations on_line :
  first_common_line order stations = Ret on_line →
  second_loop order (seq 0 3)
    [BeginAt first; GoTo stop first common_line stations None; ArriveAt stop] =
  Ret [BeginAt first; GoTo stop first on_line stations None; ArriveAt stop].
Proof. intros H. simpl. unfold backfill. simpl. by rewrite H. Qed.

(** X17: a path of two stations or more that stays on the first line of
    its first station compiles to [BeginAt], one [GoTo] over the whole
    path, and [ArriveAt]; the line of the [GoTo] is one on which all the
    stations are. *)
Theorem path_along_one_line order fuel first rest line lines :
  rest ≠ [] →
  STATION_LINES !! first = Some (line :: lines) →
  Forall (on_line_of line) rest →
  ∃ on_line stop,
    last rest = Some stop ∧
    Forall (on_line_of on_line) (first :: rest) ∧
    get_route_from_path order (S fuel) (first :: rest) =
      Some (Ret [BeginAt first;
                 GoTo stop first on_line (first :: rest) None;
                 ArriveAt stop]).
Proof.
  intros Hrest Hfirst Hline.
  assert (Forall (on_line_of line) (first :: rest)) as Hpath.
  { constructor; [|done]. exists (line :: lines). split; [done|by left]. }
  set (path := first :: rest) in *.
  destruct (last rest) as [stop|] eqn:Hstop; [|by apply last_None in Hstop].
  assert (path = take (length rest) path ++ [stop]) as Hsplit.
  { apply last_Some in Hstop as [rest' ->]. unfold path.
    rewrite length_app. simpl.
    change (first :: rest' ++ [stop]) with ((first :: rest') ++ [stop]).
    rewrite take_app_length'; [done|simpl; lia]. }
  destruct (first_common_line_on_line order (take (length rest) path) line)
    as (common_line & Hcommon & _).
  { destruct rest; [done|]. done. }
  { by apply Forall_take. }
  destruct (first_common_line_on_line order path line)
    as (on_line & Hon_line & Hall); [done..|].
  exists on_line, stop. split_and!; try done.
  set (st1 := Locals [BeginAt first] first [] 0 (Some line)).
  assert (start_block path initial_locals = Ret st1) as Hst1.
  { unfold start_block. simpl. rewrite (py_getitem_Some _ _ _ Hfirst). done. }
  assert (path !! length rest = Some stop) as Hlookup.
  { rewrite Hsplit. rewrite lookup_app_r by (rewrite length_take; lia).
    rewrite length_take. unfold path. simpl.
    by replace (length rest - length rest `min` S (length rest))%nat
      with 0%nat by lia. }
  unfold get_route_from_path.
  rewrite first_loop_S by (simpl; lia).
  rewrite (body_handler order path initial_locals st1
             (take (length rest) path) (Z.of_nat (length rest))
             (BeginAt first) stop); try done.
  - rewrite Hcommon. rewrite <-Hsplit. f_equal.
    by apply second_loop_one_leg.
  - pose proof (scan_along path line Hpath (length rest) 0 [] eq_refl) as Hscan.
    by rewrite drop_0 in Hscan.
  - unfold path. simpl. lia.
  - by rewrite py_index_of_nat, Hlookup.
Qed.

(** ** Displaying *)

Lemma substring_two code a b :
  String.substring 0 2 code = String a (String b "") →
  ∃ rest, code = String a (String b "") +:+ rest.
Proof.
  destruct code as [|a' [|b' rest]]; simpl; try done.
  intros [= -> ->]. destruct rest; [by exists ""|]. by eexists.
Qed.

Lemma station_code_to_line_code line rest :
  station_code_to_line (line_code line +:+ rest) = Ret line.
Proof. by destruct line, rest. Qed.

(** X18: [station_code_to_line] reads the first two characters of the
    code: it returns the line whose letters they are, and raises
    [ValueError] for every other code, the codes of fewer than two
    characters included. *)
Theorem station_code_to_line_reads_the_prefix code :
  match station_code_to_line code with
  | Ret line => ∃ rest, code = line_code line +:+ rest
  | Raise e =>
      e = ValueError "" ∧ ∀ line rest, code ≠ line_code line +:+ rest
  end.
Proof.
  pose proof (station_code_to_line_code) as Hcode.
  unfold station_code_to_line in *.
  repeat (destruct (decide _) as [Heq|]; [by apply substring_two in Heq|]).
  split; [done|]. intros line rest ->. specialize (Hcode line rest).
  by repeat (destruct (decide _); [done|]).
Qed.

Lemma tables_agree :
  merge tables_differ STATION_LINES STATION_CODES = ∅.
Proof. by vm_compute. Qed.

#[global] Opaque STATION_CODES.

Lemma tables_agree_at station :
  match STATION_LINES !! station, STATION_CODES !! station with
  | Some lines, Some codes =>
      ∃ decoded, mapM station_code_to_line codes = Ret decoded ∧
                 length decoded = length lines ∧
                 ∀ line, line ∈ decoded ↔ line ∈ lines
  | None, None => True
  | _, _ => False
  end.
Proof.
  pose proof (lookup_merge tables_differ STATION_LINES STATION_CODES station)
    as H.
  rewrite tables_agree, lookup_empty in H.
  destruct (STATION_LINES !! station) as [lines|],
           (STATION_CODES !! station) as [codes|]; simpl in H; try done.
  destruct (mapM station_code_to_line codes) as [decoded|]; [|done].
  case_bool_decide as Hsame; [|done]. destruct Hsame as [Hlen Hset].
  exists decoded. split_and!; try done. intros line.
  by rewrite <-!(elem_of_list_to_set (C:=gset Line)), Hset.
Qed.

(** X19: [STATION_CODES] and [STATION_LINES] have the same stations, and
    a station has one code for each of its lines: its lines are exactly
    those that [station_code_to_line] reads from its codes. *)
Theorem station_codes_follow_the_lines station :
  match STATION_LINES !! station, STATION_CODES !! station with
  | Some lines, Some codes =>
      length codes = length lines ∧
      ∀ line, line ∈ lines ↔
        ∃ code, code ∈ codes ∧ station_code_to_line code = Ret line
  | None, None => True
  | _, _ => False
  end.
Proof.
  pose proof (tables_agree_at station) as H.
  destruct (STATION_LINES !! station) as [lines|],
           (STATION_CODES !! station) as [codes|]; try done.
  destruct H as (decoded & Hdecoded & Hlen & Hsame).
  assert (Forall2 (λ code line, station_code_to_line code = Ret line)
            codes decoded) as Hall.
  { clear -Hdecoded. revert decoded Hdecoded.
    induction codes as [|code codes IH]; intros decoded; simpl.
    - intros [= <-]. constructor.
    - destruct (station_code_to_line code) as [line|] eqn:Hline; simpl; [|done].
      destruct (mapM station_code_to_line codes) as [decoded'|]; simpl; [|done].
      intros [= <-]. constructor; eauto. }
  split; [by rewrite (Forall2_length _ _ _ Hall)|].
  intros line. rewrite <-Hsame. split.
  - intros Hin. apply list_elem_of_lookup in Hin as [k Hk].
    destruct (Forall2_lookup_r _ _ _ _ _ Hall Hk) as (code & Hcode & ?).
    exists code. split; [by eapply list_elem_of_lookup_2|done].
  - intros (code & Hin & Hline). apply list_elem_of_lookup in Hin as [k Hk].
    destruct (Forall2_lookup_l _ _ _ _ _ Hall Hk) as (line' & Hline' & ?).
    apply list_elem_of_lookup. exists k. congruence.
Qed.

Section displaying.
Context (colors : colorama) (title : string → string).

Lemma display_station_code_from_ret n i codes decoded text :
  mapM station_code_to_line codes = Ret decoded →
  ∃ shown, display_station_code_from colors n i codes text = Ret shown.
Proof.
  revert i decoded text. induction codes as [|code codes IH];
    intros i decoded text; simpl; [by eexists|].
  destruct (station_code_to_line code) as [line|]; simpl; [|done].
  destruct (mapM station_code_to_line codes) as [decoded'|]; simpl; [|done].
  intros _. by eapply IH.
Qed.

Lemma display_station_known station :
  is_Some (STATION_LINES !! station) →
  ∃ shown, display_station colors title station = Ret shown.
Proof.
  intros [lines Hlines]. pose proof (tables_agree_at station) as H.
  rewrite Hlines in H. unfold display_station.
  destruct (STATION_CODES !! station) as [codes|] eqn:Hcodes; [|done].
  destruct H as (decoded & Hdecoded & _).
  rewrite (py_getitem_Some _ _ _ Hcodes). simpl. unfold display_station_code.
  destruct (display_station_code_from_ret (length codes) 0 codes decoded "("
              Hdecoded) as [shown ->].
  by eexists.
Qed.

(** X20: [display_station] returns for the stations of [STATION_CODES];
    for any other name it raises [KeyError], and it raises nothing
    else. *)
Theorem display_station_raises_for_unknown_stations station :
  match display_station colors title station with
  | Ret shown => is_Some (STATION_CODES !! station)
  | Raise e => e = KeyError ∧ STATION_CODES !! station = None
  end.
Proof.
  pose proof (tables_agree_at station) as H.
  pose proof (display_station_known station) as Hknown.
  unfold display_station in *.
  destruct (STATION_CODES !! station) as [codes|] eqn:Hcodes.
  - rewrite (py_getitem_Some _ _ _ Hcodes) in *.
    destruct (STATION_LINES !! station) as [lines|]; [|done].
    destruct Hknown as [shown ->]; by eexists.
  - unfold py_getitem. by rewrite Hcodes.
Qed.

Lemma display_action_known action :
  Forall (λ station, is_Some (STATION_LINES !! station)) (named action) →
  ∃ shown, display_action colors title action = Ret shown.
Proof.
  destruct action as [at_ ? ?|to frm ? ? ?|station|station]; simpl;
    intros Hnamed.
  - apply Forall_cons in Hnamed as [[shown ->]%display_station_known _].
    by eexists.
  - apply Forall_cons in Hnamed as [[shown ->]%display_station_known Hnamed].
    apply Forall_cons in Hnamed as [[shown' ->]%display_station_known _].
    by eexists.
  - apply Forall_cons in Hnamed as [[shown ->]%display_station_known _].
    by eexists.
  - apply Forall_cons in Hnamed as [[shown ->]%display_station_known _].
    by eexists.
Qed.

Lemma display_route_from_known route txt :
  Forall (λ a, Forall (λ station, is_Some (STATION_LINES !! station)) (named a))
         route →
  ∃ text, display_route_from colors title route txt = Ret text.
Proof.
  revert txt. induction route as [|action route IH]; intros txt Hroute; simpl;
    [by eexists|].
  apply Forall_cons in Hroute as [[shown ->]%display_action_known Hroute].
  simpl. by apply IH.
Qed.

Lemma display_route_returned order fuel path actions :
  get_route_from_path order fuel path = Some (Ret actions) →
  ∃ text, display_route colors title actions = Ret text.
Proof.
  intros Hactions. apply display_route_from_known.
  apply Forall_forall. intros a Ha. apply Forall_forall. intros station Hstation.
  pose proof (get_route_from_path_named _ _ _ _ Hactions a station Ha
                Hstation) as [_ ?].
  done.
Qed.
End displaying.

Lemma string_app_assoc (s1 s2 s3 : string) :
  (s1 +:+ s2) +:+ s3 = s1 +:+ (s2 +:+ s3).
Proof.
  induction s1 as [|a s1 IH]; [done|].
  change (String a ((s1 +:+ s2) +:+ s3) = String a (s1 +:+ (s2 +:+ s3))).
  by rewrite IH.
Qed.

Lemma string_app_nil_r (s : string) : s +:+ "" = s.
Proof.
  induction s as [|a s IH]; [done|].
  change (String a (s +:+ "") = String a s). by rewrite IH.
Qed.

Section displaying_lists.
Context (colors : colorama) (title : string → string).

Lemma display_route_from_app route txt :
  display_route_from colors title route txt =
  text ← display_route colors title route; Ret (txt +:+ text).
Proof.
  unfold display_route. revert txt.
  induction route as [|action route IH]; intros txt; simpl.
  - by rewrite string_app_nil_r.
  - destruct (display_action colors title action) as [shown|]; simpl; [|done].
    rewrite (IH ((txt +:+ shown) +:+ newline)),
            (IH (("" +:+ shown) +:+ newline)).
    destruct (display_route_from colors title route "") as [text|]; simpl;
      [|done].
    change ("" +:+ shown) with shown. by rewrite !string_app_assoc.
Qed.

(** X22: [display_route] of two routes put together is the text of the
    first followed by the text of the second; the first exception of the
    two comes out. *)
Theorem display_route_app route1 route2 :
  display_route colors title (route1 ++ route2) =
  text1 ← display_route colors title route1;
  text2 ← display_route colors title route2;
  Ret (text1 +:+ text2).
Proof.
  assert (∀ txt, display_route_from colors title (route1 ++ route2) txt =
                 text1 ← display_route_from colors title route1 txt;
                 display_route_from colors title route2 text1) as Happ.
  { induction route1 as [|action route1 IH]; intros txt; simpl; [done|].
    destruct (display_action colors title action) as [shown|]; simpl; [|done].
    apply IH. }
  unfold display_route. rewrite Happ.
  destruct (display_route_from colors title route1 "") as [text1|]; simpl;
    [|done].
  by rewrite display_route_from_app.
Qed.

Lemma display_station_list_from_spec n i stations txt :
  n = (i + length stations)%nat →
  display_station_list_from colors title n i stations txt =
  texts ← mapM (display_station colors title) stations;
  Ret (txt +:+ match texts with
               | [] => ""
               | _ => enumeration texts
               end).
Proof.
  revert i txt. induction stations as [|station stations IH]; intros i txt Hn.
  - simpl. by rewrite string_app_nil_r.
  - simpl in *.
    destruct (display_station colors title station) as [shown|]; simpl; [|done].
    rewrite IH by lia.
    destruct (mapM (display_station colors title) stations) as [texts|] eqn:Htexts;
      simpl; [|done].
    assert (length texts = length stations) as Hlen.
    { clear -Htexts. revert texts Htexts.
      induction stations as [|s stations IH]; intros texts; simpl.
      - by intros [= <-].
      - destruct (display_station colors title s); simpl; [|done].
        destruct (mapM _ stations) as [texts'|]; simpl; [|done].
        intros [= <-]. simpl. f_equal. by apply IH. }
    f_equal. destruct texts as [|a [|b texts]]; simpl in *.
    + rewrite bool_decide_eq_false_2 by lia.
      rewrite bool_decide_eq_true_2 by lia.
      by rewrite !string_app_nil_r.
    + rewrite bool_decide_eq_true_2 by lia. by rewrite !string_app_assoc.
    + rewrite bool_decide_eq_false_2 by lia.
      rewrite bool_decide_eq_false_2 by lia. by rewrite !string_app_assoc.
Qed.

(** X23: [display_station_list] writes the texts of its stations with
    [", "] between them and [" and "] before the last. *)
Theorem display_station_list_enumerates stations :
  display_station_list colors title stations =
  texts ← mapM (display_station colors title) stations;
  Ret (enumeration texts).
Proof.
  unfold display_station_list.
  rewrite display_station_list_from_spec by done.
  destruct (mapM _ stations) as [[|a texts]|]; done.
Qed.
End displaying_lists.

(** ** [main] of [metroroute.py]: facts *)

Lemma all_found_from_hasiph :
  set_Forall (λ station, found_from_hasiph station = true) allstations_s.
Proof. apply (bool_decide_unpack _). by vm_compute. Qed.

Lemma metro_connected a b :
  a ∈ allstations_s → b ∈ allstations_s → ∃ n, walk metro a n b.
Proof.
  assert (∀ station, station ∈ allstations_s →
                     ∃ n, walk metro "hasiph" n station) as Hwalk.
  { intros station Hin%all_found_from_hasiph. unfold found_from_hasiph in Hin.
    pose proof (shortest_path_found metro "hasiph" station
                  (network_closed _ network_metro)) as Hfound.
    destruct (shortest_path metro "hasiph" station) as [[d|]|]; try done.
    exists d. apply Hfound. }
  intros [n Ha]%Hwalk [m Hb]%Hwalk.
  apply walk_reverse in Ha; [|apply network_symmetric, network_metro].
  exists (n + m). by eapply walk_trans.
Qed.

Lemma stations_have_lines :
  set_Forall (λ station, is_Some (STATION_LINES !! station)) allstations_s.
Proof. apply (bool_decide_unpack _). by vm_compute. Qed.

#[global] Opaque allstations_s.

Lemma chain_dom graph path :
  closed graph → chain graph path →
  (∀ start, head path = Some start → start ∈ dom graph) →
  Forall (λ station, station ∈ dom graph) path.
Proof.
  intros Hclosed. induction path as [|a [|b path] IH]; intros Hchain Hhead.
  - constructor.
  - repeat constructor. by apply Hhead.
  - destruct Hchain as [(adj & Hadj & Hin) Hchain].
    constructor; [by apply Hhead|]. apply IH; [done|].
    intros start [= <-]. by eapply Hclosed.
Qed.

Lemma get_route_from_path_single order fuel station actions :
  is_Some (STATION_LINES !! station) →
  get_route_from_path order fuel [station] ≠ Some (Ret actions).
Proof.
  intros [lines Hlines]. destruct fuel as [|fuel]; [done|].
  unfold get_route_from_path. rewrite first_loop_S by (by vm_compute).
  destruct lines as [|line lines'] eqn:Heq;
    [by apply STATION_LINES_nonempty in Hlines|].
  erewrite (body_handler order [station] initial_locals
    (Locals [BeginAt station] station [] 0 (Some line)) [] 0
    (BeginAt station) station); try done.
  - unfold start_block. simpl. by rewrite (py_getitem_Some _ _ _ Hlines).
  - simpl. rewrite scan_step. unfold cond. simpl.
    by rewrite (py_getitem_Some _ _ _ Hlines).
Qed.

Section metroroute_main_facts.
Context (colors : colorama) (title : string → string).
Context (order : set_iteration).

(** X24: when one of the two stations typed is not a station of
    [STATIONS], [main] of [metroroute.py] prints that it was not found,
    writes ["invalid path entered"] to the standard error and exits with
    status 1. *)
Theorem main_rejects_unknown_stations fuel frm to :
  frm ∉ allstations_s ∨ to ∉ allstations_s →
  ∃ out,
    metroroute_main colors title order fuel frm to =
      Some (Run out ["invalid path entered"] (Exited 1)) ∧
    (frm ∉ allstations_s →
     Fore_RED colors +:+ Style_BRIGHT colors +:+ "!!! Station " +:+ frm +:+
       " not found" +:+ Style_RESET_ALL colors ∈ out) ∧
    (to ∉ allstations_s →
     Fore_RED colors +:+ Style_BRIGHT colors +:+ "!!! Station " +:+ to +:+
       " not found" +:+ Style_RESET_ALL colors ∈ out).
Proof.
  intros Hunknown. unfold metroroute_main.
  assert (get_path metro frm to = Ret None) as ->.
  { unfold get_path. rewrite dom_metro.
    destruct Hunknown as [H|H].
    - rewrite (bool_decide_eq_true_2 (frm ∉ allstations_s)) by exact H.
      reflexivity.
    - rewrite (bool_decide_eq_true_2 (to ∉ allstations_s)) by exact H.
      rewrite orb_true_r. reflexivity. }
  eexists. split; [reflexivity|]. split; intros H.
  - rewrite (bool_decide_eq_true_2 (frm ∉ allstations_s)) by exact H.
    destruct (bool_decide (to ∉ allstations_s)).
    + apply elem_of_app. left. apply elem_of_app. right. by left.
    + apply elem_of_app. right. by left.
  - rewrite (bool_decide_eq_true_2 (to ∉ allstations_s)) by exact H.
    apply elem_of_app. right. by left.
Qed.

(** X25: the ways in which [main] of [metroroute.py] ends.  It exits
    with status 1 only for a station that is not in [STATIONS]; it
    returns only for two different stations, and the cost it prints last
    is the number of stations of the path plus 3, so never [-1]; an
    exception that comes out is [IndexError] or the [ValueError] of
    [common_line_between_stations], never [KeyError] nor the
    [ValueError] of [calculate_fare]. *)
Theorem main_endings fuel frm to r :
  metroroute_main colors title order fuel frm to = Some r →
  match how r with
  | Exited status =>
      status = 1 ∧ (frm ∉ allstations_s ∨ to ∉ allstations_s) ∧
      stderr r = ["invalid path entered"]
  | Returned =>
      frm ∈ allstations_s ∧ to ∈ allstations_s ∧ frm ≠ to ∧
      ∃ path, get_path metro frm to = Ret (Some path) ∧
        last (stdout r) =
          Some (newline +:+ "It will cost " +:+ Style_BRIGHT colors +:+
                pretty (Z.of_nat (length path) + 3) +:+ " Siyyats." +:+
                Style_RESET_ALL colors)
  | Uncaught e =>
      frm ∈ allstations_s ∧ to ∈ allstations_s ∧
      (e = IndexError ∨ e = ValueError "Not enough stations for calculaton")
  end.
Proof.
  unfold metroroute_main.
  set (out := if bool_decide (to ∉ allstations_s) then _ else _).
  pose proof (network_closed _ network_metro) as Hclosed.
  pose proof (get_path_least metro frm to network_metro) as Hshortest.
  pose proof (fare_by_path metro frm to) as Hfare.
  destruct (get_path metro frm to) as [[path|]|] eqn:Hpath.
  3: { exfalso; exact Hshortest. }
  - destruct (get_path_dom _ _ _ _ Hpath) as [Hfrm Hto].
    rewrite dom_metro in Hfrm, Hto.
    destruct (get_path_route _ _ _ _ Hpath) as [(_ & Hhead & Hlast & Hchain) _].
    assert (Forall (λ station, is_Some (STATION_LINES !! station)) path)
      as Hknown.
    { eapply Forall_impl.
      - apply (chain_dom metro path Hclosed Hchain). intros start Hstart.
        rewrite dom_metro. congruence.
      - intros station. rewrite dom_metro. apply stations_have_lines. }
    assert (∀ route, get_route_from_path order fuel path = Some (Ret route) →
                     (2 ≤ length path)%nat ∧ frm ≠ to) as Hlong.
    { intros route Hroute.
      destruct path as [|a [|b path]]; [done| |].
      - injection Hhead as ->.
        destruct (get_route_from_path_single order fuel frm route); [|done].
        by apply stations_have_lines.
      - split; [simpl; lia|]. intros ->.
        destruct Hshortest as [_ Hleast].
        specialize (Hleast 0 (walk_here _ _ ltac:(by rewrite dom_metro))).
        simpl in Hleast. lia. }
    pose proof (get_route_from_path_let_out order fuel path) as Hraise.
    destruct (get_route_from_path order fuel path) as [[route|e]|] eqn:Hroute.
    3: { intros [=]. }
    + destruct (display_route_returned colors title _ _ _ _ Hroute)
        as [pretty_route ->].
      destruct (Hlong route eq_refl) as [Hlen Hne].
      rewrite Hfare. intros [= <-]. cbn [how stdout stderr].
      split; [exact Hfrm|]. split; [exact Hto|]. split; [exact Hne|].
      exists path. split; [reflexivity|].
      rewrite bool_decide_eq_false_2 by lia.
      change (out ++ [?a; ?b]) with (out ++ [a] ++ [b]).
      rewrite app_assoc. apply last_snoc.
    + intros [= <-]. cbn [how stdout stderr].
      split; [exact Hfrm|]. split; [exact Hto|].
      specialize (Hraise e eq_refl). destruct e as [| |msg|].
      * destruct Hraise as (station & Hin & Hnone).
        eapply Forall_forall in Hknown as [? ?]; [|exact Hin]. congruence.
      * by left.
      * right. by rewrite Hraise.
      * destruct Hraise.
  - intros [= <-]. cbn [how stdout stderr].
    split; [reflexivity|]. split; [|reflexivity].
    destruct (decide (frm ∈ allstations_s)) as [Hfrm|]; [|by left].
    destruct (decide (to ∈ allstations_s)) as [Hto|]; [|by right].
    destruct (metro_connected frm to Hfrm Hto) as [n Hwalk].
    destruct (Hshortest n Hwalk).
Qed.
End metroroute_main_facts.

(** ** [main] of [metrofares.py]: facts *)

Lemma dict_get_set {V} (d : dict V) k v k' :
  dict_get (dict_set d k v) k' =
  if decide (k = k') then Some v else dict_get d k'.
Proof.
  induction d as [|[k0 v0] d IH]; simpl.
  - by destruct (decide (k = k')).
  - destruct (decide (k0 = k)) as [->|Hne]; simpl.
    + by destruct (decide (k = k')).
    + rewrite IH. destruct (decide (k0 = k')) as [->|]; [|done].
      by rewrite decide_False by done.
Qed.

Lemma prefix_inv s1 s2 :
  String.prefix s1 s2 = true →
  ∃ k, (k ≤ String.length s2)%nat ∧ s1 = String.substring 0 k s2.
Proof.
  revert s2. induction s1 as [|a s1 IH]; intros s2 H.
  - exists 0%nat. split; [lia|]. by destruct s2.
  - destruct s2 as [|b s2]; [done|]. simpl in H.
    destruct (Ascii.ascii_dec a b) as [->|]; [|done].
    destruct (IH s2 H) as (k & Hk & ->).
    exists (S k). split; [simpl; lia|done].
Qed.

Lemma py_in_cons needle c rest :
  py_in needle (String c rest) =
  String.prefix needle (String c rest) || py_in needle rest.
Proof. reflexivity. Qed.

Lemma py_in_nil needle : py_in needle "" = String.prefix needle "" || false.
Proof. reflexivity. Qed.

Lemma py_in_cpd mode :
  py_in mode "cpd" = true ↔ mode ∈ [""; "c"; "cp"; "cpd"; "p"; "pd"; "d"].
Proof.
  split.
  - rewrite !py_in_cons, py_in_nil, !orb_true_iff.
    intros [H|[H|[H|[H|[=]]]]]; apply prefix_inv in H as (k & Hk & ->);
      simpl in Hk; apply list_elem_of_In;
      destruct k as [|[|[|[|k]]]]; try lia; simpl; tauto.
  - rewrite !elem_of_cons, elem_of_nil.
    intros [->|[->|[->|[->|[->|[->|[->|[]]]]]]]]; by vm_compute.
Qed.

Lemma choose_mode_eq argv typed :
  choose_mode argv typed =
  Ret (if negb (py_in (default typed (argv !! 1%nat)) "cpd") then "d"
       else default typed (argv !! 1%nat)).
Proof.
  unfold choose_mode.
  assert ((if bool_decide (1 < length argv)%nat then py_index argv 1
           else Ret typed) = Ret (default typed (argv !! 1%nat))) as ->.
  { case_bool_decide as Hlen.
    - change 1 with (Z.of_nat 1). rewrite py_index_of_nat.
      destruct (lookup_lt_is_Some_2 argv 1%nat Hlen) as [arg ->]. done.
    - by rewrite (proj2 (lookup_ge_None argv 1%nat)) by lia. }
  reflexivity.
Qed.

(** X26: the mode of [metrofares.py].  With [''], ['cp'], ['pd'] or
    ['cpd'] as its mode, among them the empty answer to the question, the
    program prints nothing, since these are in ["cpd"] and no case of
    the [match] takes them; the map for Denizen is printed for ['d'] and
    for every mode that is not in ["cpd"]. *)
Theorem modes_of_metrofares argv typed :
  ∃ mode,
    choose_mode argv typed = Ret mode ∧
    (report_of mode = Silent ↔
     default typed (argv !! 1%nat) ∈ [""; "cp"; "pd"; "cpd"]) ∧
    (report_of mode = Denizen ↔
     default typed (argv !! 1%nat) = "d" ∨
     py_in (default typed (argv !! 1%nat)) "cpd" = false).
Proof.
  rewrite choose_mode_eq. eexists. split; [reflexivity|].
  pose proof (py_in_cpd (default typed (argv !! 1%nat))) as Hin.
  revert Hin. generalize (default typed (argv !! 1%nat)). intros raw Hin.
  rewrite list_elem_of_In in Hin. rewrite list_elem_of_In. cbn [In] in Hin |- *.
  destruct (py_in raw "cpd") eqn:Hmode; cbn [negb].
  - destruct Hin as [Hin _]. specialize (Hin eq_refl).
    destruct Hin as [<-|[<-|[<-|[<-|[<-|[<-|[<-|[]]]]]]]];
      (vm_compute; split; split; intros H;
       first [ discriminate H
             | reflexivity
             | by repeat (first [left; reflexivity | right])
             | exfalso; intuition discriminate ]).
  - destruct Hin as [_ Hin].
    assert (report_of "d" = Denizen) as -> by reflexivity.
    split; split; try done; [|by right].
    intros H. exfalso.
    assert (false = true) as Hfalse; [|discriminate Hfalse].
    apply Hin. tauto.
Qed.

Section fares_facts.
Context (graph : gmap string (list string)).

Lemma fares_from_spec start ends row :
  (∀ e, e ∈ ends → is_Some (fare_of graph start e)) →
  ∃ row', fares_from graph start ends row = Ret row' ∧
    ∀ e, dict_get row' e =
         if decide (e ∈ ends ∧ start ≠ e) then fare_of graph start e
         else dict_get row e.
Proof.
  revert row. induction ends as [|end_ ends IH]; intros row Hfares.
  - exists row. split; [done|]. intros e. rewrite decide_False; [done|].
    intros [[]%elem_of_nil _].
  - destruct (Hfares end_) as [fare Hfare]; [by left|].
    unfold fare_of in Hfare. simpl.
    destruct (calculate_fare graph start end_) as [fare'|] eqn:Hcalc; [|done].
    injection Hfare as ->. simpl.
    destruct (decide (start = end_)) as [<-|Hne].
    + destruct (IH row) as (row' & -> & Hrow'); [intros; apply Hfares; by right|].
      exists row'. split; [done|]. intros e. rewrite Hrow'.
      destruct (decide (e ∈ ends ∧ start ≠ e)) as [[? ?]|Hnot].
      * rewrite decide_True; [done|]. split; [by right|done].
      * rewrite decide_False; [done|].
        intros [[->|?]%elem_of_cons ?]; [done|]. by apply Hnot.
    + destruct (IH (dict_set row end_ fare)) as (row' & -> & Hrow');
        [intros; apply Hfares; by right|].
      exists row'. split; [done|]. intros e. rewrite Hrow', dict_get_set.
      destruct (decide (e ∈ ends ∧ start ≠ e)) as [[? ?]|Hnot].
      * rewrite decide_True; [done|]. split; [by right|done].
      * destruct (decide (end_ = e)) as [<-|Hne'].
        -- rewrite decide_True by (split; [by left|done]).
           unfold fare_of. by rewrite Hcalc.
        -- rewrite decide_False; [done|].
           intros [[->|?]%elem_of_cons ?]; [done|]. by apply Hnot.
Qed.

Lemma fares_table_spec starts all stations :
  (∀ a b, a ∈ starts → b ∈ all → is_Some (fare_of graph a b)) →
  ∃ stations', fares_table graph starts all stations = Ret stations' ∧
    ∀ start end_,
      entry stations' start end_ =
      if decide (start ∈ starts) then
        if decide (end_ ∈ all ∧ start ≠ end_) then fare_of graph start end_
        else None
      else entry stations start end_.
Proof.
  revert stations. induction starts as [|start starts IH];
    intros stations Hfares.
  - exists stations. split; [done|]. intros s e. rewrite decide_False; [done|].
    by intros ?%elem_of_nil.
  - destruct (fares_from_spec start all []) as (row & Hrow & Hget);
      [intros; apply Hfares; [by left|done]|].
    simpl. rewrite Hrow. simpl.
    destruct (IH (dict_set stations start row)) as (stations' & -> & Hget');
      [intros; apply Hfares; [by right|done]|].
    exists stations'. split; [done|]. intros s e. rewrite Hget'.
    destruct (decide (s ∈ starts)) as [Hin|Hnot].
    + rewrite (decide_True (P:=s ∈ start :: starts)); [done|by right].
    + unfold entry. rewrite dict_get_set.
      destruct (decide (start = s)) as [->|Hne].
      * rewrite (decide_True (P:=s ∈ s :: starts)) by (by left).
        by rewrite Hget.
      * rewrite (decide_False (P:=s ∈ start :: starts)); [done|].
        by intros [->|?]%elem_of_cons.
Qed.
End fares_facts.

Lemma fare_of_walk graph a n b :
  network graph → walk graph a n b →
  ∃ fare, calculate_fare graph a b = Ret fare ∧ (a ≠ b → 5 ≤ fare).
Proof.
  intros Hgraph Hwalk.
  pose proof (shortest_path_found graph a b (network_closed _ Hgraph)) as Hfound.
  unfold calculate_fare.
  destruct (shortest_path graph a b) as [[distance|]|]; simpl in *;
    [|by destruct (Hfound n)|done].
  eexists. split; [done|]. intros Hne. case_bool_decide as Hfare; [done|].
  destruct Hfound as [Hd _]. pose proof (walk_nonneg _ _ _ _ Hd).
  assert (distance = 0) as -> by lia. by apply walk_zero in Hd.
Qed.

Lemma calculate_fare_sym graph start end_ :
  network graph →
  calculate_fare graph start end_ = calculate_fare graph end_ start.
Proof.
  intros Hgraph. pose proof (network_closed _ Hgraph) as Hclosed.
  pose proof (network_symmetric _ Hgraph) as Hsym.
  pose proof (shortest_path_found graph start end_ Hclosed) as Hthere.
  pose proof (shortest_path_found graph end_ start Hclosed) as Hback.
  unfold calculate_fare.
  destruct (shortest_path graph start end_) as [[there|]|],
           (shortest_path graph end_ start) as [[back|]|];
    simpl in *; try done.
  - destruct Hthere as [Hthere Hleast], Hback as [Hback Hleast'].
    apply walk_reverse in Hthere, Hback; [|done..].
    apply Hleast in Hback. apply Hleast' in Hthere.
    by replace back with there by lia.
  - destruct Hthere as [Hthere _]. apply walk_reverse in Hthere; [|done].
    by destruct (Hback there).
  - destruct Hback as [Hback _]. apply walk_reverse in Hback; [|done].
    by destruct (Hthere back).
Qed.

(** X27: the table of fares of [metrofares.py], for stations that are
    all joined to one another: no exception comes out; the table has an
    entry for each pair of different stations and no other; the entry is
    the fare of [calculate_fare], at least 5, and the same in both
    directions. *)
Theorem fares_table_is_complete graph all :
  network graph →
  (∀ a b, a ∈ all → b ∈ all → ∃ n, walk graph a n b) →
  ∃ stations,
    fares_table graph all all [] = Ret stations ∧
    ∀ start end_,
      entry stations start end_ = entry stations end_ start ∧
      match entry stations start end_ with
      | Some fare =>
          start ∈ all ∧ end_ ∈ all ∧ start ≠ end_ ∧
          calculate_fare graph start end_ = Ret fare ∧ 5 ≤ fare
      | None => start ∉ all ∨ end_ ∉ all ∨ start = end_
      end.
Proof.
  intros Hgraph Hconnected.
  destruct (fares_table_spec graph all all []) as (stations & Hstations & Hget).
  { intros a b Ha Hb. destruct (Hconnected a b Ha Hb) as [n Hwalk].
    destruct (fare_of_walk graph a n b Hgraph Hwalk) as (fare & Hfare & _).
    unfold fare_of. rewrite Hfare. by eexists. }
  exists stations. split; [done|].
  assert (∀ start end_,
    entry stations start end_ =
    if decide (start ∈ all ∧ end_ ∈ all ∧ start ≠ end_)
    then fare_of graph start end_ else None) as Hentry.
  { intros start end_. rewrite Hget.
    destruct (decide (start ∈ all)) as [Hstart|Hstart].
    - destruct (decide (end_ ∈ all ∧ start ≠ end_)) as [[? ?]|Hnot].
      + by rewrite decide_True.
      + rewrite decide_False; [done|]. intros (_ & ? & ?). by apply Hnot.
    - rewrite decide_False; [done|]. by intros [? _]. }
  intros start end_. rewrite !Hentry. split.
  - unfold fare_of. rewrite (calculate_fare_sym graph end_ start Hgraph).
    destruct (decide (start ∈ all ∧ end_ ∈ all ∧ start ≠ end_))
      as [(? & ? & ?)|Hnot].
    + by rewrite decide_True.
    + rewrite decide_False; [done|]. intros (? & ? & ?). by apply Hnot.
  - destruct (decide (start ∈ all ∧ end_ ∈ all ∧ start ≠ end_))
      as [(Hstart & Hend & Hne)|Hnot].
    + destruct (Hconnected start end_ Hstart Hend) as [n Hwalk].
      destruct (fare_of_walk graph start n end_ Hgraph Hwalk)
        as (fare & Hfare & Hfive).
      unfold fare_of. rewrite Hfare. split_and!; try done. by apply Hfive.
    + destruct (decide (start ∈ all)); [|by left].
      destruct (decide (end_ ∈ all)); [|by right; left].
      destruct (decide (start = end_)); [by right; right|].
      destruct Hnot. done.
Qed.

Lemma elem_of_allstations station :
  station ∈ allstations ↔ station ∈ allstations_s.
Proof.
  unfold allstations. rewrite merge_sort_Permutation. apply elem_of_elements.
Qed.

Lemma chars_app (s1 s2 : string) :
  String.list_ascii_of_string (s1 +:+ s2) =
  String.list_ascii_of_string s1 ++ String.list_ascii_of_string s2.
Proof.
  induction s1 as [|a s1 IH]; [done|].
  change (a :: String.list_ascii_of_string (s1 +:+ s2) =
          a :: (String.list_ascii_of_string s1 ++ String.list_ascii_of_string s2)).
  by rewrite IH.
Qed.

Lemma py_in_char a s :
  py_in (String a "") s = true ↔ a ∈ String.list_ascii_of_string s.
Proof.
  induction s as [|c s IH].
  - split; [done|]. by intros ?%elem_of_nil.
  - rewrite py_in_cons, orb_true_iff, IH.
    change (String.list_ascii_of_string (String c s)) with (c :: String.list_ascii_of_string s).
    rewrite elem_of_cons. simpl.
    destruct (Ascii.ascii_dec a c) as [->|Hne].
    + split; [by left|]. intros _. left. by destruct s.
    + split; [by intros [?|?]; [|right]|]. intros [?|?]; [done|by right].
Qed.

Lemma py_replace_from_cons old new skip c rest :
  py_replace_from old new skip (String c rest) =
  match skip with
  | S skip => py_replace_from old new skip rest
  | O =>
      if String.prefix old (String c rest) then
        new +:+ py_replace_from old new (String.length old - 1) rest
      else String c (py_replace_from old new 0 rest)
  end.
Proof. reflexivity. Qed.

Lemma py_replace_from_chars old new skip s c :
  c ∈ String.list_ascii_of_string (py_replace_from old new skip s) →
  c ∈ String.list_ascii_of_string new ∨ c ∈ String.list_ascii_of_string s.
Proof.
  revert skip. induction s as [|a s IH]; intros skip; [by right|].
  change (String.list_ascii_of_string (String a s)) with (a :: String.list_ascii_of_string s).
  rewrite elem_of_cons, py_replace_from_cons. destruct skip as [|skip].
  - destruct (String.prefix old (String a s)).
    + rewrite chars_app, elem_of_app. intros [?|[?|?]%IH]; auto.
    + change (String.list_ascii_of_string (String a ?t)) with
        (a :: String.list_ascii_of_string t).
      rewrite elem_of_cons. intros [?|[?|?]%IH]; auto.
  - intros [?|?]%IH; auto.
Qed.

Lemma py_replace_chars old new s c :
  old ≠ "" →
  c ∈ String.list_ascii_of_string (py_replace old new s) →
  c ∈ String.list_ascii_of_string new ∨ c ∈ String.list_ascii_of_string s.
Proof.
  intros Hold. destruct old; [done|]. apply py_replace_from_chars.
Qed.

Lemma py_replace_char_gone a new s :
  a ∉ String.list_ascii_of_string new →
  a ∉ String.list_ascii_of_string (py_replace (String a "") new s).
Proof.
  intros Hnew. unfold py_replace. generalize 0%nat.
  induction s as [|c s IH]; intros skip; [by intros ?%elem_of_nil|].
  rewrite py_replace_from_cons. destruct skip as [|skip]; [|apply IH].
  change (String.prefix (String a "") (String c s)) with
    (if Ascii.ascii_dec a c then String.prefix "" s else false).
  destruct (Ascii.ascii_dec a c) as [->|Hne].
  - replace (String.prefix "" s) with true by (by destruct s).
    rewrite chars_app, elem_of_app. intros [?|?]; [done|]. by eapply IH.
  - change (String.list_ascii_of_string (String c ?t)) with
      (c :: String.list_ascii_of_string t).
    rewrite elem_of_cons. intros [?|?]; [done|]. by eapply IH.
Qed.

(** X28: whatever [str(stations)] is, the text that the case ['d'] of
    [metrofares.py] prints has no brace and no quote in it. *)
Theorem denizen_has_no_braces_or_quotes python_repr :
  py_in "{" (denizen python_repr) = false ∧
  py_in "}" (denizen python_repr) = false ∧
  py_in "'" (denizen python_repr) = false.
Proof.
  unfold denizen.
  set (s1 := py_replace "{" "map<[" python_repr).
  set (s2 := py_replace "}" "]>" s1).
  set (s3 := py_replace "'" "" s2).
  set (s4 := py_replace ", " ";" s3).
  set (s5 := py_replace ": " "=" s4).
  assert (∀ c, c ∈ String.list_ascii_of_string s5 →
    c ∈ String.list_ascii_of_string "=" ∨ c ∈ String.list_ascii_of_string ";" ∨
    c ∈ String.list_ascii_of_string s3) as H5.
  { intros c Hin. apply py_replace_chars in Hin as [Hin|Hin]; [by left| |done].
    apply py_replace_chars in Hin as [Hin|Hin]; [|by right; right|done].
    right. by left. }
  assert (∀ (c : Ascii.ascii) (s : string),
    bool_decide (c ∈ String.list_ascii_of_string s) = false →
    c ∉ String.list_ascii_of_string s) as Hno
    by (intros c s ?%bool_decide_eq_false; done).
  split_and!; apply not_true_is_false; rewrite py_in_char; intros Hin.
  - apply H5 in Hin as [Hin|[Hin|Hin]];
      [by apply (Hno _ "=") in Hin|by apply (Hno _ ";") in Hin|].
    apply py_replace_chars in Hin as [Hin|Hin]; [| |done];
      [by apply (Hno _ "") in Hin|].
    apply py_replace_chars in Hin as [Hin|Hin]; [| |done];
      [by apply (Hno _ "]>") in Hin|].
    revert Hin. by apply py_replace_char_gone, (Hno _ "map<[").
  - apply H5 in Hin as [Hin|[Hin|Hin]];
      [by apply (Hno _ "=") in Hin|by apply (Hno _ ";") in Hin|].
    apply py_replace_chars in Hin as [Hin|Hin]; [| |done];
      [by apply (Hno _ "") in Hin|].
    revert Hin. by apply py_replace_char_gone, (Hno _ "]>").
  - apply H5 in Hin as [Hin|[Hin|Hin]];
      [by apply (Hno _ "=") in Hin|by apply (Hno _ ";") in Hin|].
    revert Hin. by apply py_replace_char_gone, (Hno _ "").
Qed.

(** * The rest of the two programs: what they do *)

(** ** Building the graph *)

(** X4: in a graph built by [add_station] and [add_connection] every
    neighbour relation goes both ways, and both stations are keys of the
    graph. *)
Theorem network_is_undirected graph a b :
  network graph → edge graph a b →
  edge graph b a ∧ a ∈ dom graph ∧ b ∈ dom graph.
Proof.
  intros Hgraph (adj & Hadj & Hin). split_and!.
  - by apply (network_symmetric _ Hgraph a adj b).
  - apply elem_of_dom. by exists adj.
  - by apply (network_closed _ Hgraph a adj b).
Qed.

Lemma hasiph_korihasiph_edge : edge metro "hasiph" "korihasiph".
Proof.
  exists (default [] (metro !! "hasiph")). split; [by vm_compute|].
  apply list_elem_of_In. vm_compute. tauto.
Qed.

(** X4 between hasiph and korihasiph. *)
Lemma network_is_undirected_witness :
  edge metro "korihasiph" "hasiph" ∧ "hasiph" ∈ dom metro ∧
  "korihasiph" ∈ dom metro.
Proof.
  exact (network_is_undirected metro "hasiph" "korihasiph" network_metro
           hasiph_korihasiph_edge).
Defined.

(** ** The two searches *)

(** X5: a path that [get_path] returns starts at [start], ends at [end_],
    and each of its stations is followed by one of its neighbours; both
    ends are keys of the graph. *)
Theorem get_path_leads_to_the_end graph start end_ path :
  get_path graph start end_ = Ret (Some path) →
  start ∈ dom graph ∧ end_ ∈ dom graph ∧
  head path = Some start ∧ last path = Some end_ ∧ chain graph path.
Proof.
  intros Hpath. destruct (get_path_dom _ _ _ _ Hpath) as [? ?].
  destruct (get_path_route _ _ _ _ Hpath) as [(_ & ? & ? & ?) _]. done.
Qed.

(** X5 from southbridge to university. *)
Lemma get_path_leads_to_the_end_witness :
  "southbridge" ∈ dom metro ∧ "university" ∈ dom metro ∧
  head ["southbridge"; "parliament"; "university"] = Some "southbridge" ∧
  last ["southbridge"; "parliament"; "university"] = Some "university" ∧
  chain metro ["southbridge"; "parliament"; "university"].
Proof.
  apply (get_path_leads_to_the_end metro "southbridge" "university").
  vm_compute. reflexivity.
Defined.

(** X6: [get_path] and [shortest_path] answer alike: a path of [n]
    stations where the distance is [n - 1], [None] together, and the
    same exception. *)
Theorem get_path_counts_the_hops graph start end_ :
  match get_path graph start end_ with
  | Ret (Some path) =>
      shortest_path graph start end_ = Ret (Some (Z.of_nat (length path) - 1))
  | Ret None => shortest_path graph start end_ = Ret None
  | Raise e => shortest_path graph start end_ = Raise e
  end.
Proof. apply get_path_distance. Qed.

(** X7: on a graph built by [add_station] and [add_connection],
    [get_path] raises nothing; the path it returns passes no station
    twice and is as short as any walk from [start] to [end_]; it returns
    [None] only when there is no walk at all. *)
Theorem get_path_is_shortest graph start end_ :
  network graph →
  match get_path graph start end_ with
  | Ret (Some path) =>
      NoDup path ∧
      ∀ n, walk graph start n end_ → Z.of_nat (length path) - 1 ≤ n
  | Ret None => ∀ n, ¬ walk graph start n end_
  | Raise _ => False
  end.
Proof. apply get_path_least. Qed.

(** X7 from southbridge to university. *)
Lemma get_path_is_shortest_witness :
  match get_path metro "southbridge" "university" with
  | Ret (Some path) =>
      NoDup path ∧
      ∀ n, walk metro "southbridge" n "university" →
           Z.of_nat (length path) - 1 ≤ n
  | Ret None => ∀ n, ¬ walk metro "southbridge" n "university"
  | Raise _ => False
  end.
Proof.
  exact (get_path_is_shortest metro "southbridge" "university" network_metro).
Defined.

(** X8 from hasiph by way of southbridge to parliament. *)
Lemma shortest_path_triangle_witness :
  ∃ d3, shortest_path metro "hasiph" "parliament" = Ret (Some d3) ∧ d3 ≤ 2 + 1.
Proof.
  apply (shortest_path_triangle metro "hasiph" "southbridge" "parliament").
  - exact network_metro.
  - vm_compute. reflexivity.
  - vm_compute. reflexivity.
Defined.

(** ** Fares *)

(** X9: the fare follows from the path that [get_path] finds: a path of
    [n >= 2] stations costs [n + 3], the path of one station costs [-1],
    and [calculate_fare] raises [ValueError("invalid route")] where
    [get_path] returns [None]. *)
Theorem fare_of_the_path graph start end_ :
  match get_path graph start end_ with
  | Ret (Some path) =>
      calculate_fare graph start end_ =
        Ret (if bool_decide (length path = 1%nat) then -1
             else Z.of_nat (length path) + 3)
  | Ret None =>
      calculate_fare graph start end_ = Raise (ValueError "invalid route")
  | Raise e => calculate_fare graph start end_ = Raise e
  end.
Proof. apply fare_by_path. Qed.

(** X10: [calculate_fare] gives the same result in both directions, the
    [ValueError] included. *)
Theorem calculate_fare_symmetric graph start end_ :
  network graph →
  calculate_fare graph start end_ = calculate_fare graph end_ start.
Proof. apply calculate_fare_sym. Qed.

(** X10 between hasiph and rasir piss. *)
Lemma calculate_fare_symmetric_witness :
  calculate_fare metro "hasiph" "rasir piss" =
  calculate_fare metro "rasir piss" "hasiph".
Proof.
  exact (calculate_fare_symmetric metro "hasiph" "rasir piss" network_metro).
Defined.

(** ** Common lines *)

(** X11: [has_common] holds exactly when the two lists share an element;
    so it fails when one of them is empty. *)
Theorem has_common_iff_shared_line list1 list2 :
  has_common list1 list2 = true ↔ ∃ line, line ∈ list1 ∧ line ∈ list2.
Proof. apply has_common_spec. Qed.

(** ** The route compiler *)

(** X13: the exceptions that come out of [get_route_from_path] are
    [IndexError], [ValueError("Not enough stations for calculaton")] and
    [KeyError]; a [KeyError] means that a station of the path is not in
    [STATION_LINES]; [curline] is never read before it is bound. *)
Theorem route_compiler_exceptions order fuel path e :
  get_route_from_path order fuel path = Some (Raise e) →
  match e with
  | IndexError => True
  | KeyError => ∃ station, station ∈ path ∧ STATION_LINES !! station = None
  | ValueError msg => msg = "Not enough stations for calculaton"
  | NameError => False
  end.
Proof. apply get_route_from_path_let_out. Qed.

(** X13 on a path whose station is unknown. *)
Lemma route_compiler_exceptions_witness :
  ∃ station, station ∈ ["nowhere"] ∧ STATION_LINES !! station = None.
Proof.
  apply (route_compiler_exceptions elements_iteration 1 ["nowhere"] KeyError).
  vm_compute. reflexivity.
Defined.

(** X14: every station that a returned itinerary names, as the end of a
    leg, as a stop or as the place of a [Transfer], is a station of the
    path and a key of [STATION_LINES]. *)
Theorem route_names_stations_of_the_path order fuel path actions :
  get_route_from_path order fuel path = Some (Ret actions) →
  ∀ a station, a ∈ actions → station ∈ named a →
    station ∈ path ∧ is_Some (STATION_LINES !! station).
Proof. apply get_route_from_path_named. Qed.

(** X14 on the path from hasiph to southbridge, for the stop at
    korihasiph. *)
Lemma route_names_stations_of_the_path_witness :
  "korihasiph" ∈ ["hasiph"; "korihasiph"; "southbridge"] ∧
  is_Some (STATION_LINES !! "korihasiph").
Proof.
  refine (route_names_stations_of_the_path elements_iteration 1
            ["hasiph"; "korihasiph"; "southbridge"]
            [BeginAt "hasiph";
             GoTo "southbridge" "hasiph" CTL
                  ["hasiph"; "korihasiph"; "southbridge"] None;
             ArriveAt "southbridge"] _
            (GoTo "southbridge" "hasiph" CTL
                  ["hasiph"; "korihasiph"; "southbridge"] None)
            "korihasiph" _ _).
  - vm_compute. reflexivity.
  - apply list_elem_of_In. simpl. tauto.
  - apply list_elem_of_In. simpl. tauto.
Defined.

(** X15 on the path from university to korihasiph, which changes line at
    parliament. *)
Lemma route_legs_connect_witness :
  ∃ start rest,
    ["university"; "parliament"; "southbridge"; "korihasiph"] !! 0%nat =
      Some start ∧
    [BeginAt "university";
     GoTo "parliament" "university" APL ["university"; "parliament"] (Some CTL);
     Transfer "parliament" APL CTL;
     GoTo "korihasiph" "parliament" CTL
          ["parliament"; "southbridge"; "southbridge"; "korihasiph"] None;
     ArriveAt "korihasiph"] = BeginAt start :: rest ∧
    journey start rest.
Proof.
  apply (route_legs_connect elements_iteration 3).
  - discriminate.
  - vm_compute. reflexivity.
Defined.

(** X16 on the path from university to korihasiph. *)
Lemma route_hands_lines_over_witness :
  lines_handed_over
    [BeginAt "university";
     GoTo "parliament" "university" APL ["university"; "parliament"] (Some CTL);
     Transfer "parliament" APL CTL;
     GoTo "korihasiph" "parliament" CTL
          ["parliament"; "southbridge"; "southbridge"; "korihasiph"] None;
     ArriveAt "korihasiph"].
Proof.
  apply (route_hands_lines_over elements_iteration 3
           ["university"; "parliament"; "southbridge"; "korihasiph"]).
  vm_compute. reflexivity.
Defined.

(** X17 on the Central Line from hasiph to parliament. *)
Lemma path_along_one_line_witness :
  ∃ on_line stop,
    last ["korihasiph"; "southbridge"; "parliament"] = Some stop ∧
    Forall (on_line_of on_line)
      ["hasiph"; "korihasiph"; "southbridge"; "parliament"] ∧
    get_route_from_path elements_iteration 1
      ["hasiph"; "korihasiph"; "southbridge"; "parliament"] =
      Some (Ret [BeginAt "hasiph";
                 GoTo stop "hasiph" on_line
                   ["hasiph"; "korihasiph"; "southbridge"; "parliament"] None;
                 ArriveAt stop]).
Proof.
  apply (path_along_one_line elements_iteration 0 "hasiph"
           ["korihasiph"; "southbridge"; "parliament"] CTL [CSL; HTL]).
  - done.
  - by vm_compute.
  - repeat apply Forall_cons_2; try apply Forall_nil_2.
    + exists [CTL; CSL]. split; [by vm_compute|set_solver].
    + exists [CTL]. split; [by vm_compute|set_solver].
    + exists [CTL; APL]. split; [by vm_compute|set_solver].
Defined.

(** ** Displaying *)

(** X21: [display_route] raises nothing on an itinerary that
    [get_route_from_path] has returned. *)
Theorem returned_route_is_displayed colors title order fuel path actions :
  get_route_from_path order fuel path = Some (Ret actions) →
  ∃ text, display_route colors title actions = Ret text.
Proof. apply display_route_returned. Qed.

(** X21 on the path from hasiph to southbridge. *)
Lemma returned_route_is_displayed_witness :
  ∃ text,
    display_route no_colors (λ station, station)
      [BeginAt "hasiph";
       GoTo "southbridge" "hasiph" CTL
            ["hasiph"; "korihasiph"; "southbridge"] None;
       ArriveAt "southbridge"] = Ret text.
Proof.
  apply (returned_route_is_displayed no_colors (λ station, station)
           elements_iteration 1 ["hasiph"; "korihasiph"; "southbridge"]).
  vm_compute. reflexivity.
Defined.

(** ** The two programs *)

Lemma nowhere_is_no_station : "nowhere" ∉ allstations_s.
Proof. apply (bool_decide_unpack _). by vm_compute. Qed.

(** X24 from a station that does not exist. *)
Lemma main_rejects_unknown_stations_witness :
  ∃ out,
    metroroute_main no_colors (λ station, station) elements_iteration 1
      "nowhere" "hasiph" =
      Some (Run out ["invalid path entered"] (Exited 1)) ∧
    ("nowhere" ∉ allstations_s →
     Fore_RED no_colors +:+ Style_BRIGHT no_colors +:+ "!!! Station " +:+
       "nowhere" +:+ " not found" +:+ Style_RESET_ALL no_colors ∈ out) ∧
    ("hasiph" ∉ allstations_s →
     Fore_RED no_colors +:+ Style_BRIGHT no_colors +:+ "!!! Station " +:+
       "hasiph" +:+ " not found" +:+ Style_RESET_ALL no_colors ∈ out).
Proof.
  apply (main_rejects_unknown_stations no_colors (λ station, station)
           elements_iteration 1 "nowhere" "hasiph").
  left. exact nowhere_is_no_station.
Defined.

(** X25 from hasiph to southbridge. *)
Lemma main_endings_witness :
  "hasiph" ∈ allstations_s ∧ "southbridge" ∈ allstations_s ∧
  "hasiph" ≠ "southbridge" ∧
  ∃ path, get_path metro "hasiph" "southbridge" = Ret (Some path) ∧
    last (stdout hasiph_southbridge_run) =
      Some (newline +:+ "It will cost " +:+ Style_BRIGHT no_colors +:+
            pretty (Z.of_nat (length path) + 3) +:+ " Siyyats." +:+
            Style_RESET_ALL no_colors).
Proof.
  apply (main_endings no_colors (λ station, station) elements_iteration 1
           "hasiph" "southbridge" hasiph_southbridge_run).
  vm_compute. reflexivity.
Defined.

(** X27 on the network of the program. *)
Lemma fares_table_is_complete_witness :
  ∃ stations,
    fares_table metro allstations allstations [] = Ret stations ∧
    ∀ start end_,
      entry stations start end_ = entry stations end_ start ∧
      match entry stations start end_ with
      | Some fare =>
          start ∈ allstations ∧ end_ ∈ allstations ∧ start ≠ end_ ∧
          calculate_fare metro start end_ = Ret fare ∧ 5 ≤ fare
      | None => start ∉ allstations ∨ end_ ∉ allstations ∨ start = end_
      end.
Proof.
  apply (fares_table_is_complete metro allstations network_metro).
  intros a b Ha%elem_of_allstations Hb%elem_of_allstations.
  by apply metro_connected.
Defined.

